(** * Wappalyzer: a shallow embedding of [Wappalyzer/Wappalyzer.py]

    The development follows the Python module top-down:

    - [PyStr]: the [str] methods the module calls ([lower], [split], [join],
      [replace], [int(...)], [str(...)]);
    - [Dict]: insertion-ordered dictionaries;
    - exceptions and the state-and-exception monad (a Python exception leaves
      every mutation made before it in place);
    - [RegexEngine]: what the module uses of the interpreter, the [re]
      module and the limit [int] puts on digits, with [MiniRe], a
      backtracking implementation of a fragment of [re], as an instance;
    - the [Wappalyzer] class: [_prepare_pattern], [_prepare_app], [_has_app],
      [_set_detected_app], [_set_app_version], [_get_implied_apps],
      [get_categories], [get_versions], [get_confidence], [analyze],
      [analyze_with_versions];
    - the properties of the specification, one theorem per claim.

    Characters are the 256 code points of [ascii], read as Latin-1. *)

From Stdlib Require Import String Ascii ZArith List Lia Bool DecimalString Sorted.
From stdpp Require Import gmap strings list fin_maps.

Set Warnings "-clear-no-such-hyp".

Open Scope string_scope.
Open Scope Z_scope.

(** * Python string primitives *)

Module PyStr.

(** [c.isupper()] for a Latin-1 character: A-Z, and U+00C0..U+00DE but the
    multiplication sign U+00D7. *)
Definition is_upper (c : ascii) : bool :=
  let n := nat_of_ascii c in
  ((65 <=? n)%nat && (n <=? 90)%nat)
  || ((192 <=? n)%nat && (n <=? 222)%nat && negb (n =? 215)%nat).

Definition lower_char (c : ascii) : ascii :=
  if is_upper c then ascii_of_nat (nat_of_ascii c + 32) else c.

(** [s.lower()] *)
Fixpoint lower (s : string) : string :=
  match s with
  | EmptyString => EmptyString
  | String c s' => String (lower_char c) (lower s')
  end.

(** [old in s] at the head of [s] is [String.prefix old s]. *)

(** The scan of [s.replace(old, new)] for a non-empty [old]: left to right,
    non-overlapping; [skip] counts the characters of an occurrence that was
    just replaced and are still to be passed over. *)
Fixpoint replace_from (old new : string) (skip : nat) (s : string) : string :=
  match s with
  | EmptyString => EmptyString
  | String c s' =>
      match skip with
      | S k => replace_from old new k s'
      | O =>
          if String.prefix old s
          then new +:+ replace_from old new (String.length old - 1) s'
          else String c (replace_from old new 0 s')
      end
  end.

(** With an empty [old] Python puts [new] before every character and at the
    end. *)
Fixpoint replace_empty (new : string) (s : string) : string :=
  match s with
  | EmptyString => new
  | String c s' => new +:+ String c (replace_empty new s')
  end.

(** [s.replace(old, new)] *)
Definition replace (s old new : string) : string :=
  match old with
  | EmptyString => replace_empty new s
  | _ => replace_from old new 0 s
  end.

(** The scan of [s.split(sep)] for a non-empty [sep]; [cur] is the piece
    being read. *)
Fixpoint split_from (sep : string) (skip : nat) (cur : string) (s : string)
  : list string :=
  match s with
  | EmptyString => [cur]
  | String c s' =>
      match skip with
      | S k => split_from sep k cur s'
      | O =>
          if String.prefix sep s
          then cur :: split_from sep (String.length sep - 1) EmptyString s'
          else split_from sep 0 (cur +:+ String c EmptyString) s'
      end
  end.

(** [s.split(sep)]; the module only calls it with the separators ["\;"] and
    [":"] (an empty separator is a ValueError in Python). *)
Definition split (s sep : string) : list string :=
  split_from sep 0 EmptyString s.

(** [sep.join(l)] *)
Fixpoint join (sep : string) (l : list string) : string :=
  match l with
  | [] => EmptyString
  | [x] => x
  | x :: l' => x +:+ sep +:+ join sep l'
  end.

(** [str(n)] for a natural number and for an integer. *)
Definition str_of_nat (n : nat) : string :=
  NilZero.string_of_uint (Nat.to_uint n).

Definition str_of_Z (z : Z) : string :=
  NilZero.string_of_int (Z.to_int z).

(** Whitespace as [int(...)] strips it: U+0009..U+000D and U+0020, and of
    the characters above U+007F the spaces U+0085 and U+00A0. The separators
    U+001C..U+001F are not stripped: [int(chr(28) + '5')] is a ValueError. *)
Definition is_space (c : ascii) : bool :=
  let n := nat_of_ascii c in
  ((9 <=? n)%nat && (n <=? 13)%nat) || (n =? 32)%nat
  || (n =? 133)%nat || (n =? 160)%nat.

Definition is_digit (c : ascii) : bool :=
  let n := nat_of_ascii c in (48 <=? n)%nat && (n <=? 57)%nat.

Definition digit_val (c : ascii) : Z := Z.of_nat (nat_of_ascii c - 48).

Fixpoint lstrip (s : string) : string :=
  match s with
  | String c s' => if is_space c then lstrip s' else s
  | EmptyString => EmptyString
  end.

(** [rstrip] keeps a character when it is not a space or when something
    that is kept follows it. *)
Fixpoint rstrip (s : string) : string :=
  match s with
  | EmptyString => EmptyString
  | String c s' =>
      match rstrip s' with
      | EmptyString => if is_space c then EmptyString else String c EmptyString
      | r => String c r
      end
  end.

(** Decimal digits with single underscores between them. *)
Fixpoint digits_from (acc : Z) (after_digit : bool) (s : string) : option Z :=
  match s with
  | EmptyString => if after_digit then Some acc else None
  | String c s' =>
      if is_digit c then digits_from (10 * acc + digit_val c) true s'
      else if Ascii.eqb c "_"%char
           then if after_digit then digits_from acc false s' else None
           else None
  end.

Fixpoint count_digits (s : string) : nat :=
  match s with
  | EmptyString => O
  | String c s' => if is_digit c then S (count_digits s') else count_digits s'
  end.

(** The interpreter's limit on the digits of a converted string
    ([sys.get_int_max_str_digits()], 4300 unless set otherwise, 0 for no
    limit); it is looked at only above 640 digits. Leading zeros count,
    underscores do not. *)
Definition over_limit (max_str_digits : nat) (s : string) : bool :=
  (0 <? max_str_digits)%nat && (640 <? count_digits s)%nat
  && (max_str_digits <? count_digits s)%nat.

Definition limited (max_str_digits : nat) (s : string) : option Z :=
  z ← digits_from 0 false s;
  if over_limit max_str_digits s then None else Some z.

(** [int(s)] for a string, base ten; [None] is ValueError. *)
Definition int_of_str (max_str_digits : nat) (s : string) : option Z :=
  match rstrip (lstrip s) with
  | String "+"%char r => limited max_str_digits r
  | String "-"%char r => Z.opp <$> limited max_str_digits r
  | r => limited max_str_digits r
  end.

End PyStr.

(** * Insertion-ordered dictionaries *)

Module Dict.

Definition dict (V : Type) : Type := list (string * V).

Section Ops.
Context {V : Type}.

(** [d[k]], [None] being KeyError; also [k in d] and [d.get(k)]. *)
Fixpoint dget (k : string) (d : dict V) : option V :=
  match d with
  | [] => None
  | (k', v) :: d' => if String.eqb k k' then Some v else dget k d'
  end.

(** [d[k] = v]: a present key keeps its place, a new one goes last. *)
Fixpoint dset (k : string) (v : V) (d : dict V) : dict V :=
  match d with
  | [] => [(k, v)]
  | (k', v') :: d' =>
      if String.eqb k k' then (k', v) :: d' else (k', v') :: dset k v d'
  end.

Definition dhas (k : string) (d : dict V) : bool :=
  match dget k d with Some _ => true | None => false end.

Definition keys (d : dict V) : list string := map fst d.
End Ops.

End Dict.

Import Dict.

(** * Exceptions *)

(** The exceptions the module can raise; [NonTermination] marks a [while]
    loop that would run forever (it is shown never to arise). *)
Inductive exn : Type :=
| KeyError | ValueError | AttributeError | TypeError | ReError
| OverflowError | RecursionError
| NonTermination.

Inductive result (A : Type) : Type :=
| Ok (a : A)
| Raise (e : exn).
Arguments Ok {A} a.
Arguments Raise {A} e.

Definition of_option {A : Type} (e : exn) (o : option A) : result A :=
  match o with Some a => Ok a | None => Raise e end.

(** * The [re] module *)

(** An element of the list [re.findall] returns: a string when the pattern
    has at most one group, a tuple of strings otherwise. *)
Inductive found : Type :=
| FStr (s : string)
| FTuple (l : list string).

(** What [re.compile] raises that is not an [re.error], and so passes an
    [except re.error]: OverflowError for a repeat count of 4294967295 or
    more, ValueError for a count of more digits than [int] converts,
    RecursionError for an expression nested too deep. *)
Inductive escape : Type :=
| EValueError | EOverflowError | ERecursionError.

Definition exn_of_escape (e : escape) : exn :=
  match e with
  | EValueError => ValueError
  | EOverflowError => OverflowError
  | ERecursionError => RecursionError
  end.

(** How [re.compile] ends: with a pattern, with [re.error], or with another
    exception. *)
Inductive outcome (R : Type) : Type :=
| Matcher (r : R)
| Invalid
| Escaped (e : escape).
Arguments Matcher {R} r.
Arguments Invalid {R}.
Arguments Escaped {R} e.

(** What the module uses of the interpreter. [re_compile ic e] is
    [re.compile(e, re.I)] when [ic] and [re.compile(e)] otherwise;
    [re_never] is [re.compile(r'(?!x)x')]; [re_search r s] is the truth
    value of [r.search(s)]; [int_max_str_digits] is
    [sys.get_int_max_str_digits()], the limit [int] puts on the digits of a
    string (0 for none, and on an interpreter that has no such limit). *)
Class RegexEngine : Type := {
  regex : Type;
  re_compile : bool -> string -> outcome regex;
  re_never : regex;
  re_search : regex -> string -> bool;
  re_findall : regex -> string -> list found;
  int_max_str_digits : nat
}.

(** ** A backtracking engine for a fragment of the [re] syntax

    Literals, [.], character classes with ranges, negation and the
    categories [\d \D \s \S \w \W], the escapes of control characters,
    [\xhh] and octal escapes, capturing and [(?:...)] groups, the lookaheads
    [(?=...)] and [(?!...)], alternation, the repeats [*], [+], [?] and
    [{m,n}] in their greedy and lazy forms, back references by number, and
    the anchors [^], [$], [\A], [\Z], [\b], [\B], over subjects and
    expressions of Latin-1 characters. Named groups, lookbehinds, atomic
    groups and possessive repeats, flags written in the expression,
    conditionals, comments and [\u], [\U], [\N] escapes are outside the
    fragment: the parser answers for them as for an expression that is an
    [re.error]. The nesting of groups is taken to be within the recursion
    limit. *)

Module MiniRe.

(** A member of a character class: a range, or a category, which is a set
    of ranges or its complement. *)
Inductive item : Type :=
| Range (lo hi : ascii)
| Category (neg : bool) (ranges : list (ascii * ascii)).

Inductive re : Type :=
| Eps
| Chr (c : ascii)
| Any
| Cls (neg : bool) (items : list item)
| Seq (a b : re)
| Alt (a b : re)
| Rep (a : re) (lo : N) (more : option N) (greedy : bool)
| Grp (n : nat) (a : re)
| Look (neg : bool) (a : re)
| Backref (n : nat)
| Bol
| Eol
| Eos
| Wordb (neg : bool).

Definition upper_char (c : ascii) : ascii :=
  let n := nat_of_ascii c in
  if ((97 <=? n)%nat && (n <=? 122)%nat)
     || ((224 <=? n)%nat && (n <=? 254)%nat && negb (n =? 247)%nat)
  then ascii_of_nat (n - 32) else c.

Definition in_range (c : ascii) (r : ascii * ascii) : bool :=
  (nat_of_ascii (fst r) <=? nat_of_ascii c)%nat
  && (nat_of_ascii c <=? nat_of_ascii (snd r))%nat.

Definition chr_eq (ic : bool) (p c : ascii) : bool :=
  if ic then Ascii.eqb (PyStr.lower_char p) (PyStr.lower_char c)
  else Ascii.eqb p c.

Definition in_item (ic : bool) (c : ascii) (i : item) : bool :=
  match i with
  | Range lo hi =>
      in_range c (lo, hi)
      || (ic && (in_range (PyStr.lower_char c) (lo, hi)
                 || in_range (upper_char c) (lo, hi)))
  | Category neg ranges => xorb neg (existsb (in_range c) ranges)
  end.

Definition in_class (ic : bool) (items : list item) (c : ascii) : bool :=
  existsb (in_item ic c) items.

Definition between (lo hi : nat) : ascii * ascii :=
  (ascii_of_nat lo, ascii_of_nat hi).

(** The characters of [\d], [\s] and [\w] among the first 256. *)
Definition digit_ranges : list (ascii * ascii) := [between 48 57].

Definition space_ranges : list (ascii * ascii) :=
  [between 9 13; between 28 32; between 133 133; between 160 160].

Definition word_ranges : list (ascii * ascii) :=
  [between 48 57; between 65 90; between 95 95; between 97 122;
   between 170 170; between 178 179; between 181 181; between 185 186;
   between 188 190; between 192 214; between 216 246; between 248 255].

Definition is_word (c : ascii) : bool := existsb (in_range c) word_ranges.

Definition newline : ascii := ascii_of_nat 10.

Definition caps : Type := list (nat * string).

Fixpoint take (n : nat) (s : string) : string :=
  match n, s with
  | S n', String c s' => String c (take n' s')
  | _, _ => EmptyString
  end.

(** The text between two suffixes [s] and [s'] of the subject. *)
Definition consumed (s s' : string) : string :=
  take (String.length s - String.length s') s.

(** The character before the suffix [s] of the subject. *)
Definition char_before (subject s : string) : option ascii :=
  match (String.length subject - String.length s)%nat with
  | O => None
  | S p => String.get p subject
  end.

Definition word_at (c : option ascii) : bool :=
  match c with Some c => is_word c | None => false end.

(** [\b] holds where a word character meets a character that is none or an
    end of the subject; neither [\b] nor [\B] holds in an empty subject. *)
Definition boundary (neg : bool) (subject s : string) : bool :=
  match subject with
  | EmptyString => false
  | _ =>
      xorb neg
        (xorb (word_at (char_before subject s)) (word_at (String.get 0 s)))
  end.

(** What a group holds, when it took part in the match. *)
Definition captured (cs : caps) (n : nat) : option string :=
  match find (fun p => (fst p =? n)%nat) cs with
  | Some (_, t) => Some t
  | None => None
  end.

(** The rest of [s] after the text [t], compared as the flag asks. *)
Fixpoint after_text (ic : bool) (t s : string) : option string :=
  match t, s with
  | EmptyString, _ => Some s
  | String a t', String b s' => if chr_eq ic a b then after_text ic t' s' else None
  | String _ _, EmptyString => None
  end.

Definition cont : Type := string -> caps -> option (string * caps).

(** The iterations a repeat may still make on [s]: those it is allowed,
    and never more than there are characters left and one. *)
Definition bound (more : option N) (s : string) : nat :=
  match more with
  | None => S (String.length s)
  | Some m => N.to_nat (N.min m (N.of_nat (S (String.length s))))
  end.

(** [f] applied [n] times to [k], the applications being made as the match
    reaches them. *)
Fixpoint iterate (p : positive) (f : cont -> cont) (k : cont) (s : string)
    (cs : caps) {struct p} : option (string * caps) :=
  match p with
  | xH => f k s cs
  | xO p' => iterate p' f (iterate p' f k) s cs
  | xI p' => f (iterate p' f (iterate p' f k)) s cs
  end.

Definition times (n : N) (f : cont -> cont) (k : cont) : cont :=
  match n with
  | N0 => k
  | Npos p => iterate p f k
  end.

(** [run ic subject r s cs k]: match [r] at the suffix [s] of [subject],
    then continue with [k]; the first success is the result, as the
    backtracking of [re] finds it. A repeat makes its [lo] iterations, then
    the further ones it may; one of these that takes no character is the
    last. *)
Fixpoint run (ic : bool) (subject : string) (r : re) (s : string) (cs : caps)
    (k : cont) {struct r} : option (string * caps) :=
  match r with
  | Eps => k s cs
  | Chr p =>
      match s with
      | String c s' => if chr_eq ic p c then k s' cs else None
      | EmptyString => None
      end
  | Any =>
      match s with
      | String c s' => if Ascii.eqb c newline then None else k s' cs
      | EmptyString => None
      end
  | Cls neg items =>
      match s with
      | String c s' =>
          if xorb neg (in_class ic items c) then k s' cs else None
      | EmptyString => None
      end
  | Seq a b => run ic subject a s cs (fun s' cs' => run ic subject b s' cs' k)
  | Alt a b =>
      match run ic subject a s cs k with
      | Some x => Some x
      | None => run ic subject b s cs k
      end
  | Rep a lo more greedy =>
      let may :=
        fix may (n : nat) (s : string) (cs : caps) {struct n}
          : option (string * caps) :=
          match n with
          | O => k s cs
          | S n' =>
              if greedy
              then
                match run ic subject a s cs (fun s' cs' =>
                        if (String.length s' <? String.length s)%nat
                        then may n' s' cs' else k s' cs') with
                | Some x => Some x
                | None => k s cs
                end
              else
                match k s cs with
                | Some x => Some x
                | None =>
                    run ic subject a s cs (fun s' cs' =>
                      if (String.length s' <? String.length s)%nat
                      then may n' s' cs' else k s' cs')
                end
          end in
      times lo (fun (k' : cont) s cs => run ic subject a s cs k')
        (fun s cs => may (bound more s) s cs) s cs
  | Grp n a =>
      run ic subject a s cs (fun s' cs' => k s' ((n, consumed s s') :: cs'))
  | Look neg a =>
      match run ic subject a s cs (fun s' cs' => Some (s', cs')) with
      | Some (_, cs') => if neg then None else k s cs'
      | None => if neg then k s cs else None
      end
  | Backref n =>
      match captured cs n with
      | Some t =>
          match after_text ic t s with
          | Some s' => k s' cs
          | None => None
          end
      | None => None
      end
  | Bol =>
      if (String.length s =? String.length subject)%nat then k s cs else None
  | Eol =>
      match s with
      | EmptyString => k s cs
      | String c EmptyString => if Ascii.eqb c newline then k s cs else None
      | _ => None
      end
  | Eos =>
      match s with
      | EmptyString => k s cs
      | _ => None
      end
  | Wordb neg => if boundary neg subject s then k s cs else None
  end.

(** A match starting exactly at [s]; with [must_advance] an empty match is
    refused. *)
Definition match_here (ic : bool) (subject : string) (r : re) (s : string)
    (must_advance : bool) : option (string * caps) :=
  run ic subject r s [] (fun s' cs =>
    if must_advance && (String.length s' =? String.length s)%nat
    then None else Some (s', cs)).

(** The leftmost match at or after [s]: where it starts, where it ends, and
    its groups. *)
Fixpoint search_from (ic : bool) (subject : string) (r : re) (s : string)
    (must_advance : bool) : option (string * string * caps) :=
  match match_here ic subject r s must_advance with
  | Some (s', cs) => Some (s, s', cs)
  | None =>
      match s with
      | EmptyString => None
      | String _ s' => search_from ic subject r s' false
      end
  end.

Definition group (cs : caps) (n : nat) : string :=
  default EmptyString (captured cs n).

(** What [findall] reports for one match of a pattern with [groups]
    capturing groups. *)
Definition report (groups : nat) (whole : string) (cs : caps) : found :=
  match groups with
  | O => FStr whole
  | S O => FStr (group cs 1)
  | _ => FTuple (map (group cs) (seq 1 groups))
  end.

Fixpoint findall_from (fuel : nat) (ic : bool) (subject : string) (r : re)
    (groups : nat) (s : string) (must_advance : bool) : list found :=
  match fuel with
  | O => []
  | S fuel' =>
      match search_from ic subject r s must_advance with
      | None => []
      | Some (start, rest, cs) =>
          report groups (consumed start rest) cs
          :: findall_from fuel' ic subject r groups rest
               (String.length rest =? String.length start)%nat
      end
  end.

End MiniRe.

Module MiniReParse.
Import MiniRe.

(** How parsing ends: with a result, with [re.error], or with another
    exception. *)
Inductive parse (A : Type) : Type :=
| Parsed (a : A)
| Bad
| Stop (e : escape).
Arguments Parsed {A} a.
Arguments Bad {A}.
Arguments Stop {A} e.

(** The limit on the digits of a string that [int] converts, as the
    interpreter starts with. *)
Definition max_str_digits : nat := 4300.

(** [MAXREPEAT] *)
Definition max_repeat : N := 4294967295.

Definition is_octal (c : ascii) : bool :=
  let n := nat_of_ascii c in (48 <=? n)%nat && (n <=? 55)%nat.

Definition hex_val (c : ascii) : option nat :=
  let n := nat_of_ascii c in
  if (48 <=? n)%nat && (n <=? 57)%nat then Some (n - 48)%nat
  else if (65 <=? n)%nat && (n <=? 70)%nat then Some (n - 55)%nat
  else if (97 <=? n)%nat && (n <=? 102)%nat then Some (n - 87)%nat
  else None.

Definition is_letter (c : ascii) : bool :=
  let n := nat_of_ascii c in
  ((65 <=? n)%nat && (n <=? 90)%nat) || ((97 <=? n)%nat && (n <=? 122)%nat).

(** The longest prefix of digits, and the rest. *)
Fixpoint digits_of (s : string) : string * string :=
  match s with
  | String c s' =>
      if PyStr.is_digit c
      then let '(d, t) := digits_of s' in (String c d, t)
      else (EmptyString, s)
  | EmptyString => (EmptyString, EmptyString)
  end.

Fixpoint number_from (acc : N) (d : string) : N :=
  match d with
  | String c d' =>
      number_from (10 * acc + N.of_nat (nat_of_ascii c - 48)) d'
  | EmptyString => acc
  end.

Definition number (d : string) : N := number_from 0 d.

(** A repeat at the head of [s]: none, the least number of iterations with
    the further ones allowed and what follows, or the error of its
    numbers. *)
Inductive counted : Type :=
| NoRepeat
| Count (lo : N) (more : option N) (rest : string)
| CountBad
| CountStop (e : escape).

Definition braces (lo hi rest : string) : counted :=
  if PyStr.over_limit max_str_digits lo then CountStop EValueError
  else if (max_repeat <=? number lo)%N then CountStop EOverflowError
  else
    match hi with
    | EmptyString => Count (number lo) None rest
    | _ =>
        if PyStr.over_limit max_str_digits hi then CountStop EValueError
        else if (max_repeat <=? number hi)%N then CountStop EOverflowError
        else if (number hi <? number lo)%N then CountBad
        else Count (number lo) (Some (number hi - number lo)%N) rest
    end.

Definition repeat_spec (s : string) : counted :=
  match s with
  | String "*"%char t => Count 0 None t
  | String "+"%char t => Count 1 None t
  | String "?"%char t => Count 0 (Some 1%N) t
  | String "{"%char (String "}"%char _) => NoRepeat
  | String "{"%char t =>
      let '(lo, t1) := digits_of t in
      match t1 with
      | String ","%char t1' =>
          let '(hi, t2) := digits_of t1' in
          match t2 with
          | String "}"%char t3 => braces lo hi t3
          | _ => NoRepeat
          end
      | String "}"%char t3 => braces lo lo t3
      | _ => NoRepeat
      end
  | _ => NoRepeat
  end.

(** The repeat that follows the atom [a], if any; [repeatable] is false
    for an anchor. A repeat of a repeat is an error. *)
Definition quantified (a : re) (repeatable : bool) (s : string)
  : parse (re * string) :=
  match repeat_spec s with
  | NoRepeat => Parsed (a, s)
  | CountStop e => Stop e
  | CountBad => Bad
  | Count lo more t =>
      if repeatable then
        let '(r, t') :=
          match t with
          | String "?"%char t' => (Rep a lo more false, t')
          | _ => (Rep a lo more true, t)
          end in
        match repeat_spec t' with
        | NoRepeat => Parsed (r, t')
        | CountStop e => Stop e
        | _ => Bad
        end
      else Bad
  end.

(** A character written with a backslash and a letter. *)
Definition control (c : ascii) : option ascii :=
  match c with
  | "a"%char => Some (ascii_of_nat 7)
  | "f"%char => Some (ascii_of_nat 12)
  | "n"%char => Some (ascii_of_nat 10)
  | "r"%char => Some (ascii_of_nat 13)
  | "t"%char => Some (ascii_of_nat 9)
  | "v"%char => Some (ascii_of_nat 11)
  | _ => None
  end.

Definition category (c : ascii) : option item :=
  match c with
  | "d"%char => Some (Category false digit_ranges)
  | "D"%char => Some (Category true digit_ranges)
  | "s"%char => Some (Category false space_ranges)
  | "S"%char => Some (Category true space_ranges)
  | "w"%char => Some (Category false word_ranges)
  | "W"%char => Some (Category true word_ranges)
  | _ => None
  end.

(** [\xhh] *)
Definition hex_escape (s : string) : parse (ascii * string) :=
  match s with
  | String h1 (String h2 s') =>
      match hex_val h1, hex_val h2 with
      | Some a, Some b => Parsed (ascii_of_nat (16 * a + b), s')
      | _, _ => Bad
      end
  | _ => Bad
  end.

(** At most [n] octal digits at the head of [s], and the rest. *)
Fixpoint octal_digits (n : nat) (s : string) : string * string :=
  match n, s with
  | S n', String c s' =>
      if is_octal c
      then let '(d, t) := octal_digits n' s' in (String c d, t)
      else (EmptyString, s)
  | _, _ => (EmptyString, s)
  end.

Fixpoint octal_from (acc : nat) (d : string) : nat :=
  match d with
  | String c d' => octal_from (8 * acc + (nat_of_ascii c - 48)) d'
  | EmptyString => acc
  end.

(** A member of a class: a character or a category. *)
Inductive member : Type :=
| Lit (c : ascii)
| Cat (i : item).

(** What a backslash and [c] stand for inside a class. *)
Definition class_escape (c : ascii) (s : string) : parse (member * string) :=
  match category c with
  | Some i => Parsed (Cat i, s)
  | None =>
      match control c with
      | Some x => Parsed (Lit x, s)
      | None =>
          if Ascii.eqb c "b" then Parsed (Lit (ascii_of_nat 8), s)
          else if Ascii.eqb c "x" then
            match hex_escape s with
            | Parsed (x, s') => Parsed (Lit x, s')
            | Bad => Bad
            | Stop e => Stop e
            end
          else if is_octal c then
            let '(d, s') := octal_digits 2 s in
            let n := octal_from 0 (String c d) in
            if (255 <? n)%nat then Bad else Parsed (Lit (ascii_of_nat n), s')
          else if PyStr.is_digit c || is_letter c then Bad
          else Parsed (Lit c, s)
      end
  end.

Definition class_member (s : string) : parse (member * string) :=
  match s with
  | EmptyString => Bad
  | String "\"%char EmptyString => Bad
  | String "\"%char (String c s') => class_escape c s'
  | String c s' => Parsed (Lit c, s')
  end.

Definition item_of (m : member) : item :=
  match m with
  | Lit c => Range c c
  | Cat i => i
  end.

(** The members of a class up to its closing bracket; a bracket that comes
    first is a member. *)
Fixpoint class_items (fuel : nat) (first : bool) (s : string)
  : parse (list item * string) :=
  match fuel with
  | O => Bad
  | S fuel' =>
      let more (i : list item) (t : string) :=
        match class_items fuel' false t with
        | Parsed (rest, t') => Parsed ((i ++ rest)%list, t')
        | Bad => Bad
        | Stop e => Stop e
        end in
      let members (_ : unit) :=
        match class_member s with
        | Parsed (m1, String "-"%char EmptyString) => Bad
        | Parsed (m1, String "-"%char (String "]"%char t)) =>
            Parsed ([item_of m1; Range "-" "-"], t)
        | Parsed (m1, String "-"%char t) =>
            match class_member t with
            | Parsed (m2, t') =>
                match m1, m2 with
                | Lit lo, Lit hi =>
                    if (nat_of_ascii hi <? nat_of_ascii lo)%nat then Bad
                    else more [Range lo hi] t'
                | _, _ => Bad
                end
            | Bad => Bad
            | Stop e => Stop e
            end
        | Parsed (m1, t) => more [item_of m1] t
        | Bad => Bad
        | Stop e => Stop e
        end in
      match s with
      | EmptyString => Bad
      | String "]"%char s' => if first then members tt else Parsed ([], s')
      | _ => members tt
      end
  end.

(** What a backslash and [c] stand for outside a class: the atom, whether
    it may be repeated, and the rest. [g] groups have been opened, those of
    [opened] are not closed yet. *)
Definition escape_atom (g : nat) (opened : list nat) (c : ascii) (s : string)
  : parse (re * bool * string) :=
  match category c with
  | Some i => Parsed (Cls false [i], true, s)
  | None =>
      match control c with
      | Some x => Parsed (Chr x, true, s)
      | None =>
          if Ascii.eqb c "b" then Parsed (Wordb false, false, s)
          else if Ascii.eqb c "B" then Parsed (Wordb true, false, s)
          else if Ascii.eqb c "A" then Parsed (Bol, false, s)
          else if Ascii.eqb c "Z" then Parsed (Eos, false, s)
          else if Ascii.eqb c "x" then
            match hex_escape s with
            | Parsed (x, s') => Parsed (Chr x, true, s')
            | Bad => Bad
            | Stop e => Stop e
            end
          else if Ascii.eqb c "0" then
            let '(d, s') := octal_digits 2 s in
            Parsed (Chr (ascii_of_nat (octal_from 0 d)), true, s')
          else if PyStr.is_digit c then
            match s with
            | String c2 s2 =>
                if PyStr.is_digit c2 then
                  match s2 with
                  | String c3 s3 =>
                      if is_octal c && is_octal c2 && is_octal c3 then
                        let n := octal_from 0 (String c (String c2 (String c3 ""))) in
                        if (255 <? n)%nat then Bad
                        else Parsed (Chr (ascii_of_nat n), true, s3)
                      else
                        let n := N.to_nat (number (String c (String c2 ""))) in
                        if (n <=? g)%nat && negb (existsb (Nat.eqb n) opened)
                        then Parsed (Backref n, true, s2) else Bad
                  | EmptyString =>
                      let n := N.to_nat (number (String c (String c2 ""))) in
                      if (n <=? g)%nat && negb (existsb (Nat.eqb n) opened)
                      then Parsed (Backref n, true, s2) else Bad
                  end
                else
                  let n := N.to_nat (number (String c "")) in
                  if (n <=? g)%nat && negb (existsb (Nat.eqb n) opened)
                  then Parsed (Backref n, true, s) else Bad
            | EmptyString =>
                let n := N.to_nat (number (String c "")) in
                if (n <=? g)%nat && negb (existsb (Nat.eqb n) opened)
                then Parsed (Backref n, true, s) else Bad
            end
          else if is_letter c then Bad
          else Parsed (Chr c, true, s)
      end
  end.

(** Recursive descent: [g] is the number of groups opened so far, [opened]
    the groups that are not closed yet. *)
Fixpoint parse_alt (fuel : nat) (g : nat) (opened : list nat) (s : string)
  : parse (re * nat * string) :=
  match fuel with
  | O => Bad
  | S fuel' =>
      match parse_seq fuel' g opened s with
      | Parsed (a, g1, String "|"%char s1) =>
          match parse_alt fuel' g1 opened s1 with
          | Parsed (b, g2, s2) => Parsed (Alt a b, g2, s2)
          | other => other
          end
      | other => other
      end
  end
with parse_seq (fuel : nat) (g : nat) (opened : list nat) (s : string)
  : parse (re * nat * string) :=
  match fuel with
  | O => Bad
  | S fuel' =>
      match s with
      | EmptyString | String "|"%char _ | String ")"%char _ =>
          Parsed (Eps, g, s)
      | _ =>
          match parse_atom fuel' g opened s with
          | Parsed (a, repeatable, g1, s1) =>
              match quantified a repeatable s1 with
              | Parsed (a', s2) =>
                  match parse_seq fuel' g1 opened s2 with
                  | Parsed (b, g2, s3) => Parsed (Seq a' b, g2, s3)
                  | other => other
                  end
              | Bad => Bad
              | Stop e => Stop e
              end
          | Bad => Bad
          | Stop e => Stop e
          end
      end
  end
with parse_atom (fuel : nat) (g : nat) (opened : list nat) (s : string)
  : parse (re * bool * nat * string) :=
  match fuel with
  | O => Bad
  | S fuel' =>
      let inner (wrap : re -> re) (g' : nat) (opened' : list nat)
          (t : string) :=
        match parse_alt fuel' g' opened' t with
        | Parsed (a, g1, String ")"%char s2) => Parsed (wrap a, true, g1, s2)
        | Parsed _ => Bad
        | Bad => Bad
        | Stop e => Stop e
        end in
      match s with
      | EmptyString => Bad
      | String "("%char (String "?"%char (String ":"%char s1)) =>
          inner (fun a => a) g opened s1
      | String "("%char (String "?"%char (String "="%char s1)) =>
          inner (Look false) g opened s1
      | String "("%char (String "?"%char (String "!"%char s1)) =>
          inner (Look true) g opened s1
      | String "("%char (String "?"%char _) => Bad
      | String "("%char s1 => inner (Grp (S g)) (S g) (S g :: opened) s1
      | String "["%char (String "^"%char s1) =>
          match class_items (S (String.length s1)) true s1 with
          | Parsed (items, s2) => Parsed (Cls true items, true, g, s2)
          | Bad => Bad
          | Stop e => Stop e
          end
      | String "["%char s1 =>
          match class_items (S (String.length s1)) true s1 with
          | Parsed (items, s2) => Parsed (Cls false items, true, g, s2)
          | Bad => Bad
          | Stop e => Stop e
          end
      | String "."%char s1 => Parsed (Any, true, g, s1)
      | String "^"%char s1 => Parsed (Bol, false, g, s1)
      | String "$"%char s1 => Parsed (Eol, false, g, s1)
      | String "\"%char (String c s1) =>
          match escape_atom g opened c s1 with
          | Parsed (a, repeatable, s2) => Parsed (a, repeatable, g, s2)
          | Bad => Bad
          | Stop e => Stop e
          end
      | String "\"%char EmptyString => Bad
      | String "*"%char _ | String "+"%char _ | String "?"%char _
      | String ")"%char _ | String "|"%char _ => Bad
      | String "{"%char s1 =>
          match repeat_spec s with
          | NoRepeat => Parsed (Chr "{", true, g, s1)
          | CountStop e => Stop e
          | _ => Bad
          end
      | String c s1 => Parsed (Chr c, true, g, s1)
      end
  end.

(** A compiled pattern: the IGNORECASE flag, the expression and its number
    of capturing groups. *)
Record compiled : Type := Compiled {
  c_ic : bool;
  c_re : re;
  c_groups : nat
}.

Definition compile (ic : bool) (e : string) : outcome compiled :=
  match parse_alt (3 * String.length e + 3) 0 [] e with
  | Parsed (r, g, EmptyString) => Matcher (Compiled ic r g)
  | Parsed _ => Invalid
  | Bad => Invalid
  | Stop e => Escaped e
  end.

(** [re.compile(r'(?!x)x')] *)
Definition never : compiled :=
  Compiled false (Seq (Look true (Chr "x"%char)) (Chr "x"%char)) 0.

Definition search (c : compiled) (s : string) : bool :=
  match search_from (c_ic c) s (c_re c) s false with
  | Some _ => true
  | None => false
  end.

Definition findall (c : compiled) (s : string) : list found :=
  findall_from (2 * String.length s + 3) (c_ic c) s
    (c_re c) (c_groups c) s false.

End MiniReParse.

#[export] Instance mini_engine : RegexEngine := {|
  regex := MiniReParse.compiled;
  re_compile := MiniReParse.compile;
  re_never := MiniReParse.never;
  re_search := MiniReParse.search;
  re_findall := MiniReParse.findall;
  int_max_str_digits := MiniReParse.max_str_digits
|}.

(** * State and exceptions

    A method mutates the objects it is given and may raise: a computation
    over a state [S] returns the state it leaves behind together with its
    value or its exception. *)

Definition M (S A : Type) : Type := S -> S * result A.

#[export] Instance M_ret {S : Type} : MRet (M S) :=
  fun A (a : A) s => (s, Ok a).

#[export] Instance M_bind {S : Type} : MBind (M S) :=
  fun A B (f : A -> M S B) (m : M S A) s =>
    match m s with
    | (s', Ok a) => f a s'
    | (s', Raise e) => (s', Raise e)
    end.

Definition raise {S A : Type} (e : exn) : M S A := fun s => (s, Raise e).
Definition get {S : Type} : M S S := fun s => (s, Ok s).
Definition put {S : Type} (s : S) : M S unit := fun _ => (s, Ok tt).
Definition modify {S : Type} (f : S -> S) : M S unit := fun s => (f s, Ok tt).
Definition lift {S A : Type} (r : result A) : M S A := fun s => (s, r).

(** [for x in l: body(x)] *)
Fixpoint for_each {S A : Type} (l : list A) (body : A -> M S unit)
  : M S unit :=
  match l with
  | [] => mret tt
  | x :: l' => body x ;; for_each l' body
  end.

(** * The WebPage class

    What [WebPage.__init__] and [_parse_html] leave on the object; fetching
    and HTML parsing are not modelled. [headers] and [meta] are mappings
    seen through [name in m] and [m[name]]. *)

Module WebPage.
Record t : Type := Build {
  url : string;
  html : string;
  headers : string -> option string;
  scripts : list string;
  meta : string -> option string
}.
End WebPage.

(** * The Wappalyzer class *)

Section Wappalyzer.
Context {engine : RegexEngine}.

(** Python objects as the module meets them: what [json.load] returns
    (numbers being integers), and compiled patterns. *)
#[warnings="-register-all"]
Inductive value : Type :=
| VNone
| VBool (b : bool)
| VNum (z : Z)
| VStr (s : string)
| VList (l : list value)
| VDict (d : list (string * value))
| VRegex (r : regex).

(** A prepared pattern is the dictionary [attrs] of [_prepare_pattern]. *)
Definition pattern : Type := dict value.

(** ** [_prepare_pattern] *)

(** The body of [for index, expression in enumerate(pattern)]. Only an
    [re.error] is caught: what else [re.compile] raises leaves the method. *)
Definition prepare_segment (index : nat) (expression : string)
    (attrs : pattern) : result pattern :=
  match index with
  | O =>
      let attrs := dset "string" (VStr expression) attrs in
      match re_compile true expression with
      | Matcher r => Ok (dset "regex" (VRegex r) attrs)
      | Invalid => Ok (dset "regex" (VRegex re_never) attrs)
      | Escaped e => Raise (exn_of_escape e)
      end
  | S _ =>
      Ok match PyStr.split expression ":" with
         | key :: (_ :: _) as attr =>
             dset key (VStr (PyStr.join ":" attr)) attrs
         | _ => attrs
         end
  end.

Fixpoint prepare_segments (index : nat) (segments : list string)
    (attrs : pattern) : result pattern :=
  match segments with
  | [] => Ok attrs
  | expression :: rest =>
      match prepare_segment index expression attrs with
      | Ok attrs => prepare_segments (S index) rest attrs
      | Raise e => Raise e
      end
  end.

(** [pattern.split] exists on strings only. The warning issued for an
    expression that does not compile is not modelled. *)
Definition _prepare_pattern (raw : value) : result pattern :=
  match raw with
  | VStr p => prepare_segments 0 (PyStr.split p "\;") []
  | _ => Raise AttributeError
  end.

(** ** [_prepare_app] *)

Definition is_list (v : value) : bool :=
  match v with VList _ => true | _ => false end.

Definition is_dict (v : value) : bool :=
  match v with VDict _ => true | _ => false end.

(** [app[key]] *)
Definition item (key : string) : M (dict value) value :=
  fun app => (app, of_option KeyError (dget key app)).

(** [app[key] = v] *)
Definition set_item (key : string) (v : value) : M (dict value) unit :=
  modify (dset key v).

(** [obj.items()], on dictionaries only. *)
Definition items (obj : value) : result (dict value) :=
  match obj with
  | VDict d => Ok d
  | _ => Raise AttributeError
  end.

(** [{k.lower(): v for k, v in list(obj.items())}] *)
Definition lower_keys (d : dict value) : dict value :=
  fold_left (fun acc kv => dset (PyStr.lower (fst kv)) (snd kv) acc) d [].

(** [[self._prepare_pattern(pattern) for pattern in l]] *)
Fixpoint prepare_list (l : list value) : result (list value) :=
  match l with
  | [] => Ok []
  | p :: l' =>
      match _prepare_pattern p with
      | Raise e => Raise e
      | Ok attrs =>
          match prepare_list l' with
          | Raise e => Raise e
          | Ok r => Ok (VDict attrs :: r)
          end
      end
  end.

(** [for name, pattern in list(obj.items()): obj[name] = ...], the state
    being [obj]. *)
Definition prepare_values (names : list string) : M (dict value) unit :=
  for_each names (fun name =>
    v ← item name;
    attrs ← lift (_prepare_pattern v);
    set_item name (VDict attrs)).

(** [body] mutates the dictionary [d] that [app[key]] refers to. *)
Definition in_place (key : string) (d : dict value)
    (body : M (dict value) unit) : M (dict value) unit :=
  fun app => let '(d', r) := body d in (dset key (VDict d') app, r).

(** The bodies of the six loops and of the test on [meta]. *)

(* Ensure these keys' values are lists *)
Definition ensure_list (key : string) : M (dict value) unit :=
  app ← get;
  match dget key app with
  | None => set_item key (VList [])
  | Some value =>
      if negb (is_list value) then set_item key (VList [value]) else mret tt
  end.

(* Ensure these keys exist *)
Definition ensure_key (key : string) : M (dict value) unit :=
  app ← get;
  match dget key app with
  | None => set_item key (VDict [])
  | Some _ => mret tt
  end.

(* Ensure the 'meta' key is a dict *)
Definition ensure_meta_dict : M (dict value) unit :=
  obj ← item "meta";
  if negb (is_dict obj) then set_item "meta" (VDict [("generator", obj)])
  else mret tt.

(* Ensure keys are lowercase *)
Definition lower_key_names (key : string) : M (dict value) unit :=
  obj ← item key;
  d ← lift (items obj);
  set_item key (VDict (lower_keys d)).

(* Prepare regular expression patterns *)
Definition prepare_patterns (key : string) : M (dict value) unit :=
  v ← item key;
  match v with
  | VList l =>
      r ← lift (prepare_list l);
      set_item key (VList r)
  | _ => raise TypeError (* not reached: the first loop made it a list *)
  end.

Definition prepare_fields (key : string) : M (dict value) unit :=
  obj ← item key;
  d ← lift (items obj);
  in_place key d (prepare_values (keys d)).

Definition _prepare_app : M (dict value) unit :=
  for_each ["url"; "html"; "script"; "implies"] ensure_list ;;
  for_each ["headers"; "meta"] ensure_key ;;
  ensure_meta_dict ;;
  for_each ["headers"; "meta"] lower_key_names ;;
  for_each ["url"; "html"; "script"] prepare_patterns ;;
  for_each ["headers"; "meta"] prepare_fields.

(** ** Technology entries

    An entry as [_prepare_app] leaves it, with the four keys the analysis
    adds; [None] is a key that is absent. *)
Record app : Type := App {
  cats : option (list Z);
  url : list pattern;
  html : list pattern;
  script : list pattern;
  headers : dict pattern;
  meta : dict pattern;
  implies : list string;
  detected : option bool;
  confidence : option (gmap string Z);
  confidenceTotal : option Z;
  versions : option (list string)
}.

Definition set_url (v : list pattern) (a : app) : app :=
  App (cats a) v (html a) (script a) (headers a) (meta a) (implies a)
      (detected a) (confidence a) (confidenceTotal a) (versions a).
Definition set_html (v : list pattern) (a : app) : app :=
  App (cats a) (url a) v (script a) (headers a) (meta a) (implies a)
      (detected a) (confidence a) (confidenceTotal a) (versions a).
Definition set_script (v : list pattern) (a : app) : app :=
  App (cats a) (url a) (html a) v (headers a) (meta a) (implies a)
      (detected a) (confidence a) (confidenceTotal a) (versions a).
Definition set_headers (v : dict pattern) (a : app) : app :=
  App (cats a) (url a) (html a) (script a) v (meta a) (implies a)
      (detected a) (confidence a) (confidenceTotal a) (versions a).
Definition set_meta (v : dict pattern) (a : app) : app :=
  App (cats a) (url a) (html a) (script a) (headers a) v (implies a)
      (detected a) (confidence a) (confidenceTotal a) (versions a).
Definition set_detected (v : option bool) (a : app) : app :=
  App (cats a) (url a) (html a) (script a) (headers a) (meta a) (implies a)
      v (confidence a) (confidenceTotal a) (versions a).
Definition set_confidence (v : option (gmap string Z)) (a : app) : app :=
  App (cats a) (url a) (html a) (script a) (headers a) (meta a) (implies a)
      (detected a) v (confidenceTotal a) (versions a).
Definition set_confidenceTotal (v : option Z) (a : app) : app :=
  App (cats a) (url a) (html a) (script a) (headers a) (meta a) (implies a)
      (detected a) (confidence a) v (versions a).
Definition set_versions (v : option (list string)) (a : app) : app :=
  App (cats a) (url a) (html a) (script a) (headers a) (meta a) (implies a)
      (detected a) (confidence a) (confidenceTotal a) v.

(** ** Version sorting: [_sort_app_versions], [_cmp_to_key], [sorted] *)

Definition _sort_app_versions (version_a version_b : string) : Z :=
  Z.of_nat (String.length version_a) - Z.of_nat (String.length version_b).

(** [CmpToKey.__lt__], the one comparison [sorted] calls. *)
Definition _cmp_to_key {A : Type} (mycmp : A -> A -> Z) (a b : A) : bool :=
  mycmp a b <? 0.

(** [sorted] is stable: [x] goes before the first element it is less
    than. *)
Fixpoint insert_sorted {A : Type} (lt : A -> A -> bool) (x : A) (l : list A)
  : list A :=
  match l with
  | [] => [x]
  | y :: l' => if lt x y then x :: y :: l' else y :: insert_sorted lt x l'
  end.

Definition sorted {A : Type} (lt : A -> A -> bool) (l : list A) : list A :=
  fold_left (fun acc x => insert_sorted lt x acc) l [].

(** ** [_set_app_version] *)
Definition _set_app_version (a : app) : app :=
  match versions a with
  | None => a
  | Some vs => set_versions (Some (sorted (_cmp_to_key _sort_app_versions) vs)) a
  end.

(** ** The ternary operator of a version template

    What [re.search] finds for the pattern that [_set_detected_app] builds
    around [str(index + 1)], written out: the leftmost place where the
    marker [\N?] is followed by one or more characters other than a colon,
    a colon, and characters other than a newline up to the end of the string
    or to a final newline. *)

Fixpoint strip_prefix (p s : string) : option string :=
  match p, s with
  | EmptyString, _ => Some s
  | String a p', String b s' => if Ascii.eqb a b then strip_prefix p' s' else None
  | String _ _, EmptyString => None
  end.

(** The longest prefix whose characters differ from [stop], and the rest. *)
Fixpoint span_until (stop : ascii) (s : string) : string * string :=
  match s with
  | EmptyString => (EmptyString, EmptyString)
  | String c s' =>
      if Ascii.eqb c stop then (EmptyString, s)
      else let '(a, b) := span_until stop s' in (String c a, b)
  end.

Record ternary : Type := Ternary {
  group0 : string;
  group1 : string;
  group2 : string
}.

Definition ternary_at (marker : string) (s : string) : option ternary :=
  match strip_prefix marker s with
  | None => None
  | Some rest =>
      match span_until ":"%char rest with
      | (String c g1, String _ after_colon) =>
          let '(g2, tail) := span_until MiniRe.newline after_colon in
          match tail with
          | EmptyString | String _ EmptyString =>
              Some (Ternary (marker +:+ String c g1 +:+ ":" +:+ g2)
                            (String c g1) g2)
          | _ => None
          end
      | _ => None
      end
  end.

Fixpoint ternary_from (marker : string) (s : string) : option ternary :=
  match ternary_at marker s with
  | Some t => Some t
  | None =>
      match s with
      | EmptyString => None
      | String _ s' => ternary_from marker s'
      end
  end.

(** ['\\' + str(index + 1)] *)
Definition backref (index : nat) : string :=
  "\" +:+ PyStr.str_of_nat (index + 1).

Definition ternary_search (index : nat) (version : string) : option ternary :=
  ternary_from (backref index +:+ "?") version.

(** The first statement of the body of [for index, match in
    enumerate(matches)]: parse the ternary operator. *)
Definition parse_ternary (index : nat) (match_ : string) (version : string)
  : string :=
  match ternary_search index version with
  | Some t =>
      PyStr.replace version (group0 t)
        (if negb (String.eqb match_ "") then group1 t else group2 t)
  | None => version
  end.

(** The whole body: the ternary operator, then the back references. *)
Definition resolve_group (index : nat) (match_ : string) (version : string)
  : string :=
  PyStr.replace (parse_ternary index match_ version) (backref index) match_.

Fixpoint resolve_groups (index : nat) (matches : list string)
    (version : string) : string :=
  match matches with
  | [] => version
  | match_ :: rest =>
      resolve_groups (S index) rest (resolve_group index match_ version)
  end.

(** [if isinstance(matches, str): matches = [(matches)]] *)
Definition as_groups (matches : found) : list string :=
  match matches with
  | FStr s => [s]
  | FTuple l => l
  end.

(** [if version != '': ...]: record a version that is new. *)
Definition add_version (version : string) (a : app) : app :=
  if String.eqb version "" then a
  else match versions a with
       | None => set_versions (Some [version]) a
       | Some vs =>
           if bool_decide (version ∈ vs) then a
           else set_versions (Some (vs ++ [version])%list) a
       end.

(** ** [_set_detected_app]

    The state is the entry [app] together with the [pattern] that fired:
    both are mutated. *)

(** [int(x)] *)
Definition int_of_value (v : value) : result Z :=
  match v with
  | VNum z => Ok z
  | VBool b => Ok (if b then 1 else 0)
  | VStr s => of_option ValueError (PyStr.int_of_str int_max_str_digits s)
  | _ => Raise TypeError
  end.

(** A value used as an operand of a string concatenation. *)
Definition str_operand (v : value) : result string :=
  match v with
  | VStr s => Ok s
  | _ => Raise TypeError
  end.

(** [re.findall(x, value)]: [x] is a compiled pattern, or a string that is
    compiled first. *)
Definition findall_value (x : value) (value : string) : result (list found) :=
  match x with
  | VRegex r => Ok (re_findall r value)
  | VStr e =>
      match re_compile false e with
      | Matcher r => Ok (re_findall r value)
      | Invalid => Raise ReError
      | Escaped e => Raise (exn_of_escape e)
      end
  | _ => Raise TypeError
  end.

Definition on_app (f : app -> app) : M (app * pattern) unit :=
  modify (fun st => (f (fst st), snd st)).

Definition on_pattern (f : pattern -> pattern) : M (app * pattern) unit :=
  modify (fun st => (fst st, f (snd st))).

(** [pattern[key]] *)
Definition attr (key : string) : M (app * pattern) value :=
  fun st => (st, of_option KeyError (dget key (snd st))).

(** The label under which a firing pattern is recorded. *)
Definition label (app_type key string_ : string) : string :=
  app_type +:+ " " +:+ key +:+ string_.

(** The versions one value yields: one per occurrence, in order. [version]
    is [pattern['version']]; it is a string on every pattern that
    [_prepare_pattern] builds. *)
Definition detect_versions (version : value) (allmatches : list found)
  : M (app * pattern) unit :=
  for_each allmatches (fun matches =>
    match version with
    | VStr template =>
        on_app (add_version (resolve_groups 0 (as_groups matches) template))
    | _ => raise TypeError
    end).

Definition _set_detected_app (app_name : string) (app_type : string)
    (value : string) (key : string) : M (app * pattern) string :=
  on_app (set_detected (Some true)) ;;
  (* Set confidence level *)
  let key := if negb (String.eqb key "") then key +:+ " " else key in
  on_app (fun a => match confidence a with
                   | None => set_confidence (Some ∅) a
                   | Some _ => a
                   end) ;;
  st ← get;
  c ← match dget "confidence" (snd st) with
      | None => mret 100
      | Some v => lift (int_of_value v)
      end;
  on_pattern (dset "confidence" (VNum c)) ;;
  string_ ← attr "string";
  string_ ← lift (str_operand string_);
  on_app (fun a => set_confidence
            (Some (<[label app_type key string_ := c]> (default ∅ (confidence a)))) a) ;;
  (* Detect version number *)
  (if dhas "version" (snd st)
   then
     regex_ ← attr "regex";
     allmatches ← lift (findall_value regex_ value);
     version ← attr "version";
     detect_versions version allmatches ;;
     on_app _set_app_version
   else mret tt) ;;
  mret app_name.

(** ** [_has_app] *)

(** [for x in l: body], where the body mutates the element [x] it is at
    and a state [S]; the elements are returned as the loop leaves them,
    with whether the body answered [True] for one of them. *)
Fixpoint for_mut {S X : Type} (body : M (S * X) bool) (l : list X) (s : S)
  : (S * list X) * result bool :=
  match l with
  | [] => ((s, []), Ok false)
  | x :: l' =>
      match body (s, x) with
      | ((s', x'), Raise e) => ((s', x' :: l'), Raise e)
      | ((s', x'), Ok b) =>
          let '((s'', l''), r) := for_mut body l' s' in
          ((s'', x' :: l''),
           match r with Ok b' => Ok (b || b') | Raise e => Raise e end)
      end
  end.

(** [for x in l: body(x)] over a list that is only read. *)
Fixpoint for_any {S A : Type} (l : list A) (body : A -> M S bool) : M S bool :=
  match l with
  | [] => mret false
  | x :: l' => b ← body x; b' ← for_any l' body; mret (b || b')
  end.

(** The loop over one facet of the entry. *)
Definition facet_loop {X : Type} (facet : app -> list X)
    (store : list X -> app -> app) (body : M (app * X) bool) : M app bool :=
  fun a => let '((a', xs), r) := for_mut body (facet a) a in (store xs a', r).

(** The body of a loop over [list(d.items())]: the name is read, the
    pattern mutated. *)
Definition keyed (body : string -> M (app * pattern) bool)
  : M (app * (string * pattern)) bool :=
  fun st =>
    let '(a, (name, p)) := st in
    let '((a', p'), r) := body name (a, p) in ((a', (name, p')), r).

(** [pattern['regex'].search(value)] *)
Definition search_value (p : pattern) (value : string) : result bool :=
  match dget "regex" p with
  | None => Raise KeyError
  | Some (VRegex r) => Ok (re_search r value)
  | Some _ => Raise AttributeError
  end.

(** [if pattern['regex'].search(value): self._set_detected_app(...)];
    answers whether the pattern fired. *)
Definition check (app_name app_type : string) (value key : string)
  : M (app * pattern) bool :=
  st ← get;
  hit ← lift (search_value (snd st) value);
  if (hit : bool)
  then _set_detected_app app_name app_type value key ;; mret true
  else mret false.

(** [if name in mapping: content = mapping[name]; ...] *)
Definition check_field (app_name app_type : string)
    (mapping : string -> option string) (name : string)
  : M (app * pattern) bool :=
  match mapping name with
  | Some content => check app_name app_type content name
  | None => mret false
  end.

(** [total = 0; for index in app['confidence']: total += ...] *)
Definition confidence_sum (m : gmap string Z) : Z :=
  map_fold (fun _ w total => total + w) 0 m.

(** [has_app] is [True] when one of the loops over headers, script, meta
    and html reached [has_app = True]; the loop over url has no such
    statement. *)
Definition _has_app (app_name : string) (webpage : WebPage.t) : M app bool :=
  _ ← facet_loop url set_url
        (check app_name "url" (WebPage.url webpage) "");
  in_headers ← facet_loop headers set_headers
        (keyed (check_field app_name "headers" (WebPage.headers webpage)));
  in_script ← facet_loop script set_script
        (for_any (WebPage.scripts webpage) (fun script =>
           check app_name "script" script ""));
  in_meta ← facet_loop meta set_meta
        (keyed (check_field app_name "meta" (WebPage.meta webpage)));
  in_html ← facet_loop html set_html
        (check app_name "html" (WebPage.html webpage) "");
  let has_app := in_headers || in_script || in_meta || in_html in
  (* Set total confidence *)
  (if (has_app : bool)
   then
     a ← get;
     match confidence a with
     | None => raise KeyError
     | Some m => put (set_confidenceTotal (Some (confidence_sum m)) a)
     end
   else mret tt) ;;
  mret has_app.

(** ** [_get_implied_apps]

    [self.apps] is the dictionary [apps]. *)

(** [set(self.apps[app]['implies'])], empty on KeyError. *)
Definition implied_by (apps : dict app) (name : string) : gset string :=
  match dget name apps with
  | Some a => list_to_set (implies a)
  | None => ∅
  end.

(** The inner function [__get_implied_apps]. *)
Definition __get_implied_apps (apps : dict app) (names : gset string)
  : gset string :=
  ⋃ (implied_by apps <$> elements names).

(** [while not all_implied_apps.issuperset(implied_apps): ...], run for at
    most [fuel] tests of the condition. *)
Fixpoint implied_loop (apps : dict app) (fuel : nat)
    (all_implied_apps implied_apps : gset string) : option (gset string) :=
  match fuel with
  | O => None
  | S fuel' =>
      if decide (implied_apps ⊆ all_implied_apps) then Some all_implied_apps
      else
        let all_implied_apps := all_implied_apps ∪ implied_apps in
        implied_loop apps fuel' all_implied_apps
          (__get_implied_apps apps all_implied_apps)
  end.

(** Every name some entry implies. *)
Definition implied_names (apps : dict app) : gset string :=
  ⋃ ((fun kv => list_to_set (implies (snd kv)) : gset string) <$> apps).

Definition _get_implied_apps (apps : dict app) (detected_apps : gset string)
  : option (gset string) :=
  implied_loop apps (S (size (implied_names apps))) ∅
    (__get_implied_apps apps detected_apps).

(** ** [get_categories], [get_versions], [get_confidence] *)

(** [x.get(key, default)]: only dictionaries have [get]. *)
Definition get_or (x : value) (key : string) (default_ : value)
  : result value :=
  match x with
  | VDict d => Ok (default default_ (dget key d))
  | _ => Raise AttributeError
  end.

Fixpoint category_names (categories : dict value) (cat_nums : list Z)
  : result (list value) :=
  match cat_nums with
  | [] => Ok []
  | cat_num :: rest =>
      match get_or (default (VStr "") (dget (PyStr.str_of_Z cat_num) categories))
                   "name" (VStr "") with
      | Raise e => Raise e
      | Ok name =>
          match category_names categories rest with
          | Raise e => Raise e
          | Ok names => Ok (name :: names)
          end
      end
  end.

Definition get_categories (categories : dict value) (apps : dict app)
    (app_name : string) : result (list value) :=
  let cat_nums :=
    match dget app_name apps with
    | Some a => default [] (cats a)
    | None => []
    end in
  category_names categories cat_nums.

Definition get_versions (apps : dict app) (app_name : string)
  : result (list string) :=
  match dget app_name apps with
  | None => Raise KeyError
  | Some a => Ok (default [] (versions a))
  end.


(** ** [analyze] *)

(** The body of [for app_name, app in list(self.apps.items())]; the state
    is [detected_apps] and the entry. *)
Definition analyze_entry (webpage : WebPage.t)
  : M (gset string * (string * app)) bool :=
  fun st =>
    let '(detected_apps, (app_name, a)) := st in
    match _has_app app_name webpage a with
    | (a', Ok true) => (({[app_name]} ∪ detected_apps, (app_name, a')), Ok true)
    | (a', Ok false) => ((detected_apps, (app_name, a')), Ok false)
    | (a', Raise e) => ((detected_apps, (app_name, a')), Raise e)
    end.

(** The names for which [_has_app] answered [True]. *)
Definition direct_apps (webpage : WebPage.t) (apps : dict app)
  : (gset string * dict app) * result bool :=
  for_mut (analyze_entry webpage) apps ∅.

Definition analyze (webpage : WebPage.t) : M (dict app) (gset string) :=
  fun apps =>
    let '((detected_apps, apps'), r) := direct_apps webpage apps in
    match r with
    | Raise e => (apps', Raise e)
    | Ok _ =>
        (* Add implied apps *)
        match _get_implied_apps apps' detected_apps with
        | Some implied => (apps', Ok (detected_apps ∪ implied))
        | None => (apps', Raise NonTermination)
        end
    end.

(** ** [analyze_with_versions] *)

Fixpoint versions_of (apps : dict app) (names : list string)
  : result (list (string * list string)) :=
  match names with
  | [] => Ok []
  | app_name :: rest =>
      match get_versions apps app_name with
      | Raise e => Raise e
      | Ok vs =>
          match versions_of apps rest with
          | Raise e => Raise e
          | Ok r => Ok ((app_name, vs) :: r)
          end
      end
  end.

Definition analyze_with_versions (webpage : WebPage.t)
  : M (dict app) (list (string * list string)) :=
  detected_apps ← analyze webpage;
  apps ← get;
  lift (versions_of apps (elements detected_apps)).

End Wappalyzer.

(** * Properties *)

Lemma pair_of_snd {A B : Type} (x : A * B) (b : B) : x.2 = b -> x = (x.1, b).
Proof. destruct x. simpl. by intros ->. Qed.

(** ** Dictionaries *)

Section DictFacts.
Context {V : Type}.
Implicit Types (d : dict V) (k : string) (v : V).

Lemma dget_elem k v d : dget k d = Some v -> (k, v) ∈ d.
Proof.
  induction d as [|[k' v'] d IH]; simpl; [discriminate|].
  destruct (String.eqb k k') eqn:E.
  - apply String.eqb_eq in E. intros [= ->]. subst. left.
  - intros H. right. auto.
Qed.

Lemma dget_absent k d : dhas k d = false -> dget k d = None.
Proof. unfold dhas. by destruct (dget k d). Qed.

Lemma dget_dset_eq k v d : dget k (dset k v d) = Some v.
Proof.
  induction d as [|[k' v'] d IH]; simpl.
  - by rewrite String.eqb_refl.
  - destruct (String.eqb k k') eqn:E; simpl; rewrite E; auto.
Qed.

Lemma dget_dset_ne k k' v d : k <> k' -> dget k' (dset k v d) = dget k' d.
Proof.
  intros Hne. induction d as [|[k0 v0] d IH]; simpl.
  - destruct (String.eqb k' k) eqn:E; [|done].
    apply String.eqb_eq in E. congruence.
  - destruct (String.eqb k k0) eqn:E; simpl.
    + apply String.eqb_eq in E. subst k0.
      destruct (String.eqb k' k) eqn:E'; [|done].
      apply String.eqb_eq in E'. congruence.
    + by rewrite IH.
Qed.

Lemma keys_dset_present k v d :
  is_Some (dget k d) -> keys (dset k v d) = keys d.
Proof.
  induction d as [|[k0 v0] d IH]; simpl; intros [x Hx]; [discriminate|].
  destruct (String.eqb k k0) eqn:E; simpl; [done|].
  f_equal. apply IH. eauto.
Qed.

End DictFacts.

(** ** The implied-technology closure *)

Section Closure.
Context {engine : RegexEngine}.
Implicit Types (apps : dict app) (names all implied : gset string).

(** A set of names is closed when it holds what each of its entries
    implies. *)
Definition closed (apps : dict app) (names : gset string) : Prop :=
  forall T a n, T ∈ names -> dget T apps = Some a -> n ∈ implies a -> n ∈ names.

Lemma elem_of_implied apps names n :
  n ∈ __get_implied_apps apps names <->
  exists T a, T ∈ names /\ dget T apps = Some a /\ n ∈ implies a.
Proof.
  unfold __get_implied_apps. rewrite elem_of_union_list. split.
  - intros (X & HX & Hn). apply list_elem_of_fmap in HX as (T & -> & HT).
    apply elem_of_elements in HT. unfold implied_by in Hn.
    destruct (dget T apps) as [a|] eqn:E; [|set_solver].
    apply elem_of_list_to_set in Hn. eauto.
  - intros (T & a & HT & E & Hn). exists (implied_by apps T). split.
    + apply list_elem_of_fmap. exists T. split; [done|].
      by apply elem_of_elements.
    + unfold implied_by. rewrite E. by apply elem_of_list_to_set.
Qed.

Lemma implied_in_names apps names :
  __get_implied_apps apps names ⊆ implied_names apps.
Proof.
  intros n Hn. apply elem_of_implied in Hn as (T & a & _ & E & Hn).
  unfold implied_names. apply elem_of_union_list.
  exists (list_to_set (implies a)). split.
  - apply list_elem_of_fmap. exists (T, a). split; [done|].
    by apply dget_elem.
  - by apply elem_of_list_to_set.
Qed.

Lemma implied_mono apps X Y :
  X ⊆ Y -> __get_implied_apps apps X ⊆ __get_implied_apps apps Y.
Proof.
  intros HXY n Hn. apply elem_of_implied in Hn as (T & a & HT & E & Hn).
  apply elem_of_implied. exists T, a. auto.
Qed.

(** The loop exits within [size (U ∖ all) + 1] tests, [U] being the names
    that can ever be added; its result holds [all] and [implied], and is
    either [all] itself or a set that holds what it implies. *)
Lemma implied_loop_exits apps fuel all implied :
  all ⊆ implied_names apps ->
  implied ⊆ implied_names apps ->
  (size (implied_names apps ∖ all) < fuel)%nat ->
  exists R, implied_loop apps fuel all implied = Some R
    /\ all ⊆ R /\ implied ⊆ R
    /\ (R = all \/ __get_implied_apps apps R ⊆ R).
Proof.
  revert all implied.
  induction fuel as [|fuel IH]; intros all implied Hall Himp Hsize; [lia|].
  simpl. destruct (decide (implied ⊆ all)) as [Hsub|Hnsub].
  - exists all. auto.
  - destruct (IH (all ∪ implied) (__get_implied_apps apps (all ∪ implied)))
      as (R & HR & H1 & H2 & H3).
    + set_solver.
    + apply implied_in_names.
    + assert (implied_names apps ∖ (all ∪ implied) ⊂ implied_names apps ∖ all)
        as Hlt.
      { split; [set_solver|]. intros Hback. apply Hnsub. intros x Hx.
        destruct (decide (x ∈ all)) as [|Hxa]; [done|].
        assert (x ∈ implied_names apps ∖ all) as Hx' by set_solver.
        apply Hback in Hx'. set_solver. }
      apply subset_size in Hlt. lia.
    + exists R. split; [done|]. split; [set_solver|]. split; [set_solver|].
      right. destruct H3 as [->|H3]; [|done]. done.
Qed.

(** More fuel does not change the result. *)
Lemma implied_loop_fuel apps fuel fuel' all implied R :
  implied_loop apps fuel all implied = Some R ->
  (fuel <= fuel')%nat ->
  implied_loop apps fuel' all implied = Some R.
Proof.
  revert fuel' all implied.
  induction fuel as [|fuel IH]; intros fuel' all implied; simpl; [discriminate|].
  intros H Hle. destruct fuel' as [|fuel']; [lia|]. simpl.
  destruct (decide (implied ⊆ all)); [done|]. apply IH; [done|lia].
Qed.

Lemma _get_implied_apps_closed apps detected_apps :
  exists implied,
    _get_implied_apps apps detected_apps = Some implied
    /\ closed apps (detected_apps ∪ implied).
Proof.
  unfold _get_implied_apps.
  destruct (implied_loop_exits apps (S (size (implied_names apps))) ∅
              (__get_implied_apps apps detected_apps))
    as (R & HR & _ & Himp & Hfix).
  - set_solver.
  - apply implied_in_names.
  - assert (size (implied_names apps ∖ ∅) <= size (implied_names apps))%nat.
    { apply subseteq_size. set_solver. }
    lia.
  - exists R. split; [done|]. intros T a n HT E Hn.
    apply elem_of_union in HT as [HT|HT].
    + apply elem_of_union_r, Himp, elem_of_implied. eauto.
    + destruct Hfix as [->|Hfix]; [set_solver|].
      apply elem_of_union_r, Hfix, elem_of_implied. eauto.
Qed.

End Closure.

(** ** What a computation leaves of the state

    [stable R m]: whatever [m] does, and whether or not it raises, the
    state it leaves is related by [R] to the one it found. *)

Section Stable.
Context {S : Type} (R : relation S) `{!PreOrder R}.

Definition stable {A : Type} (m : M S A) : Prop := forall s, R s (m s).1.

Lemma stable_ret {A} (a : A) : stable (mret a).
Proof. intros s. simpl. reflexivity. Qed.

Lemma stable_raise {A} e : stable (raise e : M S A).
Proof. intros s. simpl. reflexivity. Qed.

Lemma stable_lift {A} (r : result A) : stable (lift r).
Proof. intros s. simpl. reflexivity. Qed.

Lemma stable_modify f : (forall s, R s (f s)) -> stable (modify f).
Proof. intros H s. apply H. Qed.

Lemma stable_bind {A B} (m : M S A) (f : A -> M S B) :
  stable m -> (forall a, stable (f a)) -> stable (m ≫= f).
Proof.
  intros Hm Hf s. unfold mbind, M_bind. specialize (Hm s).
  destruct (m s) as [s' [a|e]]; simpl in *; [|done].
  etransitivity; [exact Hm|apply Hf].
Qed.

Lemma stable_get_bind {B} (f : S -> M S B) :
  (forall s, R s (f s s).1) -> stable (get ≫= f).
Proof. intros H s. apply H. Qed.

Lemma stable_for_each {A} (l : list A) (body : A -> M S unit) :
  (forall x, stable (body x)) -> stable (for_each l body).
Proof.
  intros H. induction l as [|x l IH]; simpl.
  - apply stable_ret.
  - apply stable_bind; auto.
Qed.

Lemma stable_for_any {A} (l : list A) (body : A -> M S bool) :
  (forall x, stable (body x)) -> stable (for_any l body).
Proof.
  intros H. induction l as [|x l IH]; simpl.
  - apply stable_ret.
  - apply stable_bind; [auto|]. intros b.
    apply stable_bind; [auto|]. intros b'. apply stable_ret.
Qed.

End Stable.

(** The relation that asks nothing. *)
Definition anything {A : Type} : relation A := fun _ _ => True.

#[export] Instance anything_preorder {A : Type} : PreOrder (@anything A).
Proof. by split. Qed.

(** A loop that mutates its elements relates the elements it leaves to the
    ones it found, one by one. *)
Lemma for_mut_stable {S X : Type} (R : relation S) `{!PreOrder R}
    (Q : relation X) `{!Reflexive Q} (body : M (S * X) bool) :
  (forall s x, R s (body (s, x)).1.1 /\ Q x (body (s, x)).1.2) ->
  forall l s, R s (for_mut body l s).1.1 /\ Forall2 Q l (for_mut body l s).1.2.
Proof.
  intros Hbody. induction l as [|x l IH]; intros s; simpl.
  - split; [reflexivity|constructor].
  - destruct (Hbody s x) as [H1 H2].
    destruct (body (s, x)) as [[s' x'] [b|e]]; simpl in *.
    + destruct (IH s') as [H3 H4].
      destruct (for_mut body l s') as [[s'' l''] r]; simpl in *.
      split; [by etransitivity|by constructor].
    + split; [done|]. constructor; [done|]. clear IH.
      induction l; constructor; auto.
Qed.

Lemma stable_get_all {S : Type} (R : relation S) {B : Type} (f : S -> M S B) :
  (forall s0, stable R (f s0)) -> stable R (get ≫= f).
Proof. intros H s. apply (H s s). Qed.

(** ** Sorting *)

Section Sorting.
Context {A : Type} (lt : A -> A -> bool).

Lemma insert_sorted_perm x l : insert_sorted lt x l ≡ₚ x :: l.
Proof.
  induction l as [|y l IH]; simpl; [done|].
  destruct (lt x y); [done|]. rewrite IH. apply Permutation_swap.
Qed.

Lemma sorted_from_perm l acc :
  fold_left (fun acc x => insert_sorted lt x acc) l acc ≡ₚ (acc ++ l)%list.
Proof.
  revert acc. induction l as [|x l IH]; intros acc; simpl.
  - by rewrite app_nil_r.
  - rewrite IH, insert_sorted_perm. simpl. apply Permutation_middle.
Qed.

Lemma sorted_perm l : sorted lt l ≡ₚ l.
Proof. unfold sorted. by rewrite sorted_from_perm. Qed.

Lemma elem_of_sorted x l : x ∈ sorted lt l <-> x ∈ l.
Proof. by rewrite sorted_perm. Qed.

End Sorting.

(** ** Results only accumulate *)

Section Accumulation.
Context {engine : RegexEngine}.

(** [evolves a a']: the entry [a'] has the categories and implications of
    [a], and every result [a] holds is still in [a']: the detected flag,
    the labels of the confidence map, a confidence total, the versions. *)
Record evolves (a a' : app) : Prop := Evolves {
  ev_cats : cats a' = cats a;
  ev_implies : implies a' = implies a;
  ev_detected : detected a = Some true -> detected a' = Some true;
  ev_labels : forall l, is_Some (default ∅ (confidence a) !! l) ->
                        is_Some (default ∅ (confidence a') !! l);
  ev_confidence : is_Some (confidence a) -> is_Some (confidence a');
  ev_total : is_Some (confidenceTotal a) -> is_Some (confidenceTotal a');
  ev_versions : forall v, v ∈ default [] (versions a) ->
                          v ∈ default [] (versions a');
  ev_versions_key : is_Some (versions a) -> is_Some (versions a')
}.

#[export] Instance evolves_preorder : PreOrder evolves.
Proof.
  split.
  - intros a. by constructor.
  - intros a b c [] []. constructor; try congruence; auto.
Qed.

(** The same, on a state that pairs the entry with something else. *)
Definition on_fst {X : Type} (R : relation app) : relation (app * X) :=
  fun st st' => R st.1 st'.1.

#[export] Instance on_fst_preorder {X : Type} (R : relation app) `{!PreOrder R} :
  PreOrder (@on_fst X R).
Proof.
  split.
  - intros st. unfold on_fst. reflexivity.
  - intros x y z. unfold on_fst. intros. by etransitivity.
Qed.

Lemma stable_on_app (f : app -> app) :
  (forall a, evolves a (f a)) ->
  stable (on_fst evolves) (on_app f).
Proof. intros H [a p]. apply H. Qed.

Lemma stable_on_pattern (f : pattern -> pattern) :
  stable (on_fst evolves) (on_pattern f).
Proof. intros [a p]. unfold on_fst. simpl. reflexivity. Qed.

Lemma stable_attr key : stable (on_fst evolves) (attr key).
Proof. intros [a p]. unfold on_fst. simpl. reflexivity. Qed.

Lemma evolves_set_detected a : evolves a (set_detected (Some true) a).
Proof. by constructor. Qed.

Lemma evolves_new_confidence a :
  evolves a (match confidence a with
             | None => set_confidence (Some ∅) a
             | Some _ => a
             end).
Proof.
  destruct (confidence a) eqn:E; [reflexivity|].
  constructor; simpl; rewrite ?E; simpl; eauto.
Qed.

Lemma evolves_record a l c :
  evolves a (set_confidence (Some (<[l := c]> (default ∅ (confidence a)))) a).
Proof.
  constructor; simpl; auto. intros l' H.
  destruct (decide (l = l')) as [->|Hne].
  - rewrite lookup_insert_eq. eauto.
  - by rewrite lookup_insert_ne.
Qed.

Lemma evolves_add_version v a : evolves a (add_version v a).
Proof.
  unfold add_version. destruct (String.eqb v ""); [reflexivity|].
  destruct (versions a) as [vs|] eqn:E.
  - destruct (bool_decide (v ∈ vs)); [reflexivity|].
    constructor; simpl; rewrite ?E; simpl; eauto.
    intros x Hx. apply elem_of_app. by left.
  - constructor; simpl; rewrite ?E; simpl; eauto.
    intros x Hx. by apply elem_of_nil in Hx.
Qed.

Lemma evolves_set_app_version a : evolves a (_set_app_version a).
Proof.
  unfold _set_app_version. destruct (versions a) as [vs|] eqn:E; [|reflexivity].
  constructor; simpl; rewrite ?E; simpl; eauto.
  intros x Hx. by apply elem_of_sorted.
Qed.

Ltac stable_step :=
  match goal with
  | |- stable _ (mret _) => apply stable_ret; apply _
  | |- stable _ (raise _) => apply stable_raise; apply _
  | |- stable _ (lift _) => apply stable_lift; apply _
  | |- stable _ (attr _) => apply stable_attr
  | |- stable _ (on_pattern _) => apply stable_on_pattern
  | |- stable _ (on_app _) => apply stable_on_app
  | |- stable _ (get ≫= _) => apply stable_get_all; intros ?
  | |- stable _ (_ ≫= _) => apply stable_bind; [apply _| |intros ?]
  | |- stable _ (for_each _ _) => apply stable_for_each; [apply _|intros ?]
  | |- stable _ (for_any _ _) => apply stable_for_any; [apply _|intros ?]
  | |- stable _ (if ?b then _ else _) => destruct b
  | |- stable _ (match ?x with _ => _ end) => destruct x
  end.

Lemma stable_detect_versions version allmatches :
  stable (on_fst evolves) (detect_versions version allmatches).
Proof.
  unfold detect_versions. repeat stable_step.
  intros a. apply evolves_add_version.
Qed.

Lemma stable_set_detected_app app_name app_type value key :
  stable (on_fst evolves) (_set_detected_app app_name app_type value key).
Proof.
  unfold _set_detected_app.
  repeat (first [apply stable_detect_versions | stable_step]);
    intros ?; auto using evolves_set_detected, evolves_new_confidence,
      evolves_record, evolves_set_app_version.
Qed.

Lemma stable_check app_name app_type value key :
  stable (on_fst evolves) (check app_name app_type value key).
Proof.
  unfold check.
  repeat (first [apply stable_set_detected_app | stable_step]).
Qed.

Lemma stable_check_field app_name app_type mapping name :
  stable (on_fst evolves) (check_field app_name app_type mapping name).
Proof.
  unfold check_field. destruct (mapping name).
  - apply stable_check.
  - apply stable_ret. apply _.
Qed.

End Accumulation.

(** ** What an analysis leaves of the store *)

Section Frame.
Context {engine : RegexEngine}.

Lemma stable_facet_loop {X : Type} (facet : app -> list X)
    (store : list X -> app -> app) (body : M (app * X) bool) :
  (forall xs a, evolves a (store xs a)) ->
  stable (on_fst evolves) body ->
  stable evolves (facet_loop facet store body).
Proof.
  intros Hstore Hbody a. unfold facet_loop.
  destruct (for_mut_stable evolves anything body) with (l := facet a) (s := a)
    as [H _].
  { intros s x. split; [apply (Hbody (s, x))|done]. }
  destruct (for_mut body (facet a) a) as [[a' xs] r]. simpl in *.
  etransitivity; [exact H|apply Hstore].
Qed.

Lemma stable_keyed (body : string -> M (app * pattern) bool) :
  (forall name, stable (on_fst evolves) (body name)) ->
  stable (on_fst evolves) (keyed body).
Proof.
  intros H [a [name p]]. unfold keyed, on_fst. specialize (H name (a, p)).
  unfold on_fst in H. destruct (body name (a, p)) as [[a' p'] r]. exact H.
Qed.

Lemma stable_has_app app_name webpage :
  stable evolves (_has_app app_name webpage).
Proof.
  unfold _has_app.
  repeat (apply stable_bind; [apply _| |intros ?]);
    try (apply stable_facet_loop; [by intros xs [] |]).
  - apply stable_check.
  - apply stable_keyed. intros name. apply stable_check_field.
  - apply stable_for_any; [apply _|]. intros x. apply stable_check.
  - apply stable_keyed. intros name. apply stable_check_field.
  - apply stable_check.
  - destruct (_ || _); [|apply stable_ret; apply _].
    apply stable_get_bind. intros s. destruct (confidence s); simpl.
    + by constructor.
    + reflexivity.
  - apply stable_ret. apply _.
Qed.

(** Store to store: the same names in the same order, each entry evolved. *)
Definition entry_evolves : relation (string * app) :=
  fun x x' => x.1 = x'.1 /\ evolves x.2 x'.2.

#[export] Instance entry_evolves_preorder : PreOrder entry_evolves.
Proof.
  split.
  - intros x. split; reflexivity.
  - intros x y z [H1 H2] [H3 H4]. split; [congruence|by etransitivity].
Qed.

Definition stored (apps apps' : dict app) : Prop :=
  Forall2 entry_evolves apps apps'.

#[export] Instance stored_preorder : PreOrder stored.
Proof.
  split.
  - intros apps. induction apps; constructor; auto. reflexivity.
  - intros x y z Hxy. revert z.
    induction Hxy as [|a b x y Hab _ IH]; intros z Hyz; [done|].
    inversion Hyz as [|? c ? z' Hbc Hrest]; subst.
    constructor; [by etransitivity|by apply IH].
Qed.

Lemma stored_dget apps apps' name :
  stored apps apps' ->
  match dget name apps with
  | Some a => exists a', dget name apps' = Some a' /\ evolves a a'
  | None => dget name apps' = None
  end.
Proof.
  induction 1 as [|[k a] [k' a'] apps apps' [Hk Ha] _ IH]; simpl in *; [done|].
  subst k'. destruct (String.eqb name k); [eauto|exact IH].
Qed.

Lemma stored_direct_apps webpage apps :
  stored apps (direct_apps webpage apps).1.2.
Proof.
  unfold direct_apps.
  destruct (for_mut_stable anything entry_evolves (analyze_entry webpage))
    with (l := apps) (s := (∅ : gset string)) as [_ H]; [|exact H].
  intros s [name a]. split; [done|]. unfold analyze_entry.
  pose proof (stable_has_app name webpage a) as H.
  destruct (_has_app name webpage a) as [a' [[]|e]]; by split.
Qed.

Lemma stored_analyze webpage apps : stored apps (analyze webpage apps).1.
Proof.
  unfold analyze. pose proof (stored_direct_apps webpage apps) as H.
  destruct (direct_apps webpage apps) as [[detected_apps apps'] [b|e]];
    simpl in *; [|done].
  by destruct (_get_implied_apps apps' detected_apps).
Qed.


End Frame.

(** ** Firing events

    Which patterns of an entry fire on a page, written as functions of the
    entry and the page alone. *)

Section Firing.
Context {engine : RegexEngine}.

Definition regex_of (p : pattern) : option regex :=
  match dget "regex" p with Some (VRegex r) => Some r | _ => None end.

Definition string_of (p : pattern) : option string :=
  match dget "string" p with Some (VStr s) => Some s | _ => None end.

(** The confidence weight: 100 without a [confidence] attribute, its
    integer value otherwise. *)
Definition weight_of (p : pattern) : option Z :=
  match dget "confidence" p with
  | None => Some 100
  | Some v => match int_of_value v with Ok c => Some c | Raise _ => None end
  end.

Definition version_ok (p : pattern) : bool :=
  match dget "version" p with
  | None | Some (VStr _) => true
  | Some _ => false
  end.

(** A pattern on which matching cannot raise: its regex is a compiled
    pattern, its string a string, its confidence an integer, its version
    template a string. *)
Definition pattern_ok (p : pattern) : bool :=
  bool_decide (is_Some (regex_of p)) && bool_decide (is_Some (string_of p))
  && bool_decide (is_Some (weight_of p)) && version_ok p.

Definition app_ok (a : app) : bool :=
  forallb pattern_ok (url a) && forallb pattern_ok (html a)
  && forallb pattern_ok (script a)
  && forallb (fun x => pattern_ok x.2) (headers a)
  && forallb (fun x => pattern_ok x.2) (meta a).

Definition store_ok (apps : dict app) : bool :=
  forallb (fun x => app_ok x.2) apps.

(** [pattern['regex'].search(value)] is true. *)
Definition fires (p : pattern) (value : string) : bool :=
  match regex_of p with
  | Some r => re_search r value
  | None => false
  end.

(** A firing event, as far as confidence goes: the label and the weight. *)
Definition event : Type := string * Z.

Definition spaced (key : string) : string :=
  if negb (String.eqb key "") then key +:+ " " else key.

Definition event_of (app_type key : string) (p : pattern) : event :=
  (label app_type (spaced key) (default "" (string_of p)),
   default 100 (weight_of p)).

Definition events_value (app_type key value : string) (p : pattern)
  : list event :=
  if fires p value then [event_of app_type key p] else [].

Definition events_field (app_type : string)
    (mapping : string -> option string) (x : string * pattern) : list event :=
  match mapping x.1 with
  | Some content => events_value app_type x.1 content x.2
  | None => []
  end.

Definition events_script (scripts : list string) (p : pattern) : list event :=
  flat_map (fun script => events_value "script" "" script p) scripts.

Definition url_events (a : app) (w : WebPage.t) : list event :=
  flat_map (events_value "url" "" (WebPage.url w)) (url a).
Definition headers_events (a : app) (w : WebPage.t) : list event :=
  flat_map (events_field "headers" (WebPage.headers w)) (headers a).
Definition script_events (a : app) (w : WebPage.t) : list event :=
  flat_map (events_script (WebPage.scripts w)) (script a).
Definition meta_events (a : app) (w : WebPage.t) : list event :=
  flat_map (events_field "meta" (WebPage.meta w)) (meta a).
Definition html_events (a : app) (w : WebPage.t) : list event :=
  flat_map (events_value "html" "" (WebPage.html w)) (html a).

(** The events of the four facets that set [has_app]. *)
Definition detecting_events (a : app) (w : WebPage.t) : list event :=
  (headers_events a w ++ script_events a w ++ meta_events a w
   ++ html_events a w)%list.

(** All the events, in the order [_has_app] meets them. *)
Definition firing_events (a : app) (w : WebPage.t) : list event :=
  (url_events a w ++ detecting_events a w)%list.

Definition some_event (evs : list event) : bool :=
  match evs with [] => false | _ => true end.

(** [app['confidence'][label] = weight], event after event; without an
    event the key [confidence] is left as it is. *)
Definition record (evs : list event) (confidence : option (gmap string Z))
  : option (gmap string Z) :=
  match evs with
  | [] => confidence
  | _ => Some (foldl (fun m (e : event) => <[e.1 := e.2]> m)
                 (default ∅ confidence) evs)
  end.

(** The entry after the events [evs]: detected, the events recorded, and
    some list of versions. *)
Definition fired (evs : list event) (vs : option (list string)) (a : app)
  : app :=
  set_versions vs
    (set_confidence (record evs (confidence a))
       (set_detected (if some_event evs then Some true else detected a) a)).

(** The pattern after it fired: its confidence is an integer. *)
Definition marked (p : pattern) : pattern :=
  dset "confidence" (VNum (default 100 (weight_of p))) p.

End Firing.

(** ** The effect of an analysis on an entry *)

Section Effects.
Context {engine : RegexEngine}.

Lemma dset_dset {V} k (v : V) d : dset k v (dset k v d) = dset k v d.
Proof.
  induction d as [|[k' x] d IH]; simpl.
  - by rewrite String.eqb_refl.
  - destruct (String.eqb k k') eqn:E; simpl; rewrite E; [done|].
    by rewrite IH.
Qed.

Lemma marked_other k p : k <> "confidence" -> dget k (marked p) = dget k p.
Proof. intros H. unfold marked. apply dget_dset_ne. congruence. Qed.

Lemma weight_of_marked p :
  is_Some (weight_of p) -> weight_of (marked p) = weight_of p.
Proof.
  intros [c Hc]. unfold marked. rewrite Hc. simpl.
  unfold weight_of at 1. by rewrite dget_dset_eq.
Qed.

Lemma regex_of_marked p : regex_of (marked p) = regex_of p.
Proof. unfold regex_of. by rewrite marked_other. Qed.

Lemma string_of_marked p : string_of (marked p) = string_of p.
Proof. unfold string_of. by rewrite marked_other. Qed.

Lemma pattern_ok_marked p : pattern_ok p = true -> pattern_ok (marked p) = true.
Proof.
  unfold pattern_ok. rewrite !andb_true_iff, !bool_decide_eq_true.
  intros [[[H1 H2] H3] H4].
  rewrite regex_of_marked, string_of_marked, weight_of_marked by done.
  repeat split; try done. unfold version_ok in *. by rewrite marked_other.
Qed.

Lemma marked_marked p : is_Some (weight_of p) -> marked (marked p) = marked p.
Proof.
  intros H. unfold marked at 1. rewrite weight_of_marked by done.
  apply dset_dset.
Qed.

Lemma events_value_marked app_type key value p :
  is_Some (weight_of p) ->
  events_value app_type key value (marked p) = events_value app_type key value p.
Proof.
  intros H. unfold events_value, fires, event_of.
  by rewrite regex_of_marked, string_of_marked, weight_of_marked.
Qed.

(** *** The effect of [_set_detected_app] *)

Lemma add_version_shape v a : exists vs, add_version v a = set_versions vs a.
Proof.
  unfold add_version. destruct (String.eqb v "").
  - exists (versions a). by destruct a.
  - destruct (versions a) as [vs|]; [|eauto].
    destruct (bool_decide (v ∈ vs)); [|eauto].
    exists (versions a). by destruct a.
Qed.

Lemma _set_app_version_shape a : exists vs, _set_app_version a = set_versions vs a.
Proof.
  unfold _set_app_version. destruct (versions a) as [vs|] eqn:E; [eauto|].
  exists None. destruct a. simpl in *. by subst.
Qed.

Lemma detect_versions_shape template allmatches a p :
  exists vs, detect_versions (VStr template) allmatches (a, p)
             = ((set_versions vs a, p), Ok tt).
Proof.
  unfold detect_versions.
  revert a. induction allmatches as [|m ms IH]; intros a; cbn [for_each].
  - exists (versions a). by destruct a.
  - unfold mbind, M_bind, on_app, modify. cbn [fst snd].
    destruct (add_version_shape (resolve_groups 0 (as_groups m) template) a)
      as [vs ->].
    unfold mbind, M_bind, on_app, modify in IH.
    destruct (IH (set_versions vs a)) as [vs' ->]. exists vs'. by destruct a.
Qed.

Lemma regex_of_Some p r : regex_of p = Some r -> dget "regex" p = Some (VRegex r).
Proof.
  unfold regex_of. destruct (dget "regex" p) as [[]|]; try discriminate.
  by intros [= ->].
Qed.

Lemma string_of_Some p s : string_of p = Some s -> dget "string" p = Some (VStr s).
Proof.
  unfold string_of. destruct (dget "string" p) as [[]|]; try discriminate.
  by intros [= ->].
Qed.

Lemma set_detected_app_effect app_name app_type value key a p :
  pattern_ok p = true ->
  exists vs, _set_detected_app app_name app_type value key (a, p)
             = ((fired [event_of app_type key p] vs a, marked p), Ok app_name).
Proof.
  unfold pattern_ok. rewrite !andb_true_iff, !bool_decide_eq_true.
  intros [[[[r Hr] [s Hs]] [c Hc]] Hv].
  apply regex_of_Some in Hr as Hr'. apply string_of_Some in Hs as Hs'.
  unfold fired, event_of, marked, record, some_event. rewrite Hs, Hc.
  cbn [default fst snd foldl].
  assert (match dget "confidence" p with
          | Some v => int_of_value v
          | None => Ok 100
          end = Ok c) as Hw.
  { unfold weight_of in Hc. destruct (dget "confidence" p) as [v|].
    - destruct (int_of_value v); by inversion Hc.
    - by inversion Hc. }
  unfold _set_detected_app, mbind, M_bind, mret, M_ret, on_app, on_pattern,
    modify, get, attr, lift. cbn [fst snd].
  destruct a as [c0 u h sc hd mt im dt [m|] ct vs0];
  unfold set_detected, set_confidence, set_versions; cbn [confidence cats url html script headers meta implies detected confidenceTotal versions default].
  all: destruct (dget "confidence" p) as [v|] eqn:Ec; cbn [fst snd];
    [rewrite Hw|injection Hw as <-]; cbn [fst snd confidence default].
  all: (rewrite (dget_dset_ne "confidence" "string") by congruence);
    rewrite Hs'; cbn [of_option str_operand fst snd].
  all: cbn [confidence cats url html script headers meta implies detected
            confidenceTotal versions default].
  all: destruct (dhas "version" p) eqn:Ev; [|by eexists].
  all: unfold dhas in Ev; unfold version_ok in Hv;
    destruct (dget "version" p) as [[]|] eqn:Ever; try discriminate.
  all: cbn [fst snd];
    rewrite (dget_dset_ne "confidence" "regex") by congruence;
    rewrite Hr'; cbn [of_option findall_value fst snd];
    rewrite (dget_dset_ne "confidence" "version") by congruence;
    rewrite Ever; cbn [of_option].
  all: match goal with
       | |- context [detect_versions (VStr ?t) ?ms (?x, ?y)] =>
           destruct (detect_versions_shape t ms x y) as [vs1 ->]
       end; cbn [fst snd].
  all: match goal with
       | |- context [_set_app_version ?x] =>
           destruct (_set_app_version_shape x) as [vs2 ->]
       end.
  all: by eexists.
Qed.

(** *** Composing effects *)

Lemma some_event_app (e1 e2 : list event) :
  some_event (e1 ++ e2) = some_event e1 || some_event e2.
Proof. by destruct e1. Qed.

Lemma record_app e1 e2 oc : record e2 (record e1 oc) = record (e1 ++ e2) oc.
Proof.
  destruct e1 as [|x e1]; [done|]. destruct e2 as [|y e2].
  - by rewrite app_nil_r.
  - change (record (y :: e2) (record (x :: e1) oc))
      with (Some (foldl (fun m (e : event) => <[e.1 := e.2]> m)
                    (foldl (fun m (e : event) => <[e.1 := e.2]> m)
                       (default ∅ oc) (x :: e1)) (y :: e2))).
    by rewrite <- foldl_app.
Qed.

Lemma fired_nil a : fired [] (versions a) a = a.
Proof. by destruct a. Qed.

Lemma fired_fired e1 e2 vs1 vs2 a :
  fired e2 vs2 (fired e1 vs1 a) = fired (e1 ++ e2) vs2 a.
Proof.
  unfold fired. destruct a as [c0 u h sc hd mt im dt cf ct vs0];
    unfold set_versions, set_confidence, set_detected;
    cbn [cats url html script headers meta implies detected confidence
         confidenceTotal versions].
  rewrite record_app, some_event_app.
  by destruct (some_event e1), (some_event e2).
Qed.

(** *** One pattern *)

Definition touched (b : bool) (p : pattern) : pattern :=
  if b then marked p else p.

Lemma pattern_ok_weight p : pattern_ok p = true -> is_Some (weight_of p).
Proof.
  unfold pattern_ok. rewrite !andb_true_iff, !bool_decide_eq_true. tauto.
Qed.

Lemma pattern_ok_touched b p :
  pattern_ok p = true -> pattern_ok (touched b p) = true.
Proof. destruct b; [apply pattern_ok_marked|done]. Qed.

Lemma events_value_touched b app_type key value p :
  pattern_ok p = true ->
  events_value app_type key value (touched b p)
  = events_value app_type key value p.
Proof.
  intros H. destruct b; [|done].
  apply events_value_marked, pattern_ok_weight, H.
Qed.

Lemma touched_touched b1 b2 p :
  pattern_ok p = true -> touched b2 (touched b1 p) = touched (b1 || b2) p.
Proof.
  intros H. destruct b1, b2; try done.
  apply marked_marked, pattern_ok_weight, H.
Qed.

Lemma search_value_ok p value :
  pattern_ok p = true -> search_value p value = Ok (fires p value).
Proof.
  unfold pattern_ok. rewrite !andb_true_iff, !bool_decide_eq_true.
  intros [[[[r Hr] _] _] _]. unfold search_value, fires. rewrite Hr.
  by rewrite (regex_of_Some _ _ Hr).
Qed.

Lemma some_event_value app_type key value p :
  some_event (events_value app_type key value p) = fires p value.
Proof. unfold events_value. by destruct (fires p value). Qed.

Lemma check_effect app_name app_type value key a p :
  pattern_ok p = true ->
  exists vs, check app_name app_type value key (a, p)
    = ((fired (events_value app_type key value p) vs a,
        touched (fires p value) p), Ok (fires p value)).
Proof.
  intros Hok. unfold check, mbind, M_bind, get, lift. cbn [fst snd].
  rewrite search_value_ok by done. unfold events_value.
  destruct (fires p value).
  - destruct (set_detected_app_effect app_name app_type value key a p Hok)
      as [vs ->]. by exists vs.
  - exists (versions a). by rewrite fired_nil.
Qed.

Lemma check_field_effect app_name app_type mapping name a p :
  pattern_ok p = true ->
  exists vs, check_field app_name app_type mapping name (a, p)
    = ((fired (events_field app_type mapping (name, p)) vs a,
        touched (some_event (events_field app_type mapping (name, p))) p),
       Ok (some_event (events_field app_type mapping (name, p)))).
Proof.
  intros Hok. unfold check_field, events_field. cbn [fst snd].
  destruct (mapping name) as [content|].
  - destruct (check_effect app_name app_type content name a p Hok) as [vs ->].
    exists vs. unfold events_value. by destruct (fires p content).
  - exists (versions a). by rewrite fired_nil.
Qed.

Lemma events_script_touched b scripts p :
  pattern_ok p = true ->
  events_script scripts (touched b p) = events_script scripts p.
Proof.
  intros H. unfold events_script. induction scripts as [|y ys IH]; [done|].
  cbn [flat_map]. by rewrite events_value_touched, IH.
Qed.

Lemma scripts_effect app_name scripts a p :
  pattern_ok p = true ->
  exists vs,
    for_any scripts (fun script => check app_name "script" script "") (a, p)
    = ((fired (events_script scripts p) vs a,
        touched (some_event (events_script scripts p)) p),
       Ok (some_event (events_script scripts p))).
Proof.
  revert a p. induction scripts as [|x scripts IH]; intros a p Hok.
  - exists (versions a). simpl. by rewrite fired_nil.
  - cbn [for_any]. unfold mbind, M_bind at 1.
    destruct (check_effect app_name "script" x "" a p Hok) as [vs ->].
    unfold mbind, M_bind at 1.
    destruct (IH (fired (events_value "script" "" x p) vs a)
                 (touched (fires p x) p)) as [vs' ->].
    { by apply pattern_ok_touched. }
    exists vs'. unfold mret, M_ret.
    rewrite events_script_touched by done.
    rewrite fired_fired, touched_touched by done.
    unfold events_script. cbn [flat_map].
    by rewrite some_event_app, some_event_value.
Qed.

(** *** One facet *)

(** A loop body that, on an element that is well formed, does not raise,
    has the effect of the events [evs] of the element, answers whether
    there was one, and leaves the element well formed. *)
Definition body_spec {X : Type} (ok : X -> bool) (evs : X -> list event)
    (body : M (app * X) bool) : Prop :=
  forall a x, ok x = true ->
    exists vs x', body (a, x) = ((fired (evs x) vs a, x'), Ok (some_event (evs x)))
                  /\ ok x' = true.

Lemma for_mut_effect {X : Type} (ok : X -> bool) (evs : X -> list event)
    (body : M (app * X) bool) :
  body_spec ok evs body ->
  forall l a, forallb ok l = true ->
    exists vs l',
      for_mut body l a
      = ((fired (flat_map evs l) vs a, l'), Ok (some_event (flat_map evs l)))
      /\ forallb ok l' = true.
Proof.
  intros Hbody. induction l as [|x l IH]; intros a Hok.
  - exists (versions a), []. simpl. by rewrite fired_nil.
  - cbn [forallb] in Hok. apply andb_true_iff in Hok as [Hx Hl].
    cbn [for_mut flat_map].
    destruct (Hbody a x Hx) as (vs & x' & -> & Hx').
    destruct (IH (fired (evs x) vs a) Hl) as (vs' & l' & -> & Hl').
    exists vs', (x' :: l'). rewrite fired_fired, some_event_app.
    split; [done|]. cbn [forallb]. by rewrite Hx', Hl'.
Qed.

Lemma facet_loop_effect {X : Type} (ok : X -> bool) (evs : X -> list event)
    (facet : app -> list X) (store : list X -> app -> app)
    (body : M (app * X) bool) a :
  body_spec ok evs body ->
  forallb ok (facet a) = true ->
  exists vs l',
    facet_loop facet store body a
    = (store l' (fired (flat_map evs (facet a)) vs a),
       Ok (some_event (flat_map evs (facet a))))
    /\ forallb ok l' = true.
Proof.
  intros Hbody Hok. unfold facet_loop.
  destruct (for_mut_effect ok evs body Hbody (facet a) a Hok)
    as (vs & l' & -> & Hl'). eauto.
Qed.

Lemma body_spec_check app_name app_type value :
  body_spec pattern_ok (events_value app_type "" value)
    (check app_name app_type value "").
Proof.
  intros a p Hok.
  destruct (check_effect app_name app_type value "" a p Hok) as [vs ->].
  eexists _, _. split; [by rewrite some_event_value|].
  by apply pattern_ok_touched.
Qed.

Lemma body_spec_field app_name app_type mapping :
  body_spec (fun x : string * pattern => pattern_ok x.2)
    (events_field app_type mapping)
    (keyed (check_field app_name app_type mapping)).
Proof.
  intros a [name p] Hok. cbn [snd] in Hok. unfold keyed.
  destruct (check_field_effect app_name app_type mapping name a p Hok)
    as [vs ->].
  eexists _, _. split; [done|]. by apply pattern_ok_touched.
Qed.

Lemma body_spec_scripts app_name scripts :
  body_spec pattern_ok (events_script scripts)
    (for_any scripts (fun script => check app_name "script" script "")).
Proof.
  intros a p Hok. destruct (scripts_effect app_name scripts a p Hok) as [vs ->].
  eexists _, _. split; [done|]. by apply pattern_ok_touched.
Qed.

(** *** The whole of [_has_app] *)

Lemma app_ok_facets a :
  app_ok a = true ->
  forallb pattern_ok (url a) = true /\ forallb pattern_ok (html a) = true
  /\ forallb pattern_ok (script a) = true
  /\ forallb (fun x : string * pattern => pattern_ok x.2) (headers a) = true
  /\ forallb (fun x : string * pattern => pattern_ok x.2) (meta a) = true.
Proof. unfold app_ok. rewrite !andb_true_iff. tauto. Qed.

Lemma record_some evs oc :
  some_event evs = true -> exists m, record evs oc = Some m.
Proof. destruct evs; [discriminate|]. intros _. unfold record. eauto. Qed.

Ltac facet_step ok evs Hbody Hok :=
  unfold mbind at 1, M_bind at 1;
  match goal with
  | |- context [facet_loop ?f ?st ?b ?x] =>
      let vs := fresh "vs" in
      let l := fresh "l" in
      let Hl := fresh "Hl" in
      destruct (facet_loop_effect ok evs f st b x Hbody Hok)
        as (vs & l & -> & Hl)
  end;
  cbn [cats url html script headers meta implies detected confidence
       confidenceTotal versions set_url set_html set_script set_headers
       set_meta fired set_versions set_confidence set_detected].

(** On an entry whose patterns are well formed [_has_app] does not raise;
    it answers whether a pattern of headers, script, meta or html fired;
    the confidence map it leaves is the one it found with the events of
    the page recorded in order; the total is the sum over that map when
    the answer is [True], and is left alone otherwise. *)
Lemma has_app_effect app_name w a :
  app_ok a = true ->
  exists a',
    _has_app app_name w a = (a', Ok (some_event (detecting_events a w)))
    /\ app_ok a' = true
    /\ cats a' = cats a /\ implies a' = implies a
    /\ confidence a' = record (firing_events a w) (confidence a)
    /\ detected a'
       = (if some_event (firing_events a w) then Some true else detected a)
    /\ confidenceTotal a'
       = (if some_event (detecting_events a w)
          then confidence_sum <$> record (firing_events a w) (confidence a)
          else confidenceTotal a).
Proof.
  intros Hok. apply app_ok_facets in Hok as (Hu & Hh & Hs & Hhd & Hm).
  unfold _has_app.
  facet_step pattern_ok (events_value "url" "" (WebPage.url w))
    (body_spec_check app_name "url" (WebPage.url w)) Hu.
  facet_step (fun kp : string * pattern => pattern_ok kp.2)
    (events_field "headers" (WebPage.headers w))
    (body_spec_field app_name "headers" (WebPage.headers w)) Hhd.
  facet_step pattern_ok (events_script (WebPage.scripts w))
    (body_spec_scripts app_name (WebPage.scripts w)) Hs.
  facet_step (fun kp : string * pattern => pattern_ok kp.2)
    (events_field "meta" (WebPage.meta w))
    (body_spec_field app_name "meta" (WebPage.meta w)) Hm.
  facet_step pattern_ok (events_value "html" "" (WebPage.html w))
    (body_spec_check app_name "html" (WebPage.html w)) Hh.
  match goal with |- context [_ ≫= _] => idtac end.
  match goal with
  | |- exists a', (_ ?st = _) /\ _ => remember st as a5 eqn:Ha5
  end.
  assert (confidence a5 = record (firing_events a w) (confidence a)) as Hc5.
  { subst a5. cbn [confidence set_html set_meta set_script set_headers set_url
                   fired set_versions set_confidence set_detected].
    rewrite !record_app. unfold firing_events, detecting_events, url_events,
      headers_events, script_events, meta_events, html_events.
    reflexivity. }
  assert (detected a5 = (if some_event (firing_events a w) then Some true
                         else detected a)) as Hd5.
  { subst a5. cbn [detected set_html set_meta set_script set_headers set_url
                   fired set_versions set_confidence set_detected].
    unfold firing_events, detecting_events, url_events,
      headers_events, script_events, meta_events, html_events.
    rewrite !some_event_app.
    repeat match goal with |- context [some_event ?e] =>
             destruct (some_event e) end; reflexivity. }
  assert (confidenceTotal a5 = confidenceTotal a) as Ht5 by (by subst a5).
  assert (cats a5 = cats a /\ implies a5 = implies a) as [Hcats Himp]
    by (by subst a5).
  assert (app_ok a5 = true) as Hok5.
  { subst a5. unfold app_ok.
    cbn [url html script headers meta set_html set_meta set_script
         set_headers set_url fired set_versions set_confidence set_detected].
    by rewrite Hl, Hl0, Hl1, Hl2, Hl3. }
  clear Ha5.
  match goal with
  | |- exists a', ((if ?b then _ else _) ≫= _) _ = _ /\ _ =>
      assert (b = some_event (detecting_events a w)) as ->
  end.
  { unfold detecting_events, headers_events, script_events, meta_events,
      html_events. by rewrite !some_event_app, !orb_assoc. }
  destruct (some_event (detecting_events a w)) eqn:Hdet.
  - assert (some_event (firing_events a w) = true) as Hfire.
    { unfold firing_events. rewrite some_event_app, Hdet. apply orb_true_r. }
    destruct (record_some _ (confidence a) Hfire) as [m Hm'].
    exists (set_confidenceTotal (Some (confidence_sum m)) a5).
    unfold mbind, M_bind, get, put, mret, M_ret. rewrite Hc5, Hm'.
    split; [done|]. rewrite Hfire in Hd5. rewrite Hfire.
    cbn [cats implies confidence detected confidenceTotal set_confidenceTotal].
    repeat split; try done; congruence.
  - exists a5. unfold mbind, M_bind, mret, M_ret. by rewrite Hc5, Hd5, Ht5.
Qed.

End Effects.
Section AnalyzeEffect.
Context {engine : RegexEngine}.

(** The names [_has_app] answers [True] for. *)
Definition detected_names (w : WebPage.t) (apps : dict app) : gset string :=
  list_to_set
    (map fst (filter (fun x : string * app =>
                        some_event (detecting_events x.2 w) = true) apps)).

(** What the analysis of a page does to one entry of the store. *)
Definition entry_effect (w : WebPage.t) (x x' : string * app) : Prop :=
  x'.1 = x.1
  /\ cats x'.2 = cats x.2 /\ implies x'.2 = implies x.2
  /\ confidence x'.2 = record (firing_events x.2 w) (confidence x.2)
  /\ detected x'.2
     = (if some_event (firing_events x.2 w) then Some true else detected x.2)
  /\ confidenceTotal x'.2
     = (if some_event (detecting_events x.2 w)
        then confidence_sum <$> record (firing_events x.2 w) (confidence x.2)
        else confidenceTotal x.2).

Lemma elem_of_detected_names w apps name :
  name ∈ detected_names w apps <->
  exists a, (name, a) ∈ apps /\ some_event (detecting_events a w) = true.
Proof.
  unfold detected_names. rewrite elem_of_list_to_set, list_elem_of_In, in_map_iff.
  split.
  - intros ([n a] & <- & Hin). apply list_elem_of_In, list_elem_of_filter in Hin.
    destruct Hin. eauto.
  - intros (a & Hin & Hev). exists (name, a). split; [done|].
    apply list_elem_of_In, list_elem_of_filter. done.
Qed.

Lemma direct_apps_effect w apps (s : gset string) :
  store_ok apps = true ->
  exists apps' b,
    for_mut (analyze_entry w) apps s
    = ((detected_names w apps ∪ s, apps'), Ok b)
    /\ store_ok apps' = true
    /\ Forall2 (entry_effect w) apps apps'.
Proof.
  revert s. induction apps as [|[name a] apps IH]; intros s Hok.
  - exists [], false. cbn. split; [|done]. f_equal. f_equal. set_solver.
  - cbn [store_ok forallb snd] in Hok. apply andb_true_iff in Hok as [Ha Hok].
    cbn [for_mut]. unfold analyze_entry at 1.
    destruct (has_app_effect name w a Ha) as (a' & -> & Ha' & Heff).
    destruct (some_event (detecting_events a w)) eqn:Hdet.
    + destruct (IH ({[name]} ∪ s) Hok) as (apps' & b & -> & Hok' & Hall).
      exists ((name, a') :: apps'), (true || b). split; [|split].
      * f_equal. f_equal. unfold detected_names. cbn [filter list_filter snd].
        rewrite decide_True by exact Hdet. cbn [map fst list_to_set].
        fold (detected_names w apps). set_solver.
      * cbn [store_ok forallb snd]. fold (store_ok apps'). by rewrite Ha', Hok'.
      * constructor; [|done]. split; [done|]. cbn [snd]. by rewrite Hdet.
    + destruct (IH s Hok) as (apps' & b & -> & Hok' & Hall).
      exists ((name, a') :: apps'), (false || b). split; [|split].
      * f_equal. f_equal. unfold detected_names. cbn [filter list_filter snd].
        rewrite decide_False by congruence. done.
      * cbn [store_ok forallb snd]. fold (store_ok apps'). by rewrite Ha', Hok'.
      * constructor; [|done]. split; [done|]. cbn [snd]. by rewrite Hdet.
Qed.

End AnalyzeEffect.
Section AnalyzeWhole.
Context {engine : RegexEngine}.
Implicit Types (apps : dict app) (all implied : gset string).

Lemma implied_loop_grows apps fuel all implied R :
  implied_loop apps fuel all implied = Some R -> all ⊆ R.
Proof.
  revert all implied. induction fuel as [|fuel IH]; intros all implied; simpl;
    [discriminate|].
  destruct (decide (implied ⊆ all)).
  - by intros [= ->].
  - intros H. apply IH in H. set_solver.
Qed.

(** Whatever the loop returns was in [all], in [implied], or is implied by
    a part of the result: nothing else is ever added. *)
Lemma implied_loop_within apps (G : gset string) fuel all implied R :
  implied_loop apps fuel all implied = Some R ->
  all ⊆ G -> implied ⊆ G ->
  (forall X : gset string, X ⊆ R -> __get_implied_apps apps X ⊆ G) ->
  R ⊆ G.
Proof.
  revert all implied. induction fuel as [|fuel IH]; intros all implied; simpl;
    [discriminate|].
  destruct (decide (implied ⊆ all)).
  - by intros [= ->].
  - intros H Hall Himp HG. apply (IH _ _ H); [set_solver| |done].
    apply HG. by apply implied_loop_grows in H.
Qed.

(** An implied name is implied by an entry of the result. *)
Lemma _get_implied_apps_sound apps detected_apps implied_apps n :
  _get_implied_apps apps detected_apps = Some implied_apps ->
  n ∈ implied_apps ->
  exists T a, T ∈ detected_apps ∪ implied_apps
              /\ dget T apps = Some a /\ n ∈ implies a.
Proof.
  intros H Hn. apply elem_of_implied. revert n Hn.
  change (implied_apps
          ⊆ __get_implied_apps apps (detected_apps ∪ implied_apps)).
  apply (implied_loop_within _ _ _ _ _ _ H).
  - set_solver.
  - apply implied_mono. set_solver.
  - intros X HX. apply implied_mono. set_solver.
Qed.

(** On a store whose patterns are well formed [analyze] does not raise: it
    returns the names [_has_app] answered [True] for, with the names they
    imply. *)
Lemma analyze_effect w apps :
  store_ok apps = true ->
  exists apps' implied_apps,
    analyze w apps = (apps', Ok (detected_names w apps ∪ implied_apps))
    /\ _get_implied_apps apps' (detected_names w apps) = Some implied_apps
    /\ store_ok apps' = true
    /\ Forall2 (entry_effect w) apps apps'.
Proof.
  intros Hok. unfold analyze, direct_apps.
  destruct (direct_apps_effect w apps ∅ Hok) as (apps' & b & -> & Hok' & Hall).
  replace (detected_names w apps ∪ ∅) with (detected_names w apps) by set_solver.
  destruct (_get_implied_apps_closed apps' (detected_names w apps))
    as (implied_apps & Himp & _).
  rewrite Himp. exists apps', implied_apps. done.
Qed.

Lemma entry_effect_dget w apps apps' name :
  Forall2 (entry_effect w) apps apps' ->
  match dget name apps with
  | Some a => exists a', dget name apps' = Some a' /\ entry_effect w (name, a) (name, a')
  | None => dget name apps' = None
  end.
Proof.
  induction 1 as [|[k a] [k' a'] apps apps' Hx _ IH]; simpl; [done|].
  destruct Hx as [Hk Hx]. simpl in Hk. subst k'.
  destruct (String.eqb name k) eqn:E; [|exact IH].
  exists a'. split; [done|]. split; [done|exact Hx].
Qed.

End AnalyzeWhole.
(** ** The marker [NonTermination] is raised by no method *)

Section Never.
Context {engine : RegexEngine}.

Definition never {S A : Type} (m : M S A) : Prop :=
  forall s, (m s).2 <> Raise NonTermination.

Lemma never_ret {S A} (a : A) : never (mret a : M S A).
Proof. by intros s. Qed.

Lemma never_lift {S A} (r : result A) :
  r <> Raise NonTermination -> never (lift r : M S A).
Proof. by intros H s. Qed.

Lemma never_bind {S A B} (m : M S A) (f : A -> M S B) :
  never m -> (forall a, never (f a)) -> never (m ≫= f).
Proof.
  intros Hm Hf s. unfold mbind, M_bind. specialize (Hm s).
  destruct (m s) as [s' [a|e]]; simpl in *; [apply Hf|congruence].
Qed.

Lemma never_for_each {S A} (l : list A) (body : A -> M S unit) :
  (forall x, never (body x)) -> never (for_each l body).
Proof.
  intros H. induction l; simpl; [apply never_ret|].
  apply never_bind; auto.
Qed.

Lemma never_for_any {S A} (l : list A) (body : A -> M S bool) :
  (forall x, never (body x)) -> never (for_any l body).
Proof.
  intros H. induction l; simpl; [apply never_ret|].
  apply never_bind; [auto|]. intros b.
  apply never_bind; [auto|]. intros b'. apply never_ret.
Qed.

Lemma never_for_mut {S X} (body : M (S * X) bool) l s :
  never body -> (for_mut body l s).2 <> Raise NonTermination.
Proof.
  intros H. revert s. induction l as [|x l IH]; intros s; simpl; [done|].
  specialize (H (s, x)). destruct (body (s, x)) as [[s' x'] [b|e]]; [|done].
  specialize (IH s').
  destruct (for_mut body l s') as [[s'' l''] [b'|e]]; simpl in *; congruence.
Qed.

Lemma of_option_never {A} (o : option A) e :
  e <> NonTermination -> of_option e o <> Raise NonTermination.
Proof. destruct o; simpl; congruence. Qed.

Lemma int_of_value_never v : int_of_value v <> Raise NonTermination.
Proof. destruct v; simpl; try done. by apply of_option_never. Qed.

Lemma findall_value_never v value : findall_value v value <> Raise NonTermination.
Proof.
  destruct v; simpl; try done.
  by destruct (re_compile false s) as [r| |[]].
Qed.

Lemma search_value_never p value : search_value p value <> Raise NonTermination.
Proof. unfold search_value. by destruct (dget "regex" p) as [[]|]. Qed.

Lemma str_operand_never v : str_operand v <> Raise NonTermination.
Proof. by destruct v. Qed.

Ltac never_step :=
  match goal with
  | |- never (mret _) => apply never_ret
  | |- never (raise _) => by intros ?
  | |- never (lift _) => apply never_lift
  | |- never (attr _) => intros ?; by apply of_option_never
  | |- never (on_pattern _) => by intros ?
  | |- never (on_app _) => by intros ?
  | |- never get => by intros ?
  | |- never (put _) => by intros ?
  | |- never (_ ≫= _) => apply never_bind; [|intros ?]
  | |- never (for_each _ _) => apply never_for_each; intros ?
  | |- never (for_any _ _) => apply never_for_any; intros ?
  | |- never (if ?b then _ else _) => destruct b
  | |- never (match ?x with _ => _ end) => destruct x
  end.

Lemma never_set_detected_app app_name app_type value key :
  never (_set_detected_app app_name app_type value key).
Proof.
  unfold _set_detected_app, detect_versions.
  repeat never_step;
    auto using int_of_value_never, findall_value_never, str_operand_never.
Qed.

Lemma never_check app_name app_type value key :
  never (check app_name app_type value key).
Proof.
  unfold check.
  repeat (first [apply never_set_detected_app | never_step]);
    auto using search_value_never.
Qed.

Lemma never_check_field app_name app_type mapping name :
  never (check_field app_name app_type mapping name).
Proof.
  unfold check_field. destruct (mapping name); [apply never_check|apply never_ret].
Qed.

Lemma never_keyed (body : string -> M (app * pattern) bool) :
  (forall name, never (body name)) -> never (keyed body).
Proof.
  intros H [a [name p]]. unfold keyed. specialize (H name (a, p)).
  by destruct (body name (a, p)) as [[a' p'] r].
Qed.

Lemma never_facet_loop {X} (facet : app -> list X) store (body : M (app * X) bool) :
  never body -> never (facet_loop facet store body).
Proof.
  intros H a. unfold facet_loop.
  pose proof (never_for_mut body (facet a) a H) as Hn.
  by destruct (for_mut body (facet a) a) as [[a' xs] r].
Qed.

Lemma never_has_app app_name w : never (_has_app app_name w).
Proof.
  unfold _has_app.
  repeat (first [apply never_facet_loop | apply never_keyed; intros ?
                | apply never_check | apply never_check_field | never_step]).
Qed.

End Never.

Section Claims1.
Context {engine : RegexEngine}.

Lemma closed_stored apps apps' names :
  stored apps apps' -> closed apps' names -> closed apps names.
Proof.
  intros Hst Hcl T a n HT Ha Hn.
  pose proof (stored_dget apps apps' T Hst) as H. rewrite Ha in H.
  destruct H as (a' & Ha' & Hev). apply (Hcl T a' n HT Ha').
  by rewrite (ev_implies _ _ Hev).
Qed.

(** The names [analyze] collects before it adds the implied ones are names
    of entries. *)
Lemma for_mut_names w apps (s : gset string) n :
  n ∈ (for_mut (analyze_entry w) apps s).1.1 ->
  n ∈ s \/ is_Some (dget n (for_mut (analyze_entry w) apps s).1.2).
Proof.
  revert s. induction apps as [|[name a] apps IH]; intros s; cbn [for_mut].
  - cbn. auto.
  - unfold analyze_entry at 1 3.
    destruct (_has_app name w a) as [a' [[|]|e]].
    + specialize (IH ({[name]} ∪ s)).
      destruct (for_mut (analyze_entry w) apps ({[name]} ∪ s)) as [[s' apps'] r].
      cbn in *. intros Hn. destruct (IH Hn) as [H|H].
      * apply elem_of_union in H as [H|H]; [|by left].
        apply elem_of_singleton in H as ->. right. rewrite String.eqb_refl. eauto.
      * right. destruct (String.eqb n name); eauto.
    + specialize (IH s).
      destruct (for_mut (analyze_entry w) apps s) as [[s' apps'] r].
      cbn in *. intros Hn. destruct (IH Hn) as [H|H]; [by left|].
      right. destruct (String.eqb n name); eauto.
    + cbn. auto.
Qed.

(** The shape of what [analyze] returns. *)
Lemma analyze_returns w apps apps' names :
  analyze w apps = (apps', Ok names) ->
  exists detected_apps implied_apps,
    names = detected_apps ∪ implied_apps
    /\ _get_implied_apps apps' detected_apps = Some implied_apps
    /\ (forall n, n ∈ detected_apps -> is_Some (dget n apps')).
Proof.
  unfold analyze, direct_apps. intros H.
  pose proof (for_mut_names w apps ∅) as Hn.
  destruct (for_mut (analyze_entry w) apps ∅) as [[d apps1] [b|e]];
    [|discriminate].
  destruct (_get_implied_apps apps1 d) as [i|] eqn:Hi; [|discriminate].
  injection H as <- <-. exists d, i. split; [done|]. split; [done|].
  intros n Hd. destruct (Hn n Hd) as [?|?]; [set_solver|done].
Qed.

Lemma never_analyze_entry w : never (analyze_entry w).
Proof.
  intros [s [name a]]. unfold analyze_entry.
  pose proof (never_has_app name w a) as H.
  by destruct (_has_app name w a) as [a' [[|]|e]].
Qed.

Lemma analyze_terminates w apps : (analyze w apps).2 <> Raise NonTermination.
Proof.
  unfold analyze.
  pose proof (never_for_mut (analyze_entry w) apps ∅ (never_analyze_entry w))
    as H. fold (direct_apps w apps) in H.
  destruct (direct_apps w apps) as [[d apps1] [b|e]]; simpl in *; [|congruence].
  by destruct (_get_implied_apps_closed apps1 d) as (i & -> & _).
Qed.

End Claims1.
(** ** The implied-technology closure terminates and is closed *)

Section ClosureClaim.
Context {engine : RegexEngine}.

(** C1. For every store and every set of directly detected names the
    expansion by implied technologies terminates: the loop of
    [_get_implied_apps] exits within [size (implied_names apps) + 1] tests
    of its condition, whatever cycles the implications form, and with any
    larger bound it returns the same set. The set [analyze] builds from it,
    the detected names with the implied ones, is closed: with a name that
    is an entry of the store it holds every name of the entry's [implies]
    list. [analyze] itself never loops, and the set it returns is closed
    for the store as it was before the call and as it is after it. *)
Theorem implied_expansion_terminates_and_is_closed (apps : dict app)
    (detected_apps : gset string) :
  exists implied_apps : gset string,
    _get_implied_apps apps detected_apps = Some implied_apps
    /\ (forall fuel, (S (size (implied_names apps)) <= fuel)%nat ->
          implied_loop apps fuel ∅ (__get_implied_apps apps detected_apps)
          = Some implied_apps)
    /\ closed apps (detected_apps ∪ implied_apps)
    /\ (forall w,
          (analyze w apps).2 <> Raise NonTermination
          /\ forall names, (analyze w apps).2 = Ok names ->
               closed (analyze w apps).1 names /\ closed apps names).
Proof.
  destruct (_get_implied_apps_closed apps detected_apps) as (i & Hi & Hcl).
  exists i. split; [done|]. split; [|split; [done|]].
  - intros fuel Hle. by apply (implied_loop_fuel _ _ _ _ _ _ Hi).
  - intros w. split; [apply analyze_terminates|]. intros names Hn.
    assert (closed (analyze w apps).1 names) as H.
    { destruct (analyze w apps) as [apps' r] eqn:E. simpl in *. subst r.
      destruct (analyze_returns _ _ _ _ E) as (d & j & -> & Hj & _).
      destruct (_get_implied_apps_closed apps' d) as (j' & Hj' & Hcl').
      rewrite Hj in Hj'. by injection Hj' as ->. }
    split; [done|]. eapply closed_stored; [apply stored_analyze|done].
Qed.

End ClosureClaim.

(** A store whose implications form a cycle: A implies B, B implies A and
    C. *)
Definition entry_implying (names : list string) : app :=
  App None [] [] [] [] [] names None None None None.

Definition cyclic_store : dict app :=
  [("A", entry_implying ["B"]); ("B", entry_implying ["A"; "C"]);
   ("C", entry_implying [])].

Example implied_on_a_cycle :
  _get_implied_apps (engine := mini_engine) cyclic_store {["A"]}
  = Some {["A"; "B"; "C"]}.
Proof. vm_compute. reflexivity. Qed.
(** ** Names that are implied but are no entries *)

Section UnknownNames.
Context {engine : RegexEngine}.

Lemma versions_of_unknown apps names n :
  n ∈ names -> dget n apps = None -> versions_of apps names = Raise KeyError.
Proof.
  intros Hn Hnone. induction names as [|x names IH]; [by apply elem_of_nil in Hn|].
  cbn [versions_of]. unfold get_versions at 1.
  destruct (dget x apps) as [a|] eqn:E; [|done].
  apply elem_of_cons in Hn as [->|Hn]; [congruence|]. by rewrite IH.
Qed.

(** C10. The set [analyze] returns holds, with a name that is an entry of
    the store, every name of the entry's [implies] list, whether that name
    is an entry or not, and so along a chain of implications. The closure
    of a set that holds names without an entry returns. A returned name
    that is no entry comes from the [implies] list of an entry of the
    returned set; the closure takes it for a name that implies nothing;
    [get_versions] raises KeyError for it, and so does
    [analyze_with_versions] on the same page. *)
Theorem implied_name_without_entry (w : WebPage.t) (apps apps' : dict app)
    (names : gset string) :
  analyze w apps = (apps', Ok names) ->
  (forall T a n,
     T ∈ names -> dget T apps' = Some a -> n ∈ implies a -> n ∈ names)
  /\ is_Some (_get_implied_apps apps' names)
  /\ (forall n,
        n ∈ names -> dget n apps' = None ->
        (exists T a, T ∈ names /\ dget T apps' = Some a /\ n ∈ implies a)
        /\ implied_by apps' n = ∅
        /\ get_versions apps' n = Raise KeyError
        /\ analyze_with_versions w apps = (apps', Raise KeyError)).
Proof.
  intros Han.
  destruct (analyze_returns _ _ _ _ Han) as (d & i & -> & Hi & Hd).
  split; [|split].
  - destruct (_get_implied_apps_closed apps' d) as (i' & Hi' & Hcl).
    rewrite Hi in Hi'. injection Hi' as <-. exact Hcl.
  - destruct (_get_implied_apps_closed apps' (d ∪ i)) as (j & -> & _).
    by eexists.
  - intros n Hn Hnone. split; [|split; [|split]].
    + apply elem_of_union in Hn as [Hn|Hn].
      * apply Hd in Hn as [a Ha]. congruence.
      * by apply (_get_implied_apps_sound _ _ _ _ Hi).
    + unfold implied_by. by rewrite Hnone.
    + unfold get_versions. by rewrite Hnone.
    + unfold analyze_with_versions, mbind, M_bind, get, lift. rewrite Han.
      cbn [fst snd]. rewrite (versions_of_unknown apps' _ n); [done| |done].
      by apply elem_of_elements.
Qed.

End UnknownNames.

(** A pattern as the store holds it, from the string of the database. *)
Definition compiled `{RegexEngine} (raw : string) : pattern :=
  match _prepare_pattern (VStr raw) with
  | Ok attrs => attrs
  | Raise _ => []
  end.

Definition blank_page : WebPage.t :=
  WebPage.Build "http://x" "" (fun _ => None) [] (fun _ => None).

Definition page_of_html (html : string) : WebPage.t :=
  WebPage.Build "http://x" html (fun _ => None) [] (fun _ => None).

(** jQuery UI implies jQuery, jQuery implies Sizzle, and the store has no
    entry for Sizzle; the page shows jQuery UI only. *)
Definition ghost_store : dict app :=
  [("jQuery UI",
    App (Some [59]) [] [compiled (H := mini_engine) "jquery-ui"] [] [] []
        ["jQuery"] None None None None);
   ("jQuery",
    App (Some [59]) [] [] [] [] [] ["Sizzle"] None None None None)].

Definition ghost_page : WebPage.t := page_of_html "<p>jquery-ui</p>".

Lemma implied_name_without_entry_witness :
  analyze ghost_page ghost_store
  = ((analyze ghost_page ghost_store).1,
     Ok {["jQuery UI"; "jQuery"; "Sizzle"]})
  /\ dget "Sizzle" (analyze ghost_page ghost_store).1 = None
  /\ get_versions (analyze ghost_page ghost_store).1 "Sizzle" = Raise KeyError
  /\ (analyze_with_versions ghost_page ghost_store).2 = Raise KeyError.
Proof.
  assert (analyze ghost_page ghost_store
          = ((analyze ghost_page ghost_store).1,
             Ok {["jQuery UI"; "jQuery"; "Sizzle"]}))
    as H1 by (apply pair_of_snd; vm_compute; reflexivity).
  assert ("Sizzle" ∈ ({["jQuery UI"; "jQuery"; "Sizzle"]} : gset string))
    as H2 by set_solver.
  assert (dget "Sizzle" (analyze ghost_page ghost_store).1 = None) as H3
    by (apply dget_absent; vm_compute; reflexivity).
  destruct (implied_name_without_entry ghost_page ghost_store _ _ H1)
    as (_ & _ & H).
  destruct (H "Sizzle" H2 H3) as (_ & _ & H4 & H5).
  split; [exact H1|]. split; [exact H3|].
  split; [exact H4|]. rewrite H5. reflexivity.
Defined.
(** ** Category names *)

Section Categories.
Context {engine : RegexEngine}.

Lemma category_names_raise categories cat_nums e :
  category_names categories cat_nums = Raise e -> e = AttributeError.
Proof.
  induction cat_nums as [|c cat_nums IH]; cbn [category_names]; [discriminate|].
  destruct (default (VStr "") (dget (PyStr.str_of_Z c) categories));
    cbn [get_or]; try (by intros [= <-]).
  destruct (category_names categories cat_nums); [discriminate|].
  intros [= <-]. by apply IH.
Qed.

Lemma category_names_unknown categories cat_nums cat_num :
  cat_num ∈ cat_nums ->
  dget (PyStr.str_of_Z cat_num) categories = None ->
  category_names categories cat_nums = Raise AttributeError.
Proof.
  intros Hin Hnone. induction cat_nums as [|c cat_nums IH];
    [by apply elem_of_nil in Hin|].
  cbn [category_names]. apply elem_of_cons in Hin as [<-|Hin].
  - by rewrite Hnone.
  - rewrite (IH Hin).
    destruct (get_or _ "name" (VStr "")) as [v|e] eqn:E; [done|].
    destruct (default (VStr "") (dget (PyStr.str_of_Z c) categories));
      cbn [get_or] in E; congruence.
Qed.

(** C8, where the code departs from it. When one of the category ids of an
    entry has no entry in the category table, [get_categories] raises
    AttributeError: the empty string it takes for the missing category has
    no [get] method. It does not return the empty string for that id. *)
Theorem get_categories_unknown_id (categories : dict value) (apps : dict app)
    (app_name : string) (a : app) (cat_nums : list Z) (cat_num : Z) :
  dget app_name apps = Some a ->
  cats a = Some cat_nums ->
  cat_num ∈ cat_nums ->
  dget (PyStr.str_of_Z cat_num) categories = None ->
  get_categories categories apps app_name = Raise AttributeError.
Proof.
  intros Ha Hc Hin Hnone. unfold get_categories. rewrite Ha, Hc. cbn [default].
  by apply (category_names_unknown _ _ cat_num).
Qed.

(** What holds of C8: a name that is no entry has no categories. *)
Lemma get_categories_no_entry categories apps app_name :
  dget app_name apps = None -> get_categories categories apps app_name = Ok [].
Proof. intros H. unfold get_categories. by rewrite H. Qed.

(** What holds of C8: when every id is in the table, with a dictionary for
    its category, there is one name per id, the empty string standing for
    a category without a name. *)
Lemma get_categories_known categories apps app_name a cat_nums :
  dget app_name apps = Some a ->
  cats a = Some cat_nums ->
  Forall (fun c => exists d, dget (PyStr.str_of_Z c) categories = Some (VDict d))
         cat_nums ->
  get_categories categories apps app_name
  = Ok (map (fun c =>
               match dget (PyStr.str_of_Z c) categories with
               | Some (VDict d) => default (VStr "") (dget "name" d)
               | _ => VStr ""
               end) cat_nums).
Proof.
  intros Ha Hc Hall. unfold get_categories. rewrite Ha, Hc.
  cbn [default from_option id]. clear Ha Hc. induction cat_nums as [|c cs IH]; [done|].
  apply Forall_cons in Hall as [[d Hd] Hall].
  cbn [category_names map]. rewrite Hd. cbn [default from_option id get_or].
  by rewrite (IH Hall).
Qed.

End Categories.

(** One category, and an entry with that category and an unknown one. *)
Definition cms_categories `{RegexEngine} : dict value :=
  [("1", VDict [("name", VStr "CMS")])].

Definition two_cats_store : dict app :=
  [("X", App (Some [1; 2]) [] [] [] [] [] [] None None None None)].

Lemma get_categories_unknown_id_witness :
  dget "X" two_cats_store = Some (App (Some [1; 2]) [] [] [] [] [] [] None None None None)
  /\ dget (PyStr.str_of_Z 2) (cms_categories (H := mini_engine)) = None
  /\ get_categories (cms_categories (H := mini_engine)) two_cats_store "X"
     = Raise AttributeError.
Proof.
  split; [reflexivity|]. split; [reflexivity|].
  apply (get_categories_unknown_id cms_categories two_cats_store "X"
           (App (Some [1; 2]) [] [] [] [] [] [] None None None None) [1; 2] 2).
  - reflexivity.
  - reflexivity.
  - set_solver.
  - reflexivity.
Defined.
(** ** Results accumulate over the calls made on an instance *)




Section AccumulationClaim.
Context {engine : RegexEngine}.




End AccumulationClaim.

(** A library found by the address of its script, with its version. *)
Definition lib_store : dict app :=
  [("Lib",
    App (Some [59]) [] []
        [compiled (H := mini_engine) "lib-v([0-9.]+)\.js\;version:\1"]
        [] [] [] None None None None)].

Definition lib_page : WebPage.t :=
  WebPage.Build "http://x" "" (fun _ => None) ["/js/lib-v1.2.js"]
    (fun _ => None).


(** ** Versions are ordered by length *)

(** Shorter first. *)
Definition by_length (x y : string) : Prop :=
  (String.length x <= String.length y)%nat.

Section VersionOrder.
Context {engine : RegexEngine}.

Lemma cmp_lt_length x y :
  _cmp_to_key _sort_app_versions x y = true
  <-> (String.length x < String.length y)%nat.
Proof. unfold _cmp_to_key, _sort_app_versions. rewrite Z.ltb_lt. lia. Qed.

Lemma insert_sorted_by_length x l :
  StronglySorted by_length l ->
  StronglySorted by_length (insert_sorted (_cmp_to_key _sort_app_versions) x l).
Proof.
  induction 1 as [|y l Hl IH Hy]; cbn [insert_sorted].
  - repeat constructor.
  - destruct (_cmp_to_key _sort_app_versions x y) eqn:E.
    + apply cmp_lt_length in E. constructor; [by constructor|].
      constructor; [unfold by_length; lia|].
      eapply Forall_impl; [exact Hy|]. unfold by_length. intros z Hz. lia.
    + constructor; [done|].
      assert (~ (String.length x < String.length y)%nat) as Hxy.
      { intros Hlt. apply cmp_lt_length in Hlt. congruence. }
      rewrite insert_sorted_perm. constructor; [unfold by_length; lia|done].
Qed.

Lemma sorted_by_length l :
  StronglySorted by_length (sorted (_cmp_to_key _sort_app_versions) l).
Proof.
  unfold sorted.
  assert (forall acc, StronglySorted by_length acc ->
            StronglySorted by_length
              (fold_left (fun acc x =>
                 insert_sorted (_cmp_to_key _sort_app_versions) x acc) l acc))
    as H.
  { induction l as [|x l IH]; intros acc Hacc; [done|].
    cbn [fold_left]. by apply IH, insert_sorted_by_length. }
  apply H. constructor.
Qed.

Lemma _set_app_version_sorted a vs :
  versions (_set_app_version a) = Some vs -> StronglySorted by_length vs.
Proof.
  unfold _set_app_version. destruct (versions a) as [vs0|] eqn:E.
  - cbn. intros [= <-]. apply sorted_by_length.
  - by rewrite E.
Qed.

(** What a sequence that returned went through. *)
Lemma bind_returned {S A B} (m : M S A) (f : A -> M S B) s s' b :
  (m ≫= f) s = (s', Ok b) ->
  exists s1 a, m s = (s1, Ok a) /\ f a s1 = (s', Ok b).
Proof.
  unfold mbind, M_bind. destruct (m s) as [s1 [a|e]]; [eauto|discriminate].
Qed.

Lemma set_detected_app_sorts app_name app_type value key a p a' p' r :
  dhas "version" p = true ->
  _set_detected_app app_name app_type value key (a, p) = ((a', p'), Ok r) ->
  exists a0, a' = _set_app_version a0.
Proof.
  intros Hv H. unfold _set_detected_app in H.
  apply bind_returned in H as (s1 & [] & H1 & H).
  apply bind_returned in H as (s2 & [] & H2 & H).
  apply bind_returned in H as (s3 & st & H3 & H).
  apply bind_returned in H as (s4 & c & H4 & H).
  apply bind_returned in H as (s5 & [] & H5 & H).
  apply bind_returned in H as (s6 & s_ & H6 & H).
  apply bind_returned in H as (s7 & s_' & H7 & H).
  apply bind_returned in H as (s8 & [] & H8 & H).
  apply bind_returned in H as (s9 & [] & H9 & H).
  injection H as Hs _.
  injection H1 as <-. injection H2 as <-. injection H3 as <- <-.
  cbn [snd] in H9. rewrite Hv in H9.
  apply bind_returned in H9 as (t1 & regex_ & _ & H9).
  apply bind_returned in H9 as (t2 & allmatches & _ & H9).
  apply bind_returned in H9 as (t3 & version & _ & H9).
  apply bind_returned in H9 as (t4 & [] & _ & H9).
  injection H9 as H9. exists t4.1. rewrite <- H9 in Hs. by injection Hs as <- _.
Qed.

(** C6. After version resolution, that is after [_set_detected_app] ran for
    a pattern that carries a version template, the version list of the
    entry is sorted by ascending length: every version comes before the
    versions that are longer. The order is by length alone. *)
Theorem versions_sorted_by_length (app_name app_type value key : string)
    (a : app) (p : pattern) (a' : app) (p' : pattern) (r : string)
    (vs : list string) :
  dhas "version" p = true ->
  _set_detected_app app_name app_type value key (a, p) = ((a', p'), Ok r) ->
  versions a' = Some vs ->
  StronglySorted by_length vs.
Proof.
  intros Hv H Hvs.
  destruct (set_detected_app_sorts _ _ _ _ _ _ _ _ _ Hv H) as [a0 ->].
  by apply _set_app_version_sorted in Hvs.
Qed.

End VersionOrder.

(** The versions 1.2.3 and 1.2 are found in this order, and listed with
    1.2 first. *)
Definition two_versions_pattern : pattern :=
  compiled (H := mini_engine) "v([0-9.]+)\;version:\1".

Definition two_versions_run : (app * pattern) * result string :=
  _set_detected_app "Lib" "html" "v1.2.3 or v1.2 " ""
    (entry_implying [], two_versions_pattern).

Lemma versions_sorted_by_length_witness :
  dhas "version" two_versions_pattern = true
  /\ two_versions_run.2 = Ok "Lib"
  /\ versions two_versions_run.1.1 = Some ["1.2"; "1.2.3"]
  /\ StronglySorted by_length ["1.2"; "1.2.3"].
Proof.
  assert (dhas "version" two_versions_pattern = true) as H1
    by (vm_compute; reflexivity).
  assert (two_versions_run.2 = Ok "Lib") as H2 by (vm_compute; reflexivity).
  assert (versions two_versions_run.1.1 = Some ["1.2"; "1.2.3"]) as H3
    by (vm_compute; reflexivity).
  split; [exact H1|]. split; [exact H2|]. split; [exact H3|].
  apply (versions_sorted_by_length "Lib" "html" "v1.2.3 or v1.2 " ""
           (entry_implying []) two_versions_pattern
           two_versions_run.1.1 two_versions_run.1.2 "Lib" _ H1).
  - change (two_versions_run
            = (two_versions_run.1.1, two_versions_run.1.2, Ok "Lib")).
    rewrite <- H2. by destruct two_versions_run as [[? ?] ?].
  - exact H3.
Defined.

(** The order is not the order of versions: 10 comes before 9.5. *)
Example length_order_is_not_version_order :
  sorted (_cmp_to_key _sort_app_versions) ["9.5"; "10"] = ["10"; "9.5"].
Proof. reflexivity. Qed.
(** ** Strings *)

Section StringFacts.

Lemma str_app_cons (x : ascii) (a b : string) :
  String x a +:+ b = String x (a +:+ b).
Proof. reflexivity. Qed.

Lemma str_app_nil_l (a : string) : "" +:+ a = a.
Proof. reflexivity. Qed.

Lemma str_app_assoc (a b c : string) : (a +:+ b) +:+ c = a +:+ (b +:+ c).
Proof.
  induction a as [|x a IH]; [done|]. rewrite !str_app_cons. by f_equal.
Qed.

Lemma str_app_nil_r (a : string) : a +:+ "" = a.
Proof. induction a as [|x a IH]; [done|]. rewrite str_app_cons. by f_equal. Qed.

Lemma str_length_app (a b : string) :
  String.length (a +:+ b) = (String.length a + String.length b)%nat.
Proof.
  induction a as [|x a IH]; [done|]. rewrite str_app_cons. simpl. by f_equal.
Qed.

Lemma prefix_app (a b : string) : String.prefix a (a +:+ b) = true.
Proof.
  induction a as [|x a IH]; [by destruct b|]. rewrite str_app_cons.
  cbn [String.prefix]. destruct (ascii_dec x x); [exact IH|congruence].
Qed.

Lemma prefix_other_head (x y : ascii) (a b : string) :
  x <> y -> String.prefix (String x a) (String y b) = false.
Proof. intros H. simpl. by destruct (ascii_dec x y). Qed.

(** [c in s] *)
Fixpoint has_char (c : ascii) (s : string) : bool :=
  match s with
  | EmptyString => false
  | String x s' => Ascii.eqb x c || has_char c s'
  end.

Lemma replace_from_skip old new (s : string) :
  PyStr.replace_from old new (String.length s) s = "".
Proof. induction s as [|x s IH]; simpl; [done|exact IH]. Qed.

(** The one occurrence of [old] in [pre +:+ old], when [old] begins with a
    character that is not in [pre], is replaced. *)
Lemma replace_suffix (x : ascii) (old' new pre : string) :
  has_char x pre = false ->
  PyStr.replace (pre +:+ String x old') (String x old') new = pre +:+ new.
Proof.
  intros Hpre. unfold PyStr.replace.
  induction pre as [|y pre IH].
  - rewrite str_app_nil_l. cbn [PyStr.replace_from].
    rewrite <- (str_app_nil_r (String x old')) at 2.
    rewrite (prefix_app (String x old') "").
    cbn [String.length Nat.sub]. rewrite Nat.sub_0_r.
    by rewrite replace_from_skip, !str_app_nil_r.
  - cbn [has_char] in Hpre. apply orb_false_iff in Hpre as [Hy Hpre].
    apply Ascii.eqb_neq in Hy.
    rewrite str_app_cons. cbn [PyStr.replace_from].
    rewrite prefix_other_head by congruence. by rewrite (IH Hpre).
Qed.




End StringFacts.

(** ** The ternary operator of a version template *)


Section Ternary.
Context {engine : RegexEngine}.

Lemma backref_head index :
  backref index = String "\"%char (PyStr.str_of_nat (index + 1)).
Proof. reflexivity. Qed.












End Ternary.



(** The pattern that [_set_detected_app] builds for group 1, given to the
    engine, finds what [ternary_search] finds. *)
Example ternary_search_agrees :
  ternary_search 0 "\1?Pro:Free" = Some (Ternary "\1?Pro:Free" "Pro" "Free")
  /\ ternary_search 0 "\1?:Free" = None
  /\ match re_compile (RegexEngine := mini_engine) true
             "\\1\?([^:]+):(.*)$" with
     | Matcher r =>
         re_findall r "\1?Pro:Free" = [FTuple ["Pro"; "Free"]]
         /\ re_findall r "\1?:Free" = []
     | _ => False
     end.
Proof. repeat split; vm_compute; reflexivity. Qed.
(** ** Every occurrence yields a version *)

Section Occurrences.
Context {engine : RegexEngine}.

(** The versions of the occurrences [allmatches], added in order. *)
Definition with_versions (template : string) (allmatches : list found)
    (a : app) : app :=
  fold_left (fun a matches =>
               add_version (resolve_groups 0 (as_groups matches) template) a)
    allmatches a.

Lemma detect_versions_exact template allmatches a p :
  detect_versions (VStr template) allmatches (a, p)
  = ((with_versions template allmatches a, p), Ok tt).
Proof.
  unfold detect_versions, with_versions.
  revert a. induction allmatches as [|m ms IH]; intros a; [done|].
  cbn [for_each fold_left]. unfold mbind, M_bind, on_app, modify at 1.
  cbn [fst snd]. apply IH.
Qed.

Lemma elem_of_add_version v x a :
  v ∈ default [] (versions (add_version x a))
  <-> v ∈ default [] (versions a) \/ (v <> "" /\ v = x).
Proof.
  unfold add_version. destruct (String.eqb x "") eqn:E.
  - apply String.eqb_eq in E. subst x. naive_solver.
  - apply String.eqb_neq in E. destruct (versions a) as [vs|] eqn:Hvs.
    + destruct (bool_decide (x ∈ vs)) eqn:Hin.
      * apply bool_decide_eq_true in Hin. rewrite Hvs. cbn. naive_solver.
      * cbn. rewrite elem_of_app, list_elem_of_singleton. naive_solver.
    + cbn. rewrite list_elem_of_singleton, elem_of_nil. naive_solver.
Qed.

Lemma elem_of_with_versions v template allmatches a :
  v ∈ default [] (versions (with_versions template allmatches a))
  <-> v ∈ default [] (versions a)
      \/ (v <> "" /\ exists m, m ∈ allmatches
                               /\ v = resolve_groups 0 (as_groups m) template).
Proof.
  unfold with_versions. revert a.
  induction allmatches as [|m ms IH]; intros a; cbn [fold_left].
  - split; [auto|]. intros [H|(_ & m & Hm & _)]; [done|].
    by apply elem_of_nil in Hm.
  - rewrite IH, elem_of_add_version. split.
    + intros [[H|[Hne ->]]|(Hne & m' & Hm' & ->)]; [by left| |].
      * right. split; [done|]. exists m. split; [left|done].
      * right. split; [done|]. exists m'. split; [by right|done].
    + intros [H|(Hne & m' & Hm' & ->)]; [by left; left|].
      apply elem_of_cons in Hm' as [->|Hm']; [left; right; done|].
      right. eauto.
Qed.

Lemma elem_of_set_app_version v a :
  v ∈ default [] (versions (_set_app_version a)) <-> v ∈ default [] (versions a).
Proof.
  unfold _set_app_version. destruct (versions a) as [vs|] eqn:E.
  - cbn. apply elem_of_sorted.
  - by rewrite E.
Qed.

(** The entry [_set_detected_app] leaves, as far as versions go. *)
Lemma set_detected_app_versions app_name app_type value key a p r template :
  pattern_ok p = true ->
  regex_of p = Some r ->
  dget "version" p = Some (VStr template) ->
  exists a0,
    versions a0 = versions a
    /\ (_set_detected_app app_name app_type value key (a, p)).1.1
       = _set_app_version (with_versions template (re_findall r value) a0).
Proof.
  intros Hok Hr Hv.
  destruct (set_detected_app_effect app_name app_type value key a p Hok)
    as [vs H].
  rewrite H. cbn [fst]. unfold _set_detected_app in H.
  apply bind_returned in H as (s1 & [] & H1 & H).
  apply bind_returned in H as (s2 & [] & H2 & H).
  apply bind_returned in H as (s3 & st & H3 & H).
  apply bind_returned in H as (s4 & c & H4 & H).
  apply bind_returned in H as (s5 & [] & H5 & H).
  apply bind_returned in H as (s6 & s_ & H6 & H).
  apply bind_returned in H as (s7 & s_' & H7 & H).
  apply bind_returned in H as (s8 & [] & H8 & H).
  apply bind_returned in H as (s9 & [] & H9 & H).
  injection H as Hs.
  injection H1 as <-. injection H2 as <-. injection H3 as <- <-.
  cbn [snd] in H9. unfold dhas in H9. rewrite Hv in H9.
  apply bind_returned in H9 as (t1 & regex_ & Hre & H9).
  apply bind_returned in H9 as (t2 & allmatches & Hall & H9).
  apply bind_returned in H9 as (t3 & version & Hver & H9).
  apply bind_returned in H9 as (t4 & [] & Hdet & H9).
  injection H9 as H9.
  assert (s4.2 = p /\ versions s4.1 = versions a) as [Hp4 Hv4].
  { cbn [snd] in H4. destruct (dget "confidence" p).
    - unfold lift in H4. injection H4 as <- _. cbn. by destruct (confidence a).
    - injection H4 as <- _. cbn. by destruct (confidence a). }
  injection H5 as <-. unfold attr in H6. injection H6 as <- _.
  unfold lift in H7. injection H7 as <- _. injection H8 as <-.
  unfold attr in Hre. cbn [fst snd] in Hre. injection Hre as <- Hre.
  rewrite Hp4 in Hre.
  rewrite (dget_dset_ne "confidence" "regex") in Hre by congruence.
  rewrite (regex_of_Some _ _ Hr) in Hre. injection Hre as <-.
  unfold lift in Hall. cbn [findall_value] in Hall. injection Hall as <- <-.
  unfold attr in Hver. cbn [fst snd] in Hver. injection Hver as <- Hver.
  rewrite Hp4 in Hver.
  rewrite (dget_dset_ne "confidence" "version") in Hver by congruence.
  rewrite Hv in Hver. injection Hver as <-.
  rewrite detect_versions_exact in Hdet. injection Hdet as <-.
  cbn [fst snd] in H9. rewrite <- H9 in Hs. injection Hs as Hs _.
  eexists. split; [|symmetry; exact Hs]. cbn. exact Hv4.
Qed.

(** C4, as the code has it. When a pattern with a version template fires,
    every occurrence of its regex in the matched value is resolved, not
    only the first: the version list afterwards holds exactly the versions
    it held before and, for each element [re.findall] returns, the
    template resolved with the groups of that element when the result is
    not empty; an element that is a bare string counts as its one group. *)
Theorem every_occurrence_is_resolved (app_name app_type value key : string)
    (a : app) (p : pattern) (r : regex) (template : string) (v : string) :
  pattern_ok p = true ->
  regex_of p = Some r ->
  dget "version" p = Some (VStr template) ->
  v ∈ default []
        (versions (_set_detected_app app_name app_type value key (a, p)).1.1)
  <-> v ∈ default [] (versions a)
      \/ (v <> ""
          /\ exists m, m ∈ re_findall r value
                       /\ v = resolve_groups 0 (as_groups m) template).
Proof.
  intros Hok Hr Hv.
  destruct (set_detected_app_versions app_name app_type value key a p r
              template Hok Hr Hv) as (a0 & Ha0 & ->).
  by rewrite elem_of_set_app_version, elem_of_with_versions, Ha0.
Qed.

End Occurrences.

(** The script address of the specification, and the pattern with the
    template [\1]. *)
Definition script_pattern : pattern :=
  compiled (H := mini_engine) "v([0-9.]+)\;version:\1".

Definition script_run : (app * pattern) * result string :=
  _set_detected_app "Lib" "script" "script-v2.3.1.js" ""
    (entry_implying [], script_pattern).

(** The class [[0-9.]] holds the dot, and [+] is greedy: the group runs up
    to the dot before [js], and the version is 2.3.1. with that dot, not
    2.3.1 *)
Lemma script_version_keeps_the_dot :
  script_run.2 = Ok "Lib"
  /\ re_findall (default re_never (regex_of script_pattern)) "script-v2.3.1.js"
     = [FStr "2.3.1."]
  /\ versions script_run.1.1 = Some ["2.3.1."]
  /\ versions script_run.1.1 <> Some ["2.3.1"].
Proof.
  assert (versions script_run.1.1 = Some ["2.3.1."]) as H
    by (vm_compute; reflexivity).
  split; [vm_compute; reflexivity|]. split; [vm_compute; reflexivity|].
  split; [exact H|]. rewrite H. discriminate.
Qed.

Lemma every_occurrence_is_resolved_witness :
  pattern_ok script_pattern = true
  /\ dget "version" script_pattern = Some (VStr "\1")
  /\ ("2.3.1." ∈ default [] (versions script_run.1.1)
      <-> "2.3.1." ∈ default [] (versions (entry_implying []))
          \/ ("2.3.1." <> ""
              /\ exists m,
                   m ∈ re_findall (default re_never (regex_of script_pattern))
                         "script-v2.3.1.js"
                   /\ "2.3.1." = resolve_groups 0 (as_groups m) "\1")).
Proof.
  assert (pattern_ok script_pattern = true) as H1 by (vm_compute; reflexivity).
  assert (regex_of script_pattern
          = Some (default re_never (regex_of script_pattern))) as H2
    by (vm_compute; reflexivity).
  assert (dget "version" script_pattern = Some (VStr "\1")) as H3
    by reflexivity.
  split; [exact H1|]. split; [exact H3|].
  exact (every_occurrence_is_resolved "Lib" "script" "script-v2.3.1.js" ""
           (entry_implying []) script_pattern _ "\1" "2.3.1." H1 H2 H3).
Defined.
(** ** Normalization *)

Section DictMore.
Context {V : Type}.
Implicit Types (d : dict V) (k : string) (v : V).

Lemma dset_same k v d : dget k d = Some v -> dset k v d = d.
Proof.
  induction d as [|[k' v'] d IH]; simpl; [discriminate|].
  destruct (String.eqb k k') eqn:E.
  - by intros [= ->].
  - intros H. by rewrite IH.
Qed.

Lemma dget_None_keys k d : dget k d = None <-> k ∉ keys d.
Proof.
  induction d as [|[k' v'] d IH]; simpl.
  - split; [intros _; apply not_elem_of_nil|done].
  - rewrite not_elem_of_cons. destruct (String.eqb k k') eqn:E.
    + apply String.eqb_eq in E. naive_solver.
    + apply String.eqb_neq in E. naive_solver.
Qed.

Lemma dset_fresh k v d : k ∉ keys d -> dset k v d = (d ++ [(k, v)])%list.
Proof.
  induction d as [|[k' v'] d IH]; simpl; [done|].
  rewrite not_elem_of_cons. intros [Hne Hk].
  destruct (String.eqb k k') eqn:E.
  - apply String.eqb_eq in E. congruence.
  - by rewrite IH.
Qed.

Lemma keys_dset k v d :
  keys (dset k v d) = if dhas k d then keys d else (keys d ++ [k])%list.
Proof.
  unfold dhas. destruct (dget k d) as [x|] eqn:E.
  - apply keys_dset_present. eauto.
  - apply dget_None_keys in E. rewrite dset_fresh by done.
    unfold keys. by rewrite map_app.
Qed.

Lemma dget_first k v d : dget k ((k, v) :: d) = Some v.
Proof. simpl. by rewrite String.eqb_refl. Qed.

Lemma dget_elem_NoDup k v d : NoDup (keys d) -> (k, v) ∈ d -> dget k d = Some v.
Proof.
  induction d as [|[k' v'] d IH]; simpl; [by intros _ ?%elem_of_nil|].
  intros Hnd Hin. apply NoDup_cons in Hnd as [Hk' Hnd].
  apply elem_of_cons in Hin as [[= -> ->]|Hin].
  - by rewrite String.eqb_refl.
  - destruct (String.eqb k k') eqn:E; [|by apply IH].
    apply String.eqb_eq in E. subst k'. exfalso. apply Hk'.
    apply list_elem_of_fmap. by exists (k, v).
Qed.

End DictMore.

Section LowerCase.

Lemma lower_char_idem c : PyStr.lower_char (PyStr.lower_char c) = PyStr.lower_char c.
Proof. by destruct c as [[] [] [] [] [] [] [] []]. Qed.

Lemma lower_idem s : PyStr.lower (PyStr.lower s) = PyStr.lower s.
Proof.
  induction s as [|c s IH]; simpl; [done|]. by rewrite lower_char_idem, IH.
Qed.

End LowerCase.

Section Normalization.
Context {engine : RegexEngine}.

(** The keys of a dictionary that [lower_keys] built: they are distinct
    and in lower case. *)
Definition lowered (d : dict value) : Prop :=
  NoDup (keys d) /\ Forall (fun k => PyStr.lower k = k) (keys d).

Lemma lowered_dset k v d :
  PyStr.lower k = k -> lowered d -> lowered (dset k v d).
Proof.
  intros Hk [Hnd Hlow]. unfold lowered. rewrite keys_dset. unfold dhas.
  destruct (dget k d) eqn:E; [done|]. apply dget_None_keys in E. split.
  - apply NoDup_app. split; [done|]. split; [|apply NoDup_singleton].
    intros x Hx ->%list_elem_of_singleton. done.
  - apply Forall_app. split; [done|]. by constructor.
Qed.

Lemma lowered_lower_keys d : lowered (lower_keys d).
Proof.
  unfold lower_keys.
  assert (forall acc, lowered acc ->
            lowered (fold_left (fun acc kv =>
                       dset (PyStr.lower kv.1) kv.2 acc) d acc)) as H.
  { induction d as [|[k v] d IH]; intros acc Hacc; [done|].
    cbn [fold_left]. apply IH, lowered_dset; [apply lower_idem|done]. }
  apply H. split; [constructor|constructor].
Qed.

Lemma lower_keys_id d : lowered d -> lower_keys d = d.
Proof.
  unfold lower_keys.
  assert (forall acc, lowered (acc ++ d)%list ->
            fold_left (fun acc kv => dset (PyStr.lower kv.1) kv.2 acc) d acc
            = (acc ++ d)%list) as H.
  { induction d as [|[k v] d IH]; intros acc Hacc; cbn [fold_left].
    - by rewrite app_nil_r.
    - destruct Hacc as [Hnd Hlow]. unfold keys in Hnd, Hlow.
      rewrite map_app in Hnd, Hlow. cbn [map fst] in Hnd, Hlow.
      apply Forall_app in Hlow as Hlow'. destruct Hlow' as [_ Hk].
      apply Forall_cons in Hk as [Hk _]. cbn [fst snd]. rewrite Hk.
      apply NoDup_app in Hnd as Hnd'. destruct Hnd' as (_ & Hdisj & _).
      rewrite dset_fresh.
      + rewrite IH; [by rewrite <- app_assoc|].
        split; unfold keys; rewrite <- app_assoc; rewrite map_app;
          cbn [map fst List.app]; done.
      + intros Hin. apply (Hdisj k Hin). left. }
  intros Hd. by apply (H []).
Qed.

End Normalization.

Section PrepareTwice.
Context {engine : RegexEngine}.
Implicit Types (e s : dict value).

Lemma bind_ok {S A B} (m : M S A) (f : A -> M S B) (s s' : S) a :
  m s = (s', Ok a) -> (m ≫= f) s = f a s'.
Proof. intros H. unfold mbind, M_bind. by rewrite H. Qed.

Lemma bind_raise {S A B} (m : M S A) (f : A -> M S B) (s s' : S) x :
  m s = (s', Raise x) -> (m ≫= f) s = (s', Raise x).
Proof. intros H. unfold mbind, M_bind. by rewrite H. Qed.

(** *** Each step changes the key it is about, and that key only *)

Definition same_elsewhere (key : string) (s s' : dict value) : Prop :=
  forall k, k <> key -> dget k s' = dget k s.

Lemma same_elsewhere_refl key s : same_elsewhere key s s.
Proof. by intros k _. Qed.

Lemma same_elsewhere_dset key v s : same_elsewhere key s (dset key v s).
Proof. intros k Hk. apply dget_dset_ne. congruence. Qed.

Lemma ensure_list_frame key s : same_elsewhere key s (ensure_list key s).1.
Proof.
  unfold ensure_list, mbind, M_bind, get, set_item, modify. cbn [fst].
  destruct (dget key s) as [v|]; [|apply same_elsewhere_dset].
  destruct (negb (is_list v)); [apply same_elsewhere_dset|].
  apply same_elsewhere_refl.
Qed.

Lemma ensure_key_frame key s : same_elsewhere key s (ensure_key key s).1.
Proof.
  unfold ensure_key, mbind, M_bind, get, set_item, modify. cbn [fst].
  destruct (dget key s) as [v|]; [apply same_elsewhere_refl|].
  apply same_elsewhere_dset.
Qed.

Lemma ensure_meta_dict_frame s : same_elsewhere "meta" s (ensure_meta_dict s).1.
Proof.
  unfold ensure_meta_dict, mbind, M_bind, item, set_item, modify. cbn [fst].
  destruct (dget "meta" s) as [v|]; [|apply same_elsewhere_refl].
  cbn [of_option]. destruct (negb (is_dict v)); [apply same_elsewhere_dset|].
  apply same_elsewhere_refl.
Qed.

Lemma lower_key_names_frame key s :
  same_elsewhere key s (lower_key_names key s).1.
Proof.
  unfold lower_key_names, mbind, M_bind, item, lift, set_item, modify.
  cbn [fst]. destruct (dget key s) as [v|]; [|apply same_elsewhere_refl].
  cbn [of_option]. destruct (items v); [apply same_elsewhere_dset|].
  apply same_elsewhere_refl.
Qed.

Lemma prepare_patterns_frame key s :
  same_elsewhere key s (prepare_patterns key s).1.
Proof.
  unfold prepare_patterns, mbind, M_bind, item, lift, set_item, modify, raise.
  cbn [fst]. destruct (dget key s) as [v|]; [|apply same_elsewhere_refl].
  cbn [of_option]. destruct v; try apply same_elsewhere_refl.
  unfold mbind, M_bind. destruct (prepare_list l); [apply same_elsewhere_dset|].
  apply same_elsewhere_refl.
Qed.

Lemma prepare_fields_frame key s :
  same_elsewhere key s (prepare_fields key s).1.
Proof.
  unfold prepare_fields, mbind, M_bind, item, lift, in_place.
  cbn [fst]. destruct (dget key s) as [v|]; [|apply same_elsewhere_refl].
  cbn [of_option]. destruct (items v) as [d|]; [|apply same_elsewhere_refl].
  destruct (prepare_values (keys d) d) as [d' r]. apply same_elsewhere_dset.
Qed.

(** *** What each step establishes when it returns *)

Lemma ensure_list_post key s s' :
  ensure_list key s = (s', Ok tt) -> exists l, dget key s' = Some (VList l).
Proof.
  unfold ensure_list, mbind, M_bind, get, set_item, modify.
  destruct (dget key s) as [v|] eqn:E.
  - destruct v; cbn [is_list negb]; intros [= <-];
      rewrite ?dget_dset_eq; eauto.
  - intros [= <-]. rewrite dget_dset_eq. eauto.
Qed.

Lemma lower_key_names_post key s s' :
  lower_key_names key s = (s', Ok tt) ->
  exists d, dget key s' = Some (VDict d) /\ lowered d.
Proof.
  unfold lower_key_names, mbind, M_bind, item, lift, set_item, modify.
  destruct (dget key s) as [v|]; [|discriminate]. cbn [of_option].
  destruct (items v) as [d|]; [|discriminate]. intros [= <-].
  rewrite dget_dset_eq. eauto using lowered_lower_keys.
Qed.

Lemma prepare_list_dicts l r :
  prepare_list l = Ok r -> Forall (fun v => is_dict v = true) r.
Proof.
  revert r. induction l as [|p l IH]; intros r; cbn [prepare_list].
  - intros [= <-]. constructor.
  - destruct (_prepare_pattern p); [|discriminate].
    destruct (prepare_list l) as [r'|]; [|discriminate].
    intros [= <-]. constructor; [done|]. by apply IH.
Qed.

Lemma prepare_patterns_post key s s' :
  prepare_patterns key s = (s', Ok tt) ->
  exists l, dget key s' = Some (VList l) /\ Forall (fun v => is_dict v = true) l.
Proof.
  unfold prepare_patterns, mbind, M_bind, item, lift, set_item, modify, raise.
  destruct (dget key s) as [v|]; [|discriminate]. cbn [of_option].
  destruct v; try discriminate. unfold mbind, M_bind.
  destruct (prepare_list l) as [r|] eqn:E; [|discriminate]. intros [= <-].
  rewrite dget_dset_eq. eauto using prepare_list_dicts.
Qed.

Lemma prepare_values_post names d d' :
  NoDup names ->
  prepare_values names d = (d', Ok tt) ->
  keys d' = keys d
  /\ (forall k, k ∈ names -> exists a, dget k d' = Some (VDict a))
  /\ (forall k, k ∉ names -> dget k d' = dget k d).
Proof.
  unfold prepare_values. revert d.
  induction names as [|name names IH]; intros d Hnd; cbn [for_each].
  - intros [= <-]. split; [done|]. split; [|done].
    by intros k ?%elem_of_nil.
  - apply NoDup_cons in Hnd as [Hname Hnd]. intros H.
    apply bind_returned in H as (d1 & [] & H1 & H).
    apply bind_returned in H1 as (d0 & v & Hv & H1).
    apply bind_returned in H1 as (d0' & attrs & Ha & H1).
    unfold item in Hv. injection Hv as <- Hv.
    unfold lift in Ha. injection Ha as <- Ha.
    unfold set_item, modify in H1. injection H1 as <-.
    destruct (dget name d) as [v0|] eqn:E; [|discriminate].
    destruct (IH _ Hnd H) as (Hk & Hin & Hout). split; [|split].
    + rewrite Hk. apply keys_dset_present. eauto.
    + intros k [->|Hk']%elem_of_cons; [|by apply Hin].
      rewrite (Hout _ Hname), dget_dset_eq. eauto.
    + intros k [Hne Hk']%not_elem_of_cons. rewrite (Hout _ Hk').
      apply dget_dset_ne. congruence.
Qed.

Lemma prepare_fields_post key s s' d :
  dget key s = Some (VDict d) -> lowered d ->
  prepare_fields key s = (s', Ok tt) ->
  exists d', dget key s' = Some (VDict d') /\ lowered d'
             /\ Forall (fun kv => is_dict kv.2 = true) d'.
Proof.
  intros Hd [Hnd Hlow]. unfold prepare_fields, mbind, M_bind, item, lift, in_place.
  rewrite Hd. cbn [of_option items].
  destruct (prepare_values (keys d) d) as [d' [[]|]] eqn:E; [|discriminate].
  intros [= <-]. exists d'. rewrite dget_dset_eq.
  destruct (prepare_values_post _ _ _ Hnd E) as (Hk & Hin & _).
  split; [done|]. split; [unfold lowered; by rewrite Hk|].
  apply Forall_forall. intros [k v] Hkv.
  assert (k ∈ keys d) as Hkd.
  { rewrite <- Hk. apply list_elem_of_fmap. by exists (k, v). }
  destruct (Hin k Hkd) as [a Ha].
  rewrite (dget_elem_NoDup k v d') in Ha; [|by rewrite Hk|done].
  by injection Ha as ->.
Qed.

(** *** The shape [_prepare_app] leaves *)

(** An entry as [_prepare_app] leaves it: [url], [html] and [script] are
    lists of prepared patterns, [implies] is a list, [headers] and [meta]
    are dictionaries of prepared patterns under distinct lower-case
    names. *)
Definition patterns_at (key : string) (e : dict value) : Prop :=
  exists l, dget key e = Some (VList l) /\ Forall (fun v => is_dict v = true) l.

Definition fields_at (key : string) (e : dict value) : Prop :=
  exists d, dget key e = Some (VDict d) /\ lowered d
            /\ Forall (fun kv : string * value => is_dict kv.2 = true) d.

Record normalized (e : dict value) : Prop := Normalized {
  n_url : patterns_at "url" e;
  n_html : patterns_at "html" e;
  n_script : patterns_at "script" e;
  n_implies : exists l, dget "implies" e = Some (VList l);
  n_headers : fields_at "headers" e;
  n_meta : fields_at "meta" e
}.

Ltac step_of H s Hs :=
  apply bind_returned in H as (s & [] & Hs & H).

Ltac frame_of lem Hs Hf :=
  match type of Hs with
  | _ ?key ?s = _ => pose proof (lem key s) as Hf; rewrite Hs in Hf; cbn [fst] in Hf
  end.

Ltac chase :=
  repeat match goal with
         | H : same_elsewhere ?k ?s ?s' |- context [dget ?k' ?s'] =>
             rewrite (H k') by discriminate
         end.

Lemma prepare_app_normalized raw e :
  _prepare_app raw = (e, Ok tt) -> normalized e.
Proof.
  unfold _prepare_app. intros H.
  apply bind_returned in H as (a4 & [] & HA & H).
  apply bind_returned in H as (b2 & [] & HB & H).
  apply bind_returned in H as (c & [] & HC & H).
  apply bind_returned in H as (d2 & [] & HD & H).
  apply bind_returned in H as (e3 & [] & HE & H).
  cbn [for_each] in HA, HB, HD, HE, H.
  step_of HA a1 Ha1. step_of HA a2 Ha2. step_of HA a3 Ha3. step_of HA a4' Ha4.
  injection HA as ->.
  step_of HB b1 Hb1. step_of HB b2' Hb2. injection HB as ->.
  step_of HD d1 Hd1. step_of HD d2' Hd2. injection HD as ->.
  step_of HE e1 He1. step_of HE e2 He2. step_of HE e3' He3. injection HE as ->.
  step_of H f1 Hf1. step_of H f2 Hf2. injection H as ->.
  frame_of ensure_key_frame Hb1 Fb1. frame_of ensure_key_frame Hb2 Fb2.
  pose proof (ensure_meta_dict_frame b2) as Fc. rewrite HC in Fc. cbn [fst] in Fc.
  frame_of lower_key_names_frame Hd1 Fd1. frame_of lower_key_names_frame Hd2 Fd2.
  frame_of prepare_patterns_frame He1 Fe1.
  frame_of prepare_patterns_frame He2 Fe2.
  frame_of prepare_patterns_frame He3 Fe3.
  frame_of prepare_fields_frame Hf1 Ff1. frame_of prepare_fields_frame Hf2 Ff2.
  apply ensure_list_post in Ha4 as [li Hli].
  apply lower_key_names_post in Hd1 as (dh & Hdh & Hlh).
  apply lower_key_names_post in Hd2 as (dm & Hdm & Hlm).
  apply prepare_patterns_post in He1 as (l1 & Hl1 & Hp1).
  apply prepare_patterns_post in He2 as (l2 & Hl2 & Hp2).
  apply prepare_patterns_post in He3 as (l3 & Hl3 & Hp3).
  assert (dget "headers" e3 = Some (VDict dh)) as Hh3 by (chase; done).
  destruct (prepare_fields_post _ _ _ _ Hh3 Hlh Hf1) as (dh' & Hdh' & Hlh' & Hph).
  assert (dget "meta" f1 = Some (VDict dm)) as Hm3 by (chase; done).
  destruct (prepare_fields_post _ _ _ _ Hm3 Hlm Hf2) as (dm' & Hdm' & Hlm' & Hpm).
  split.
  - exists l1. split; [chase; done|done].
  - exists l2. split; [chase; done|done].
  - exists l3. split; [chase; done|done].
  - exists li. chase. done.
  - exists dh'. split; [chase; done|done].
  - exists dm'. done.
Qed.

(** *** The steps, run on an entry that is already normalized *)

Lemma ensure_list_again key e l :
  dget key e = Some (VList l) -> ensure_list key e = (e, Ok tt).
Proof.
  intros H. unfold ensure_list, mbind, M_bind, get. by rewrite H.
Qed.

Lemma ensure_key_again key e v :
  dget key e = Some v -> ensure_key key e = (e, Ok tt).
Proof.
  intros H. unfold ensure_key, mbind, M_bind, get. by rewrite H.
Qed.

Lemma ensure_meta_dict_again e d :
  dget "meta" e = Some (VDict d) -> ensure_meta_dict e = (e, Ok tt).
Proof.
  intros H. unfold ensure_meta_dict, mbind, M_bind, item. by rewrite H.
Qed.

Lemma lower_key_names_again key e d :
  dget key e = Some (VDict d) -> lowered d ->
  lower_key_names key e = (e, Ok tt).
Proof.
  intros H Hl. unfold lower_key_names, mbind, M_bind, item, lift, set_item,
    modify. rewrite H. cbn [of_option items].
  by rewrite (lower_keys_id _ Hl), (dset_same _ _ _ H).
Qed.

(** A prepared pattern is a dictionary, and has no [split]. *)
Lemma prepare_pattern_of_dict v :
  is_dict v = true -> _prepare_pattern v = Raise AttributeError.
Proof. by destruct v. Qed.

Lemma prepare_patterns_again key e l :
  dget key e = Some (VList l) ->
  Forall (fun v => is_dict v = true) l ->
  prepare_patterns key e
  = (e, match l with [] => Ok tt | _ => Raise AttributeError end).
Proof.
  intros H Hl. unfold prepare_patterns, mbind, M_bind, item. rewrite H.
  cbn [of_option]. unfold mbind, M_bind, lift, set_item, modify.
  destruct Hl as [|v l Hv Hl]; cbn [prepare_list].
  - by rewrite (dset_same _ _ _ H).
  - by rewrite (prepare_pattern_of_dict _ Hv).
Qed.

Lemma prepare_fields_again key e d :
  dget key e = Some (VDict d) ->
  Forall (fun kv : string * value => is_dict kv.2 = true) d ->
  prepare_fields key e
  = (e, match d with [] => Ok tt | _ => Raise AttributeError end).
Proof.
  intros H Hd. unfold prepare_fields, mbind, M_bind, item, lift, in_place.
  rewrite H. cbn [of_option items].
  destruct Hd as [|[k v] d Hv Hd].
  - cbn. by rewrite (dset_same _ _ _ H).
  - unfold prepare_values. cbn [keys map fst for_each].
    unfold mbind, M_bind, item, lift. rewrite dget_first. cbn [of_option].
    cbn [snd] in Hv. rewrite (prepare_pattern_of_dict _ Hv).
    by rewrite (dset_same _ _ _ H).
Qed.

(** Whether a facet of the entry holds a pattern. *)
Definition facet_empty (key : string) (e : dict value) : bool :=
  match dget key e with
  | Some (VList []) | Some (VDict []) => true
  | _ => false
  end.

Definition has_pattern (e : dict value) : bool :=
  negb (forallb (fun key => facet_empty key e)
          ["url"; "html"; "script"; "headers"; "meta"]).

(** C7, as the code has it. Normalizing an entry that [_prepare_app] has
    normalized leaves the entry as it is; it returns when the entry has no
    pattern in any facet, and raises AttributeError when it has one: a
    prepared pattern is a dictionary, which [_prepare_pattern] cannot
    split. *)
Theorem prepare_app_twice (raw e : dict value) :
  _prepare_app raw = (e, Ok tt) ->
  _prepare_app e
  = (e, if has_pattern e then Raise AttributeError else Ok tt).
Proof.
  intros H. apply prepare_app_normalized in H.
  destruct H as [(lu & Hu & Hpu) (lh & Hh & Hph) (ls & Hs & Hps) (li & Hi)
                   (dh & Hdh & Hlh & Hfh) (dm & Hdm & Hlm & Hfm)].
  unfold _prepare_app. cbn [for_each].
  rewrite (bind_ok _ _ e e tt).
  2:{ rewrite (bind_ok _ _ _ _ _ (ensure_list_again _ _ _ Hu)).
      rewrite (bind_ok _ _ _ _ _ (ensure_list_again _ _ _ Hh)).
      rewrite (bind_ok _ _ _ _ _ (ensure_list_again _ _ _ Hs)).
      by rewrite (bind_ok _ _ _ _ _ (ensure_list_again _ _ _ Hi)). }
  rewrite (bind_ok _ _ e e tt).
  2:{ rewrite (bind_ok _ _ _ _ _ (ensure_key_again _ _ _ Hdh)).
      by rewrite (bind_ok _ _ _ _ _ (ensure_key_again _ _ _ Hdm)). }
  rewrite (bind_ok _ _ _ _ _ (ensure_meta_dict_again _ _ Hdm)).
  rewrite (bind_ok _ _ e e tt).
  2:{ rewrite (bind_ok _ _ _ _ _ (lower_key_names_again _ _ _ Hdh Hlh)).
      by rewrite (bind_ok _ _ _ _ _ (lower_key_names_again _ _ _ Hdm Hlm)). }
  unfold has_pattern, facet_empty. cbn [forallb]. rewrite Hu, Hh, Hs, Hdh, Hdm.
  pose proof (prepare_patterns_again _ _ _ Hu Hpu) as Eu.
  pose proof (prepare_patterns_again _ _ _ Hh Hph) as Eh.
  pose proof (prepare_patterns_again _ _ _ Hs Hps) as Es.
  pose proof (prepare_fields_again _ _ _ Hdh Hfh) as Ehd.
  pose proof (prepare_fields_again _ _ _ Hdm Hfm) as Em.
  unfold mbind, M_bind.
  rewrite Eu. destruct lu; [|reflexivity].
  rewrite Eh. destruct lh; [|reflexivity].
  rewrite Es. destruct ls; [|reflexivity].
  cbn [mret M_ret].
  rewrite Ehd. destruct dh; [|reflexivity].
  rewrite Em. destruct dm; reflexivity.
Qed.

End PrepareTwice.

(** An entry of the database with one url pattern, and one with no
    pattern. *)
Definition raw_entry : dict (value (engine := mini_engine)) :=
  [("cats", VList [VNum 1]); ("url", VStr "foo")].

Definition raw_bare_entry : dict (value (engine := mini_engine)) :=
  [("cats", VList [VNum 1]); ("implies", VStr "PHP")].

(** Normalizing a normalized entry that has a pattern raises. *)
Lemma prepare_app_twice_raises :
  (_prepare_app raw_entry).2 = Ok tt
  /\ (_prepare_app (_prepare_app raw_entry).1).2 = Raise AttributeError.
Proof. split; vm_compute; reflexivity. Qed.

Lemma prepare_app_twice_witness :
  (_prepare_app raw_entry).2 = Ok tt
  /\ has_pattern (_prepare_app raw_entry).1 = true
  /\ _prepare_app (_prepare_app raw_entry).1
     = ((_prepare_app raw_entry).1, Raise AttributeError)
  /\ (_prepare_app raw_bare_entry).2 = Ok tt
  /\ has_pattern (_prepare_app raw_bare_entry).1 = false
  /\ _prepare_app (_prepare_app raw_bare_entry).1
     = ((_prepare_app raw_bare_entry).1, Ok tt).
Proof.
  assert ((_prepare_app raw_entry).2 = Ok tt) as H1 by (vm_compute; reflexivity).
  assert (has_pattern (_prepare_app raw_entry).1 = true) as H2
    by (vm_compute; reflexivity).
  assert ((_prepare_app raw_bare_entry).2 = Ok tt) as H3
    by (vm_compute; reflexivity).
  assert (has_pattern (_prepare_app raw_bare_entry).1 = false) as H4
    by (vm_compute; reflexivity).
  pose proof (prepare_app_twice raw_entry _ (pair_of_snd _ _ H1)) as H5.
  pose proof (prepare_app_twice raw_bare_entry _ (pair_of_snd _ _ H3)) as H6.
  rewrite H2 in H5. rewrite H4 in H6.
  split; [exact H1|]. split; [exact H2|]. split; [exact H5|].
  split; [exact H3|]. split; [exact H4|exact H6].
Defined.
(** ** The confidence total *)

(** The weight recorded last under the label [l]. *)
Definition last_weight (l : string) (evs : list event) : option Z :=
  fold_left (fun acc (e : event) => if String.eqb e.1 l then Some e.2 else acc)
    evs None.

(** Each label of the events once, with the weight recorded last. *)
Definition sum_of_distinct (evs : list event) : Z :=
  foldr Z.add 0
    (map (fun l => default 0 (last_weight l evs)) (remove_dups (map fst evs))).

Section ConfidenceTotal.
Context {engine : RegexEngine}.

Definition recorded (m : gmap string Z) (evs : list event) : gmap string Z :=
  foldl (fun m (e : event) => <[e.1 := e.2]> m) m evs.

Lemma lookup_recorded l evs m :
  recorded m evs !! l
  = fold_left (fun acc (e : event) =>
                 if String.eqb e.1 l then Some e.2 else acc) evs (m !! l).
Proof.
  unfold recorded. revert m. induction evs as [|[k w] evs IH]; intros m; [done|].
  cbn [foldl fold_left fst snd]. rewrite IH. f_equal.
  destruct (String.eqb k l) eqn:E.
  - apply String.eqb_eq in E. subst. by rewrite lookup_insert_eq.
  - apply String.eqb_neq in E. by rewrite lookup_insert_ne.
Qed.

Lemma lookup_recorded_empty l evs : recorded ∅ evs !! l = last_weight l evs.
Proof. by rewrite lookup_recorded, lookup_empty. Qed.

Lemma last_weight_Some l evs :
  is_Some (last_weight l evs) <-> l ∈ map fst evs.
Proof.
  unfold last_weight.
  assert (forall acc,
            is_Some (fold_left (fun acc (e : event) =>
                       if String.eqb e.1 l then Some e.2 else acc) evs acc)
            <-> is_Some acc \/ l ∈ map fst evs) as H.
  { induction evs as [|[k w] evs IH]; intros acc; cbn [fold_left map fst snd].
    - rewrite elem_of_nil. tauto.
    - rewrite IH, elem_of_cons. destruct (String.eqb k l) eqn:E.
      + apply String.eqb_eq in E. subst. split; [auto|]. intros _. left. eauto.
      + apply String.eqb_neq in E. split; [tauto|].
        intros [?|[?|?]]; [tauto|congruence|tauto]. }
  rewrite H. split; [|auto]. intros [[x Hx]|?]; [discriminate|done].
Qed.

(** The sum over a map is the sum over its keys, each taken once. *)
Lemma confidence_sum_keys (ks : list string) (m : gmap string Z) :
  NoDup ks ->
  (forall l, l ∈ ks <-> is_Some (m !! l)) ->
  confidence_sum m = foldr Z.add 0 (map (fun l => default 0 (m !! l)) ks).
Proof.
  revert m. induction ks as [|k ks IH]; intros m Hnd Hks.
  - assert (m = ∅) as ->.
    { apply map_empty. intros l. destruct (m !! l) eqn:E; [|done].
      exfalso. eapply not_elem_of_nil, Hks. eauto. }
    by unfold confidence_sum; rewrite map_fold_empty.
  - apply NoDup_cons in Hnd as [Hk Hnd].
    destruct (proj1 (Hks k)) as [w Hw]; [left|].
    rewrite <- (insert_delete_id m k w Hw) at 1.
    unfold confidence_sum. rewrite map_fold_insert_L.
    + fold (confidence_sum (delete k m)). cbn [map foldr]. rewrite Hw. cbn.
      rewrite (IH (delete k m)); [|done|].
      * rewrite Z.add_comm. f_equal. f_equal. apply map_ext_in.
        intros l Hl. rewrite lookup_delete_ne; [done|].
        intros ->. apply Hk. by apply list_elem_of_In.
      * intros l. rewrite lookup_delete. destruct (decide (k = l)) as [->|Hne].
        -- split; [done|]. by intros [? ?].
        -- rewrite <- Hks, elem_of_cons. naive_solver.
    + intros. lia.
    + apply lookup_delete_eq.
Qed.

Lemma confidence_sum_recorded evs :
  confidence_sum (recorded ∅ evs) = sum_of_distinct evs.
Proof.
  unfold sum_of_distinct.
  rewrite (confidence_sum_keys (remove_dups (map fst evs))).
  - f_equal. apply map_ext. intros l. by rewrite lookup_recorded_empty.
  - apply NoDup_remove_dups.
  - intros l. by rewrite elem_of_remove_dups, lookup_recorded_empty,
      last_weight_Some.
Qed.

Lemma record_recorded evs oc :
  some_event evs = true ->
  record evs oc = Some (recorded (default ∅ oc) evs).
Proof. by destruct evs. Qed.

(** C3, as the code has it. For an entry that [_has_app] marks detected on
    a page, the confidence map afterwards is the map of the entry before
    the call, empty on a fresh entry, with the label and weight of every
    firing event of the page written into it in order, a label that is
    written again being overwritten; the total is the sum of that map,
    each of its labels counted once. On an entry without earlier results
    this is the sum over the distinct labels of the events of the page. *)
Theorem confidence_total_over_labels (app_name : string) (w : WebPage.t)
    (a : app) :
  app_ok a = true ->
  some_event (detecting_events a w) = true ->
  exists a' m,
    _has_app app_name w a = (a', Ok true)
    /\ confidence a' = Some m
    /\ m = recorded (default ∅ (confidence a)) (firing_events a w)
    /\ confidenceTotal a' = Some (confidence_sum m)
    /\ confidence_sum m
       = foldr Z.add 0 (map (fun l => default 0 (m !! l)) (elements (dom m)))
    /\ (default ∅ (confidence a) = ∅ ->
        confidence_sum m = sum_of_distinct (firing_events a w)).
Proof.
  intros Hok Hdet.
  destruct (has_app_effect app_name w a Hok)
    as (a' & Hrun & _ & _ & _ & Hc & _ & Ht).
  rewrite Hdet in Hrun, Ht.
  assert (some_event (firing_events a w) = true) as Hfire.
  { unfold firing_events. rewrite some_event_app, Hdet. apply orb_true_r. }
  rewrite (record_recorded _ _ Hfire) in Hc, Ht.
  exists a', (recorded (default ∅ (confidence a)) (firing_events a w)).
  split; [done|]. split; [done|]. split; [done|]. split; [done|]. split.
  - apply confidence_sum_keys; [apply NoDup_elements|].
    intros l. by rewrite elem_of_elements, elem_of_dom.
  - intros ->. apply confidence_sum_recorded.
Qed.

End ConfidenceTotal.

(** An entry with two html patterns, a page on which the first fires and a
    page on which the second fires. *)
Definition foo_bar_entry : app :=
  App (Some [1]) []
      [compiled (H := mini_engine) "foo"; compiled (H := mini_engine) "bar"]
      [] [] [] [] None None None None.

Definition foo_page : WebPage.t := page_of_html "<p>foo</p>".
Definition bar_page : WebPage.t := page_of_html "<p>bar</p>".

(** The entry after the first page was analyzed. *)
Definition foo_bar_entry_1 : app := (_has_app "X" foo_page foo_bar_entry).1.

(** On the second page one pattern fires, with weight 100, and the total
    recorded is 200: the label of the first page is still in the map. *)
Lemma total_counts_earlier_pages :
  (_has_app "X" foo_page foo_bar_entry).2 = Ok true
  /\ confidenceTotal foo_bar_entry_1 = Some 100
  /\ map fst (firing_events foo_bar_entry_1 bar_page) = ["html bar"]
  /\ sum_of_distinct (firing_events foo_bar_entry_1 bar_page) = 100
  /\ (_has_app "X" bar_page foo_bar_entry_1).2 = Ok true
  /\ confidenceTotal (_has_app "X" bar_page foo_bar_entry_1).1 = Some 200.
Proof. repeat split; vm_compute; reflexivity. Qed.

Lemma confidence_total_over_labels_witness :
  app_ok foo_bar_entry_1 = true
  /\ some_event (detecting_events foo_bar_entry_1 bar_page) = true
  /\ exists a' m,
       _has_app "X" bar_page foo_bar_entry_1 = (a', Ok true)
       /\ confidence a' = Some m
       /\ confidenceTotal a' = Some (confidence_sum m)
       /\ confidence_sum m
          = foldr Z.add 0 (map (fun l => default 0 (m !! l)) (elements (dom m))).
Proof.
  assert (app_ok foo_bar_entry_1 = true) as H1 by (vm_compute; reflexivity).
  assert (some_event (detecting_events foo_bar_entry_1 bar_page) = true) as H2
    by (vm_compute; reflexivity).
  split; [exact H1|]. split; [exact H2|].
  destruct (confidence_total_over_labels "X" bar_page foo_bar_entry_1 H1 H2)
    as (a' & m & Ha & Hm & _ & Ht & Hs & _).
  exists a', m. split; [exact Ha|]. split; [exact Hm|].
  split; [exact Ht|exact Hs].
Defined.
(** ** Which facets mark a technology as detected *)

Section DetectedFlag.
Context {engine : RegexEngine}.

(** C2, as the code has it. On a store whose patterns are well formed
    [analyze] returns, and: the name of an entry of which a headers,
    script, meta or html pattern fires is in the returned set; a name is
    in the returned set only when such a pattern of an entry of that name
    fires or when an entry in the set implies it, so an entry of which
    only url patterns fire is there only as an implied one; for every
    entry [_has_app] answers whether a headers, script, meta or html
    pattern fired, and a url pattern that fires still goes through
    [_set_detected_app]: its label and weight are in the confidence map
    and the key [detected] of the entry is set. *)
Theorem detected_by_other_facets (w : WebPage.t) (apps : dict app) :
  store_ok apps = true ->
  exists apps' names,
    analyze w apps = (apps', Ok names)
    /\ (forall name a, (name, a) ∈ apps ->
          some_event (detecting_events a w) = true -> name ∈ names)
    /\ (forall name, name ∈ names ->
          (exists a, (name, a) ∈ apps
                     /\ some_event (detecting_events a w) = true)
          \/ (exists T a', T ∈ names /\ dget T apps' = Some a'
                           /\ name ∈ implies a'))
    /\ (forall name a, dget name apps = Some a ->
          (_has_app name w a).2 = Ok (some_event (detecting_events a w))
          /\ exists a',
               dget name apps' = Some a'
               /\ confidence a' = record (firing_events a w) (confidence a)
               /\ detected a'
                  = (if some_event (firing_events a w) then Some true
                     else detected a)).
Proof.
  intros Hok.
  destruct (analyze_effect w apps Hok) as (apps' & i & Han & Hi & _ & Heff).
  exists apps', (detected_names w apps ∪ i). split; [done|]. split; [|split].
  - intros name a Hin Hdet. apply elem_of_union_l, elem_of_detected_names.
    eauto.
  - intros name [Hd|Hi']%elem_of_union.
    + left. by apply elem_of_detected_names.
    + right. by apply (_get_implied_apps_sound _ _ _ _ Hi).
  - intros name a Ha. split.
    + assert (app_ok a = true) as Hoka.
      { unfold store_ok in Hok. rewrite forallb_forall in Hok.
        apply (Hok (name, a)), list_elem_of_In, dget_elem, Ha. }
      destruct (has_app_effect name w a Hoka) as (a' & -> & _). done.
    + pose proof (entry_effect_dget w apps apps' name Heff) as H.
      rewrite Ha in H. destruct H as (a' & Ha' & _ & _ & _ & Hc & Hd & _).
      exists a'. done.
Qed.

End DetectedFlag.

(** A is found in the page and implies B; of B only the url pattern, which
    carries a version template, fires. *)
Definition implied_url_store : dict app :=
  [("A", App (Some [1]) [] [compiled (H := mini_engine) "alpha"] [] [] []
             ["B"] None None None None);
   ("B", App (Some [2])
             [compiled (H := mini_engine) "/b-([0-9]+)/\;version:\1"]
             [] [] [] [] [] None None None None)].

Definition implied_url_page : WebPage.t :=
  WebPage.Build "http://x/b-7/" "<p>alpha</p>" (fun _ => None) []
    (fun _ => None).

Definition entry_B : app := default (entry_implying []) (dget "B" implied_url_store).

(** Only a url pattern of B fires, and B is in the set [analyze] returns:
    A implies it. *)
Lemma url_only_entry_returned :
  some_event (url_events entry_B implied_url_page) = true
  /\ some_event (detecting_events entry_B implied_url_page) = false
  /\ (_has_app "B" implied_url_page entry_B).2 = Ok false
  /\ (analyze implied_url_page implied_url_store).2 = Ok {["A"; "B"]}
  /\ bool_decide ("B" ∈ ({["A"; "B"]} : gset string)) = true.
Proof. repeat split; vm_compute; reflexivity. Qed.

Lemma detected_by_other_facets_witness :
  store_ok implied_url_store = true
  /\ (_has_app "B" implied_url_page entry_B).2 = Ok false
  /\ detected (_has_app "B" implied_url_page entry_B).1 = Some true
  /\ versions (_has_app "B" implied_url_page entry_B).1 = Some ["7"]
  /\ exists apps' names,
       analyze implied_url_page implied_url_store = (apps', Ok names)
       /\ (forall name a, (name, a) ∈ implied_url_store ->
             some_event (detecting_events a implied_url_page) = true ->
             name ∈ names).
Proof.
  assert (store_ok implied_url_store = true) as H by (vm_compute; reflexivity).
  split; [exact H|]. split; [vm_compute; reflexivity|].
  split; [vm_compute; reflexivity|]. split; [vm_compute; reflexivity|].
  destruct (detected_by_other_facets implied_url_page implied_url_store H)
    as (apps' & names & H1 & H2 & _).
  exists apps', names. split; [exact H1|exact H2].
Defined.

(** * Further properties *)

(** ** Splitting a pattern string *)

(** [sep in s] *)
Fixpoint occurs (sep s : string) : bool :=
  String.prefix sep s
  || match s with
     | EmptyString => false
     | String _ s' => occurs sep s'
     end.

Section Splitting.

Lemma occurs_cons sep c s :
  occurs sep (String c s) = false ->
  String.prefix sep (String c s) = false /\ occurs sep s = false.
Proof. cbn [occurs]. by intros ?%orb_false_iff. Qed.

(** A string without the separator is one piece. *)
Lemma split_from_clean sep cur s :
  occurs sep s = false -> PyStr.split_from sep 0 cur s = [cur +:+ s].
Proof.
  revert cur. induction s as [|c s IH]; intros cur H.
  - by rewrite str_app_nil_r.
  - apply occurs_cons in H as [Hp Ho]. cbn [PyStr.split_from]. rewrite Hp.
    rewrite (IH _ Ho). by rewrite str_app_assoc.
Qed.

Lemma split_from_skip sep cur a rest :
  PyStr.split_from sep (String.length a) cur (a +:+ rest)
  = PyStr.split_from sep 0 cur rest.
Proof.
  induction a as [|c a IH]; [done|]. rewrite str_app_cons. exact IH.
Qed.

Lemma has_char_occurs c s : has_char c s = occurs (String c "") s.
Proof.
  induction s as [|x s IH]; [done|]. cbn [has_char occurs String.prefix].
  rewrite IH. destruct (ascii_dec c x) as [->|Hne].
  - rewrite Ascii.eqb_refl. by destruct s.
  - apply not_eq_sym, Ascii.eqb_neq in Hne. by rewrite Hne.
Qed.

(** The first occurrence of a one-character separator. *)
Lemma split_from_char c cur k v :
  has_char c k = false ->
  PyStr.split_from (String c "") 0 cur (k +:+ String c v)
  = (cur +:+ k) :: PyStr.split_from (String c "") 0 "" v.
Proof.
  revert cur. induction k as [|x k IH]; intros cur H.
  - rewrite str_app_nil_l, str_app_nil_r. cbn [PyStr.split_from String.prefix].
    destruct (ascii_dec c c); [|done]. by destruct v.
  - cbn [has_char] in H. apply orb_false_iff in H as [Hx H].
    apply Ascii.eqb_neq in Hx. rewrite str_app_cons. cbn [PyStr.split_from].
    rewrite prefix_other_head by congruence.
    rewrite (IH _ H). by rewrite str_app_assoc.
Qed.

(** The first occurrence of the separator of attributes. *)
Lemma split_from_segment cur e rest :
  occurs "\;" e = false ->
  PyStr.split_from "\;" 0 cur (e +:+ "\;" +:+ rest)
  = (cur +:+ e) :: PyStr.split_from "\;" 0 "" rest.
Proof.
  revert cur. induction e as [|x e IH]; intros cur H.
  - rewrite str_app_nil_l, str_app_nil_r, !str_app_cons, str_app_nil_l.
    cbn [PyStr.split_from String.prefix].
    destruct (ascii_dec "\" "\"); [|done]. destruct (ascii_dec ";" ";"); [|done].
    by destruct rest.
  - apply occurs_cons in H as [Hp Ho]. rewrite str_app_cons.
    cbn [PyStr.split_from].
    assert (String.prefix "\;" (String x (e +:+ "\;" +:+ rest)) = false) as ->.
    { destruct e as [|y e].
      - rewrite str_app_nil_l. cbn [String.prefix].
        destruct (ascii_dec "\" x); [|done]. by rewrite !str_app_cons.
      - rewrite str_app_cons. cbn [String.prefix] in *.
        destruct (ascii_dec "\" x); [|done].
        destruct (ascii_dec ";" y); [|done]. by destruct e. }
    rewrite (IH _ Ho). by rewrite str_app_assoc.
Qed.

Lemma split_from_nonempty sep skip cur s : PyStr.split_from sep skip cur s <> [].
Proof.
  revert skip cur. induction s as [|c s IH]; intros skip cur; [done|].
  cbn [PyStr.split_from]. destruct skip; [|apply IH].
  destruct (String.prefix sep (String c s)); [done|apply IH].
Qed.

Lemma join_cons sep x l :
  l <> [] -> PyStr.join sep (x :: l) = x +:+ sep +:+ PyStr.join sep l.
Proof. by destruct l. Qed.

Fixpoint str_drop (n : nat) (s : string) : string :=
  match n, s with
  | O, _ => s
  | S n', String _ s' => str_drop n' s'
  | S _, EmptyString => EmptyString
  end.

Lemma prefix_split a s :
  String.prefix a s = true -> s = a +:+ str_drop (String.length a) s.
Proof.
  revert s. induction a as [|x a IH]; intros s; [done|].
  destruct s as [|y s]; [done|]. cbn [String.prefix].
  destruct (ascii_dec x y) as [->|]; [|done]. intros H.
  rewrite str_app_cons. cbn [String.length str_drop]. f_equal. by apply IH.
Qed.

(** Joining the pieces with the separator gives the string back. *)
Lemma join_split_from sep skip cur s :
  sep <> "" ->
  PyStr.join sep (PyStr.split_from sep skip cur s) = cur +:+ str_drop skip s.
Proof.
  intros Hsep. revert skip cur. induction s as [|c s IH]; intros skip cur.
  - cbn [PyStr.split_from PyStr.join].
    destruct skip; cbn [str_drop]; by rewrite str_app_nil_r.
  - cbn [PyStr.split_from]. destruct skip as [|k]; [|apply IH].
    cbn [str_drop]. destruct (String.prefix sep (String c s)) eqn:Hp.
    + rewrite join_cons by apply split_from_nonempty. rewrite IH.
      rewrite str_app_nil_l. f_equal.
      apply prefix_split in Hp. etransitivity; [|symmetry; exact Hp].
      destruct sep as [|x sep]; [done|].
      cbn [String.length str_drop Nat.sub]. by rewrite Nat.sub_0_r.
    + rewrite IH. cbn [str_drop]. by rewrite str_app_assoc.
Qed.

Lemma join_split s sep : sep <> "" -> PyStr.join sep (PyStr.split s sep) = s.
Proof. intros H. unfold PyStr.split. by rewrite join_split_from. Qed.

End Splitting.

(** ** What [_prepare_pattern] makes of a pattern string *)

Section PreparePattern.
Context {engine : RegexEngine}.

(** The attributes of an expression that carries none, [r] being its
    compiled form. *)
Definition plain (expression : string) (r : regex) : pattern :=
  [("string", VStr expression); ("regex", VRegex r)].

Lemma prepare_segment_attribute i k v attrs :
  has_char ":" k = false ->
  prepare_segment (S i) (k +:+ ":" +:+ v) attrs = Ok (dset k (VStr v) attrs).
Proof.
  intros Hk. cbn [prepare_segment]. unfold PyStr.split.
  rewrite (str_app_cons ":" "" v), (str_app_nil_l v).
  rewrite (split_from_char ":" "" k v Hk), str_app_nil_l.
  pose proof (join_split_from ":" 0 "" v) as Hj.
  destruct (PyStr.split_from ":" 0 "" v) as [|y l] eqn:E.
  - by apply split_from_nonempty in E.
  - rewrite Hj by done. by rewrite str_app_nil_l.
Qed.

Lemma prepare_segment_no_colon i junk attrs :
  has_char ":" junk = false -> prepare_segment (S i) junk attrs = Ok attrs.
Proof.
  intros H. cbn [prepare_segment]. unfold PyStr.split.
  rewrite split_from_clean; [done|]. by rewrite <- has_char_occurs.
Qed.

Lemma split_two e rest :
  occurs "\;" e = false -> occurs "\;" rest = false ->
  PyStr.split (e +:+ "\;" +:+ rest) "\;" = [e; rest].
Proof.
  intros He Hr. unfold PyStr.split.
  rewrite (split_from_segment "" e rest He), !str_app_nil_l.
  by rewrite (split_from_clean "\;" "" rest Hr), str_app_nil_l.
Qed.

Lemma prepare_pattern_alone e :
  occurs "\;" e = false ->
  _prepare_pattern (VStr e) = prepare_segments 0 [e] [].
Proof.
  intros H. unfold _prepare_pattern, PyStr.split.
  by rewrite (split_from_clean "\;" "" e H), str_app_nil_l.
Qed.

(** One segment after the expression: it is read when the expression has
    been, and not at all when compiling the expression raised. *)
Lemma prepare_pattern_second e rest :
  occurs "\;" e = false -> occurs "\;" rest = false ->
  _prepare_pattern (VStr (e +:+ "\;" +:+ rest))
  = match _prepare_pattern (VStr e) with
    | Ok attrs => prepare_segment 1 rest attrs
    | Raise x => Raise x
    end.
Proof.
  intros He Hr. rewrite (prepare_pattern_alone e He).
  unfold _prepare_pattern. rewrite (split_two _ _ He Hr).
  cbn [prepare_segments].
  destruct (prepare_segment 0 e []) as [attrs|x]; [|done].
  by destruct (prepare_segment 1 rest attrs).
Qed.

(** X1. An expression without the separator [\;]: when it compiles, it is
    prepared into exactly two attributes, [string], the expression as
    written, and [regex], the expression compiled without regard to case;
    when compiling it is an [re.error], [regex] is the pattern that never
    matches; when compiling it raises anything else, [_prepare_pattern]
    raises that. *)
Theorem prepare_pattern_plain (expression : string) :
  occurs "\;" expression = false ->
  match re_compile true expression with
  | Matcher r =>
      _prepare_pattern (VStr expression)
      = Ok [("string", VStr expression); ("regex", VRegex r)]
  | Invalid =>
      _prepare_pattern (VStr expression)
      = Ok [("string", VStr expression); ("regex", VRegex re_never)]
  | Escaped e =>
      _prepare_pattern (VStr expression) = Raise (exn_of_escape e)
  end.
Proof.
  intros H. rewrite (prepare_pattern_alone _ H).
  cbn [prepare_segments prepare_segment].
  by destruct (re_compile true expression).
Qed.

(** X2. An attribute [key:value] written after the expression and the
    separator [\;] is stored, once the expression has been prepared, under
    [key] with everything after the first colon as its value, later colons
    included; it replaces [string] or [regex] when [key] is one of these.
    When preparing the expression raises, so does preparing the whole. *)
Theorem prepare_pattern_attribute (expression key value : string) :
  occurs "\;" expression = false ->
  occurs "\;" (key +:+ ":" +:+ value) = false ->
  has_char ":" key = false ->
  _prepare_pattern (VStr (expression +:+ "\;" +:+ key +:+ ":" +:+ value))
  = match _prepare_pattern (VStr expression) with
    | Ok attrs => Ok (dset key (VStr value) attrs)
    | Raise x => Raise x
    end.
Proof.
  intros He Hkv Hk. rewrite (prepare_pattern_second _ _ He Hkv).
  destruct (_prepare_pattern (VStr expression)) as [attrs|x]; [|done].
  by apply prepare_segment_attribute.
Qed.

(** X3. A segment after the separator that holds no colon is dropped: the
    outcome is that of the expression alone. *)
Theorem prepare_pattern_no_colon (expression junk : string) :
  occurs "\;" expression = false ->
  occurs "\;" junk = false ->
  has_char ":" junk = false ->
  _prepare_pattern (VStr (expression +:+ "\;" +:+ junk))
  = _prepare_pattern (VStr expression).
Proof.
  intros He Hj Hc. rewrite (prepare_pattern_second _ _ He Hj).
  destruct (_prepare_pattern (VStr expression)) as [attrs|x]; [|done].
  by apply prepare_segment_no_colon.
Qed.

(** X4. An attribute named [regex] takes the place of the compiled
    expression. When compiling the expression raises nothing but an
    [re.error], the pattern is prepared, its [regex] is the string of the
    attribute, and every later search with it raises AttributeError, the
    entry and the pattern being left as they were. When compiling the
    expression raises something else, preparing the pattern raises it. *)
Theorem regex_attribute_breaks_search (expression value : string)
    (app_name app_type content key : string) (a : app) :
  occurs "\;" expression = false ->
  occurs "\;" ("regex:" +:+ value) = false ->
  match re_compile true expression with
  | Escaped e =>
      _prepare_pattern (VStr (expression +:+ "\;" +:+ "regex:" +:+ value))
      = Raise (exn_of_escape e)
  | _ =>
      exists p,
        _prepare_pattern (VStr (expression +:+ "\;" +:+ "regex:" +:+ value))
        = Ok p
        /\ dget "regex" p = Some (VStr value)
        /\ check app_name app_type content key (a, p)
           = ((a, p), Raise AttributeError)
  end.
Proof.
  intros He Hv.
  rewrite (prepare_pattern_second expression ("regex:" +:+ value) He Hv).
  rewrite (prepare_pattern_alone _ He).
  cbn [prepare_segments prepare_segment].
  pose proof (prepare_segment_attribute 0 "regex" value) as Hs.
  destruct (re_compile true expression) as [r| |e]; [| |done];
    (eexists; split; [apply Hs; reflexivity|]; split; reflexivity).
Qed.

End PreparePattern.

Lemma prepare_pattern_plain_witness :
  occurs "\;" "jquery[.-]([0-9.]+)\.js" = false
  /\ match re_compile (RegexEngine := mini_engine) true
             "jquery[.-]([0-9.]+)\.js" with
     | Matcher r =>
         _prepare_pattern (VStr "jquery[.-]([0-9.]+)\.js")
         = Ok [("string", VStr "jquery[.-]([0-9.]+)\.js"); ("regex", VRegex r)]
     | _ => False
     end
  /\ _prepare_pattern (engine := mini_engine) (VStr "a{4294967295}")
     = Raise OverflowError
  /\ _prepare_pattern (engine := mini_engine) (VStr "a{2,1}")
     = Ok [("string", VStr "a{2,1}"); ("regex", VRegex re_never)].
Proof.
  split; [reflexivity|]. split; [|split].
  - apply (prepare_pattern_plain (engine := mini_engine)
             "jquery[.-]([0-9.]+)\.js"). reflexivity.
  - apply (prepare_pattern_plain (engine := mini_engine) "a{4294967295}").
    reflexivity.
  - apply (prepare_pattern_plain (engine := mini_engine) "a{2,1}").
    reflexivity.
Defined.

Lemma prepare_pattern_attribute_witness :
  _prepare_pattern (engine := mini_engine)
    (VStr ("jquery-([0-9.]+)\.js" +:+ "\;" +:+ "version" +:+ ":" +:+ "\1?a:b"))
  = match _prepare_pattern (engine := mini_engine)
            (VStr "jquery-([0-9.]+)\.js") with
    | Ok attrs => Ok (dset "version" (VStr "\1?a:b") attrs)
    | Raise x => Raise x
    end.
Proof.
  apply (prepare_pattern_attribute "jquery-([0-9.]+)\.js" "version" "\1?a:b");
    reflexivity.
Defined.

Lemma prepare_pattern_no_colon_witness :
  _prepare_pattern (engine := mini_engine)
    (VStr ("foo" +:+ "\;" +:+ "confidence 50"))
  = _prepare_pattern (engine := mini_engine) (VStr "foo").
Proof.
  apply (prepare_pattern_no_colon "foo" "confidence 50"); reflexivity.
Defined.

Lemma regex_attribute_breaks_search_witness :
  exists p,
    _prepare_pattern (engine := mini_engine)
      (VStr ("foo" +:+ "\;" +:+ "regex:" +:+ "bar")) = Ok p
    /\ dget "regex" p = Some (VStr "bar")
    /\ check "X" "html" "<p>foo</p>" "" (entry_implying [], p)
       = ((entry_implying [], p), Raise AttributeError).
Proof.
  apply (regex_attribute_breaks_search (engine := mini_engine)
           "foo" "bar" "X" "html" "<p>foo</p>" "" (entry_implying []));
    reflexivity.
Defined.

(** ** What [_prepare_app] makes of a raw entry *)

Section PrepareShape.
Context {engine : RegexEngine}.
Implicit Types (e s : dict value).

(** The six keys [_prepare_app] is about. *)
Definition prepared_keys : list string :=
  ["url"; "html"; "script"; "implies"; "headers"; "meta"].

(** Every other key of the entry is as it was. *)
Definition untouched (s s' : dict value) : Prop :=
  forall k, k ∉ prepared_keys -> dget k s' = dget k s.

#[export] Instance untouched_preorder : PreOrder untouched.
Proof.
  split.
  - by intros s k _.
  - intros x y z Hxy Hyz k Hk. by rewrite (Hyz k Hk), (Hxy k Hk).
Qed.

Lemma untouched_of_frame key s s' :
  key ∈ prepared_keys -> same_elsewhere key s s' -> untouched s s'.
Proof. intros Hkey H k Hk. apply H. by intros ->. Qed.

Lemma stable_for_each_in {S A} (R : relation S) `{!PreOrder R} (l : list A)
    (body : A -> M S unit) :
  (forall x, x ∈ l -> stable R (body x)) -> stable R (for_each l body).
Proof.
  induction l as [|x l IH]; intros H; cbn [for_each].
  - by apply stable_ret.
  - apply stable_bind; [done|apply H; left|].
    intros _. apply IH. intros y Hy. apply H. by right.
Qed.

Ltac key_in_list H :=
  repeat (apply elem_of_cons in H as [->|H]; [set_solver|]);
  by apply elem_of_nil in H.

(** X5. [_prepare_app] reads and writes the keys url, html, script,
    implies, headers and meta only: every other key of the entry, cats for
    one, is left as it was, whether the call returns or raises. *)
Theorem prepare_app_other_keys (raw : dict value) (k : string) :
  k ∉ prepared_keys -> dget k (_prepare_app raw).1 = dget k raw.
Proof.
  revert k. change (untouched raw (_prepare_app raw).1).
  assert (stable untouched _prepare_app) as H; [|apply H].
  unfold _prepare_app.
  repeat match goal with
         | |- stable _ (_ ≫= _) => apply stable_bind; [apply _| |intros _]
         end;
    try (apply stable_for_each_in; [apply _|]; intros key Hkey s).
  - apply (untouched_of_frame key); [key_in_list Hkey|apply ensure_list_frame].
  - apply (untouched_of_frame key); [key_in_list Hkey|apply ensure_key_frame].
  - intros s. apply (untouched_of_frame "meta"); [set_solver|].
    apply ensure_meta_dict_frame.
  - apply (untouched_of_frame key); [key_in_list Hkey|].
    apply lower_key_names_frame.
  - apply (untouched_of_frame key); [key_in_list Hkey|].
    apply prepare_patterns_frame.
  - apply (untouched_of_frame key); [key_in_list Hkey|].
    apply prepare_fields_frame.
Qed.

(** *** The list facets *)

(** [value] itself when it is a list, [[value]] when it is not, the empty
    list when the key is missing. *)
Definition as_list (o : option value) : list value :=
  match o with
  | None => []
  | Some (VList l) => l
  | Some v => [v]
  end.

(** [p] is what [_prepare_pattern] returns for [v]. *)
Definition prepared (v p : value) : Prop :=
  exists attrs, _prepare_pattern v = Ok attrs /\ p = VDict attrs.

Lemma ensure_list_run key s :
  exists s', ensure_list key s = (s', Ok tt)
             /\ dget key s' = Some (VList (as_list (dget key s))).
Proof.
  unfold ensure_list, mbind, M_bind, get, set_item, modify.
  destruct (dget key s) as [v|] eqn:E.
  - destruct v; cbn [is_list negb as_list]; eexists;
      (split; [reflexivity|]); rewrite ?dget_dset_eq; done.
  - eexists. split; [reflexivity|]. by rewrite dget_dset_eq.
Qed.

Lemma ensure_list_exact key s s' :
  ensure_list key s = (s', Ok tt) ->
  dget key s' = Some (VList (as_list (dget key s))).
Proof.
  intros H. destruct (ensure_list_run key s) as (x & Hx & Hpost).
  rewrite H in Hx. by injection Hx as <-.
Qed.

Lemma prepare_list_prepared l r :
  prepare_list l = Ok r -> Forall2 prepared l r.
Proof.
  revert r. induction l as [|v l IH]; intros r; cbn [prepare_list].
  - intros [= <-]. constructor.
  - destruct (_prepare_pattern v) as [attrs|] eqn:E; [|discriminate].
    destruct (prepare_list l) as [r'|]; [|discriminate].
    intros [= <-]. constructor; [by exists attrs|by apply IH].
Qed.

Lemma prepare_patterns_exact key s s' l :
  dget key s = Some (VList l) ->
  prepare_patterns key s = (s', Ok tt) ->
  exists r, dget key s' = Some (VList r) /\ Forall2 prepared l r.
Proof.
  intros Hl. unfold prepare_patterns, mbind, M_bind, item, lift, set_item,
    modify. rewrite Hl. cbn [of_option]. unfold mbind, M_bind.
  destruct (prepare_list l) as [r|] eqn:E; [|discriminate]. intros [= <-].
  exists r. rewrite dget_dset_eq. eauto using prepare_list_prepared.
Qed.

Ltac follow :=
  repeat match goal with
         | H : same_elsewhere ?k ?s ?s' |- context [dget ?k' ?s'] =>
             rewrite (H k') by discriminate
         end.

(** A step that returned, and left the other keys alone. *)
Definition step (m : M (dict value) unit) (key : string) (s s' : dict value)
  : Prop :=
  m s = (s', Ok tt) /\ same_elsewhere key s s'.

Lemma step_of_frame (m : M (dict value) unit) key s s' :
  same_elsewhere key s (m s).1 -> m s = (s', Ok tt) -> step m key s s'.
Proof. intros Hf H. split; [done|]. by rewrite H in Hf. Qed.

(** The fourteen steps of a call that returned. *)
Lemma prepare_app_steps raw e :
  _prepare_app raw = (e, Ok tt) ->
  exists a1 a2 a3 a4 b1 b2 c d1 d2 e1 e2 e3 f1,
    step (ensure_list "url") "url" raw a1
    /\ step (ensure_list "html") "html" a1 a2
    /\ step (ensure_list "script") "script" a2 a3
    /\ step (ensure_list "implies") "implies" a3 a4
    /\ step (ensure_key "headers") "headers" a4 b1
    /\ step (ensure_key "meta") "meta" b1 b2
    /\ step ensure_meta_dict "meta" b2 c
    /\ step (lower_key_names "headers") "headers" c d1
    /\ step (lower_key_names "meta") "meta" d1 d2
    /\ step (prepare_patterns "url") "url" d2 e1
    /\ step (prepare_patterns "html") "html" e1 e2
    /\ step (prepare_patterns "script") "script" e2 e3
    /\ step (prepare_fields "headers") "headers" e3 f1
    /\ step (prepare_fields "meta") "meta" f1 e.
Proof.
  unfold _prepare_app. intros H.
  apply bind_returned in H as (a4 & [] & HA & H).
  apply bind_returned in H as (b2 & [] & HB & H).
  apply bind_returned in H as (c & [] & HC & H).
  apply bind_returned in H as (d2 & [] & HD & H).
  apply bind_returned in H as (e3 & [] & HE & H).
  cbn [for_each] in HA, HB, HD, HE, H.
  apply bind_returned in HA as (a1 & [] & Ha1 & HA).
  apply bind_returned in HA as (a2 & [] & Ha2 & HA).
  apply bind_returned in HA as (a3 & [] & Ha3 & HA).
  apply bind_returned in HA as (a4' & [] & Ha4 & HA). injection HA as ->.
  apply bind_returned in HB as (b1 & [] & Hb1 & HB).
  apply bind_returned in HB as (b2' & [] & Hb2 & HB). injection HB as ->.
  apply bind_returned in HD as (d1 & [] & Hd1 & HD).
  apply bind_returned in HD as (d2' & [] & Hd2 & HD). injection HD as ->.
  apply bind_returned in HE as (e1 & [] & He1 & HE).
  apply bind_returned in HE as (e2 & [] & He2 & HE).
  apply bind_returned in HE as (e3' & [] & He3 & HE). injection HE as ->.
  apply bind_returned in H as (f1 & [] & Hf1 & H).
  apply bind_returned in H as (f2 & [] & Hf2 & H). injection H as ->.
  exists a1, a2, a3, a4, b1, b2, c, d1, d2, e1, e2, e3, f1.
  repeat match goal with |- _ /\ _ => split end.
  all: apply step_of_frame; [|assumption].
  all: first [apply ensure_list_frame | apply ensure_key_frame
             | apply ensure_meta_dict_frame | apply lower_key_names_frame
             | apply prepare_patterns_frame | apply prepare_fields_frame].
Qed.

Ltac steps H :=
  apply prepare_app_steps in H
    as (a1 & a2 & a3 & a4 & b1 & b2 & c & d1 & d2 & e1 & e2 & e3 & f1
        & [Ha1 Fa1] & [Ha2 Fa2] & [Ha3 Fa3] & [Ha4 Fa4] & [Hb1 Fb1]
        & [Hb2 Fb2] & [HC Fc] & [Hd1 Fd1] & [Hd2 Fd2] & [He1 Fe1]
        & [He2 Fe2] & [He3 Fe3] & [Hf1 Ff1] & [Hf2 Ff2]).

(** X6. When [_prepare_app] returns, each of url, html and script holds
    the list of the prepared patterns, in order, of what the raw entry had
    under that key: of the elements of its list, of its one value when that
    was not a list, of nothing when the key was missing. [implies] holds
    the same list, its elements as they were. *)
Theorem prepare_app_lists (raw e : dict value) :
  _prepare_app raw = (e, Ok tt) ->
  (forall key, key ∈ ["url"; "html"; "script"] ->
     exists r, dget key e = Some (VList r)
               /\ Forall2 prepared (as_list (dget key raw)) r)
  /\ dget "implies" e = Some (VList (as_list (dget "implies" raw))).
Proof.
  intros H. steps H.
  apply ensure_list_exact in Ha1, Ha2, Ha3, Ha4.
  assert (dget "url" d2 = Some (VList (as_list (dget "url" raw)))) as Hu
    by (follow; exact Ha1).
  assert (dget "html" e1 = Some (VList (as_list (dget "html" raw)))) as Hh
    by (follow; rewrite Ha2; follow; done).
  assert (dget "script" e2 = Some (VList (as_list (dget "script" raw)))) as Hs
    by (follow; rewrite Ha3; follow; done).
  destruct (prepare_patterns_exact _ _ _ _ Hu He1) as (r1 & Hr1 & Hp1).
  destruct (prepare_patterns_exact _ _ _ _ Hh He2) as (r2 & Hr2 & Hp2).
  destruct (prepare_patterns_exact _ _ _ _ Hs He3) as (r3 & Hr3 & Hp3).
  split.
  - intros key Hkey.
    apply elem_of_cons in Hkey as [->|Hkey];
      [|apply elem_of_cons in Hkey as [->|Hkey];
        [|apply elem_of_cons in Hkey as [->|Hkey];
          [|by apply elem_of_nil in Hkey]]].
    + exists r1. split; [follow; done|done].
    + exists r2. split; [follow; done|done].
    + exists r3. split; [follow; done|done].
  - follow. rewrite Ha4. follow. done.
Qed.

(** *** The mappings *)

(** [meta] as the third step leaves it. *)
Definition meta_value (o : option value) : value :=
  match o with
  | None => VDict []
  | Some v => if is_dict v then v else VDict [("generator", v)]
  end.

(** [d'] has the keys of [d], and under each the prepared pattern of the
    value [d] has there. *)
Definition prepared_fields (d d' : dict value) : Prop :=
  keys d' = keys d
  /\ forall k v, dget k d = Some v ->
       exists attrs, _prepare_pattern v = Ok attrs
                     /\ dget k d' = Some (VDict attrs).

Lemma ensure_key_exact key s s' :
  ensure_key key s = (s', Ok tt) ->
  dget key s' = Some (default (VDict []) (dget key s)).
Proof.
  unfold ensure_key, mbind, M_bind, get, set_item, modify.
  destruct (dget key s) as [v|] eqn:E; intros [= <-].
  - by rewrite E.
  - by rewrite dget_dset_eq.
Qed.

Lemma ensure_meta_dict_exact s s' :
  ensure_meta_dict s = (s', Ok tt) ->
  exists v, dget "meta" s = Some v
            /\ dget "meta" s'
               = Some (if is_dict v then v else VDict [("generator", v)]).
Proof.
  unfold ensure_meta_dict, mbind, M_bind, item, set_item, modify.
  destruct (dget "meta" s) as [v|] eqn:E; [|discriminate]. cbn [of_option].
  exists v. split; [done|]. destruct (is_dict v); cbn [negb] in *.
  - injection H as <-. done.
  - injection H as <-. by rewrite dget_dset_eq.
Qed.

Lemma lower_key_names_exact key s s' :
  lower_key_names key s = (s', Ok tt) ->
  exists d, dget key s = Some (VDict d)
            /\ dget key s' = Some (VDict (lower_keys d)).
Proof.
  unfold lower_key_names, mbind, M_bind, item, lift, set_item, modify.
  destruct (dget key s) as [v|]; [|discriminate]. cbn [of_option].
  destruct v; try discriminate. cbn [items]. intros [= <-].
  eexists. split; [done|]. by rewrite dget_dset_eq.
Qed.

Lemma prepare_values_exact names d d' :
  NoDup names ->
  prepare_values names d = (d', Ok tt) ->
  keys d' = keys d
  /\ (forall k v, k ∈ names -> dget k d = Some v ->
        exists attrs, _prepare_pattern v = Ok attrs
                      /\ dget k d' = Some (VDict attrs))
  /\ (forall k, k ∉ names -> dget k d' = dget k d).
Proof.
  unfold prepare_values. revert d.
  induction names as [|name names IH]; intros d Hnd; cbn [for_each].
  - intros [= <-]. split; [done|]. split; [|done].
    by intros k v ?%elem_of_nil.
  - apply NoDup_cons in Hnd as [Hname Hnd]. intros H.
    apply bind_returned in H as (d1 & [] & H1 & H).
    apply bind_returned in H1 as (d0 & v & Hv & H1).
    apply bind_returned in H1 as (d0' & attrs & Ha & H1).
    unfold item in Hv. injection Hv as <- Hv.
    unfold lift in Ha. injection Ha as <- Ha.
    unfold set_item, modify in H1. injection H1 as <-.
    destruct (dget name d) as [v0|] eqn:E; [|discriminate].
    cbn [of_option] in Hv. injection Hv as ->.
    destruct (IH _ Hnd H) as (Hk & Hin & Hout). split; [|split].
    + rewrite Hk. apply keys_dset_present. eauto.
    + intros k x [->|Hk']%elem_of_cons Hx.
      * rewrite (Hout _ Hname), dget_dset_eq. exists attrs.
        split; [|done]. rewrite E in Hx. by injection Hx as <-.
      * apply (Hin k x Hk').
        rewrite dget_dset_ne; [done|]. intros ->. done.
    + intros k [Hne Hk']%not_elem_of_cons. rewrite (Hout _ Hk').
      apply dget_dset_ne. congruence.
Qed.

Lemma prepare_fields_exact key s s' d :
  dget key s = Some (VDict d) -> NoDup (keys d) ->
  prepare_fields key s = (s', Ok tt) ->
  exists d', dget key s' = Some (VDict d') /\ prepared_fields d d'.
Proof.
  intros Hd Hnd. unfold prepare_fields, mbind, M_bind, item, lift, in_place.
  rewrite Hd. cbn [of_option items].
  destruct (prepare_values (keys d) d) as [d' [[]|]] eqn:E; [|discriminate].
  intros [= <-]. exists d'. rewrite dget_dset_eq.
  destruct (prepare_values_exact _ _ _ Hnd E) as (Hk & Hin & _).
  split; [done|]. split; [done|]. intros k v Hv. apply Hin; [|done].
  apply dget_elem in Hv. apply list_elem_of_fmap. by exists (k, v).
Qed.

(** X7. When [_prepare_app] returns, what the raw entry had under headers
    (an empty dictionary when the key was missing) was a dictionary, and
    what it had under meta was one or was a value that is filed under the
    name generator; each of the two keys now holds that dictionary with
    its names as the comprehension over [k.lower()] leaves them and, under
    each name, the prepared pattern of the value. *)
Theorem prepare_app_fields (raw e : dict value) :
  _prepare_app raw = (e, Ok tt) ->
  exists dh dm eh em,
    default (VDict []) (dget "headers" raw) = VDict dh
    /\ dget "headers" e = Some (VDict eh)
    /\ prepared_fields (lower_keys dh) eh
    /\ meta_value (dget "meta" raw) = VDict dm
    /\ dget "meta" e = Some (VDict em)
    /\ prepared_fields (lower_keys dm) em.
Proof.
  intros H. steps H.
  apply ensure_key_exact in Hb1, Hb2.
  apply ensure_meta_dict_exact in HC as (v & Hv & Hc).
  apply lower_key_names_exact in Hd1 as (dh & Hdh & Hdh').
  apply lower_key_names_exact in Hd2 as (dm & Hdm & Hdm').
  assert (dget "headers" e3 = Some (VDict (lower_keys dh))) as Hh3
    by (follow; done).
  assert (dget "meta" f1 = Some (VDict (lower_keys dm))) as Hm3
    by (follow; done).
  destruct (prepare_fields_exact _ _ _ _ Hh3 (proj1 (lowered_lower_keys dh)) Hf1)
    as (eh & Heh & Hph).
  destruct (prepare_fields_exact _ _ _ _ Hm3 (proj1 (lowered_lower_keys dm)) Hf2)
    as (em & Hem & Hpm).
  exists dh, dm, eh, em. split; [|split; [|split; [|split; [|split]]]].
  - revert Hdh. follow. rewrite Hb1. follow. by intros [= ->].
  - follow. done.
  - done.
  - revert Hdm. follow. rewrite Hc. intros [= <-].
    revert Hv. rewrite Hb2. follow. unfold meta_value.
    destruct (dget "meta" raw); by intros [= <-].
  - done.
  - done.
Qed.

End PrepareShape.

(** *** The exceptions [_prepare_app] raises *)

Section PrepareRaises.
Context {engine : RegexEngine}.
Implicit Types (e s : dict value).

(** AttributeError, or an exception that [re.compile] raised for some
    expression and that is no [re.error]. *)
Definition prepare_error (x : exn) : Prop :=
  x = AttributeError
  \/ exists expression (esc : escape),
       re_compile true expression = Escaped esc /\ x = exn_of_escape esc.

(** Returned, or raised one of these. *)
Definition prepare_errors_only {A : Type} (r : result A) : Prop :=
  match r with
  | Ok _ => True
  | Raise x => prepare_error x
  end.

Lemma attribute_error_is_one : prepare_error AttributeError.
Proof. by left. Qed.

Lemma bind_assoc_at {S A B C} (m : M S A) (f : A -> M S B) (g : B -> M S C)
    (s : S) :
  ((m ≫= f) ≫= g) s = (m ≫= fun a => f a ≫= g) s.
Proof. unfold mbind, M_bind. by destruct (m s) as [s' [a|x]]. Qed.

Lemma bind_raised_snd {S A B} (m : M S A) (f : A -> M S B) (s : S) x :
  (m s).2 = Raise x -> ((m ≫= f) s).2 = Raise x.
Proof.
  unfold mbind, M_bind. destruct (m s) as [s' [a|y]]; cbn [snd]; [done|].
  by intros [= ->].
Qed.

Lemma ensure_key_run key s :
  exists s', ensure_key key s = (s', Ok tt) /\ is_Some (dget key s').
Proof.
  unfold ensure_key, mbind, M_bind, get, set_item, modify.
  destruct (dget key s) as [v|] eqn:E.
  - exists s. split; [done|]. rewrite E. eauto.
  - eexists. split; [reflexivity|]. rewrite dget_dset_eq. eauto.
Qed.

Lemma ensure_meta_dict_run s :
  is_Some (dget "meta" s) ->
  exists s', ensure_meta_dict s = (s', Ok tt)
             /\ exists d, dget "meta" s' = Some (VDict d).
Proof.
  intros [v Hv]. unfold ensure_meta_dict, mbind, M_bind, item, set_item, modify.
  rewrite Hv. cbn [of_option]. destruct v; cbn [is_dict negb];
    eexists; (split; [reflexivity|]); rewrite ?dget_dset_eq; eauto.
Qed.

Lemma lower_key_names_run key s :
  is_Some (dget key s) ->
  (exists s', lower_key_names key s = (s', Ok tt)
              /\ exists d, dget key s' = Some (VDict d))
  \/ (lower_key_names key s).2 = Raise AttributeError.
Proof.
  intros [v Hv]. unfold lower_key_names, mbind, M_bind, item, lift, set_item,
    modify. rewrite Hv. cbn [of_option].
  destruct v; cbn [items]; try (by right). left.
  eexists. split; [reflexivity|]. rewrite dget_dset_eq. eauto.
Qed.

Lemma prepare_segments_later_return i segments attrs :
  exists p, prepare_segments (S i) segments attrs = Ok p.
Proof.
  revert i attrs. induction segments as [|x segments IH]; intros i attrs;
    cbn [prepare_segments prepare_segment]; [by eexists|]. apply IH.
Qed.

Lemma prepare_pattern_raises v x :
  _prepare_pattern v = Raise x -> prepare_error x.
Proof.
  destruct v; cbn [_prepare_pattern]; try (intros [= <-]; by left).
  destruct (PyStr.split s "\;") as [|expression rest];
    cbn [prepare_segments prepare_segment]; [discriminate|].
  destruct (re_compile true expression) as [r| |esc] eqn:E.
  - intros H. destruct (prepare_segments_later_return 0 rest
      (dset "regex" (VRegex r) (dset "string" (VStr expression) [])))
      as [p Hp]. congruence.
  - intros H. destruct (prepare_segments_later_return 0 rest
      (dset "regex" (VRegex re_never) (dset "string" (VStr expression) [])))
      as [p Hp]. congruence.
  - intros [= <-]. right. by exists expression, esc.
Qed.

Lemma prepare_list_raises l x :
  prepare_list l = Raise x -> prepare_error x.
Proof.
  induction l as [|v l IH]; cbn [prepare_list]; [discriminate|].
  destruct (_prepare_pattern v) as [attrs|y] eqn:E.
  - destruct (prepare_list l); [discriminate|].
    intros [= <-]. by apply IH.
  - intros [= <-]. by apply prepare_pattern_raises in E.
Qed.

Lemma prepare_patterns_run key s l :
  dget key s = Some (VList l) ->
  (exists s', prepare_patterns key s = (s', Ok tt))
  \/ exists x, (prepare_patterns key s).2 = Raise x /\ prepare_error x.
Proof.
  intros Hl. unfold prepare_patterns, mbind, M_bind, item, lift, set_item,
    modify. rewrite Hl. cbn [of_option]. unfold mbind, M_bind.
  destruct (prepare_list l) as [r|x] eqn:E.
  - left. eauto.
  - right. apply prepare_list_raises in E. by exists x.
Qed.

Lemma prepare_values_run names d :
  names ⊆ keys d ->
  prepare_errors_only (prepare_values names d).2.
Proof.
  unfold prepare_values. revert d.
  induction names as [|name names IH]; intros d Hsub; cbn [for_each]; [done|].
  assert (name ∈ keys d) as Hname by (apply Hsub; left).
  destruct (dget name d) as [v|] eqn:E.
  2:{ apply dget_None_keys in E. done. }
  unfold mbind at 1, M_bind at 1. unfold mbind at 1, M_bind at 1.
  unfold item at 1. rewrite E. cbn [of_option].
  unfold mbind at 1, M_bind at 1. unfold lift at 1.
  destruct (_prepare_pattern v) as [attrs|x] eqn:Ep.
  - unfold set_item, modify. apply IH. intros k Hk.
    rewrite keys_dset_present by eauto. apply Hsub. by right.
  - cbn. by apply prepare_pattern_raises in Ep.
Qed.

Lemma prepare_fields_run key s d :
  dget key s = Some (VDict d) ->
  (exists s', prepare_fields key s = (s', Ok tt))
  \/ exists x, (prepare_fields key s).2 = Raise x /\ prepare_error x.
Proof.
  intros Hd. unfold prepare_fields, mbind, M_bind, item, lift, in_place.
  rewrite Hd. cbn [of_option items].
  pose proof (prepare_values_run (keys d) d (reflexivity _)) as H.
  destruct (prepare_values (keys d) d) as [d' [[]|x]]; cbn in *.
  - left. eauto.
  - right. by exists x.
Qed.

Ltac framed_by lem Hs Hf :=
  match type of Hs with
  | _ ?key ?s = _ =>
      pose proof (lem key s) as Hf; rewrite Hs in Hf; cbn [fst] in Hf
  end.

Ltac next_step Hs :=
  rewrite ?bind_assoc_at; rewrite (bind_ok _ _ _ _ _ Hs); cbv beta.

Ltac chased :=
  repeat match goal with
         | H : same_elsewhere ?k ?s ?s' |- context [dget ?k' ?s'] =>
             rewrite (H k') by discriminate
         end.

Ltac raised_by Hr :=
  let x := fresh "x" in
  let Hx := fresh "Hx" in
  destruct Hr as (x & Hr & Hx);
  rewrite ?bind_assoc_at; rewrite (bind_raised_snd _ _ _ _ Hr); exact Hx.

(** X8. Whatever the raw entry holds, [_prepare_app] returns, or raises
    AttributeError, the error of a value without [items] or [split], or
    raises what [re.compile] raised for an expression and is no
    [re.error]. The keys it reads have been put there by its first steps:
    no KeyError and no TypeError leaves it. *)
Theorem prepare_app_raises_no_key_error (raw : dict value) :
  match (_prepare_app raw).2 with
  | Ok _ => True
  | Raise x =>
      x = AttributeError
      \/ exists expression (esc : escape),
           re_compile true expression = Escaped esc
           /\ x = exn_of_escape esc
  end.
Proof.
  change (prepare_errors_only (_prepare_app raw).2).
  unfold _prepare_app. cbn [for_each].
  destruct (ensure_list_run "url" raw) as (a1 & Ha1 & Pa1).
  framed_by ensure_list_frame Ha1 Fa1. next_step Ha1.
  destruct (ensure_list_run "html" a1) as (a2 & Ha2 & Pa2).
  framed_by ensure_list_frame Ha2 Fa2. next_step Ha2.
  destruct (ensure_list_run "script" a2) as (a3 & Ha3 & Pa3).
  framed_by ensure_list_frame Ha3 Fa3. next_step Ha3.
  destruct (ensure_list_run "implies" a3) as (a4 & Ha4 & Pa4).
  framed_by ensure_list_frame Ha4 Fa4. next_step Ha4.
  rewrite (bind_ok _ _ a4 a4 tt) by reflexivity.
  destruct (ensure_key_run "headers" a4) as (b1 & Hb1 & Pb1).
  framed_by ensure_key_frame Hb1 Fb1. next_step Hb1.
  destruct (ensure_key_run "meta" b1) as (b2 & Hb2 & Pb2).
  framed_by ensure_key_frame Hb2 Fb2. next_step Hb2.
  rewrite (bind_ok _ _ b2 b2 tt) by reflexivity.
  destruct (ensure_meta_dict_run b2 Pb2) as (c & HC & dm & Pc).
  pose proof (ensure_meta_dict_frame b2) as Fc. rewrite HC in Fc.
  cbn [fst] in Fc. next_step HC.
  assert (is_Some (dget "headers" c)) as Hh by (chased; done).
  destruct (lower_key_names_run "headers" c Hh) as [(d1 & Hd1 & dh & Pd1)|Hr].
  2:{ rewrite ?bind_assoc_at. rewrite (bind_raised_snd _ _ _ _ Hr).
      apply attribute_error_is_one. }
  framed_by lower_key_names_frame Hd1 Fd1. next_step Hd1.
  assert (is_Some (dget "meta" d1)) as Hm by (chased; rewrite Pc; eauto).
  destruct (lower_key_names_run "meta" d1 Hm) as [(d2 & Hd2 & dm' & Pd2)|Hr].
  2:{ rewrite ?bind_assoc_at. rewrite (bind_raised_snd _ _ _ _ Hr).
      apply attribute_error_is_one. }
  framed_by lower_key_names_frame Hd2 Fd2. next_step Hd2.
  rewrite (bind_ok _ _ d2 d2 tt) by reflexivity.
  assert (exists l, dget "url" d2 = Some (VList l)) as [lu Hu]
    by (eexists; chased; exact Pa1).
  destruct (prepare_patterns_run "url" d2 _ Hu) as [(e1 & He1)|Hr].
  2:{ raised_by Hr. }
  framed_by prepare_patterns_frame He1 Fe1. next_step He1.
  assert (exists l, dget "html" e1 = Some (VList l)) as [lh Hhtml]
    by (eexists; chased; exact Pa2).
  destruct (prepare_patterns_run "html" e1 _ Hhtml) as [(e2 & He2)|Hr].
  2:{ raised_by Hr. }
  framed_by prepare_patterns_frame He2 Fe2. next_step He2.
  assert (exists l, dget "script" e2 = Some (VList l)) as [ls Hsc]
    by (eexists; chased; exact Pa3).
  destruct (prepare_patterns_run "script" e2 _ Hsc) as [(e3 & He3)|Hr].
  2:{ raised_by Hr. }
  framed_by prepare_patterns_frame He3 Fe3. next_step He3.
  rewrite (bind_ok _ _ e3 e3 tt) by reflexivity.
  assert (dget "headers" e3 = Some (VDict dh)) as Hh3 by (chased; done).
  destruct (prepare_fields_run "headers" e3 _ Hh3) as [(f1 & Hf1)|Hr].
  2:{ raised_by Hr. }
  framed_by prepare_fields_frame Hf1 Ff1. next_step Hf1.
  assert (dget "meta" f1 = Some (VDict dm')) as Hm3 by (chased; done).
  destruct (prepare_fields_run "meta" f1 _ Hm3) as [(f2 & Hf2)|Hr].
  2:{ raised_by Hr. }
  next_step Hf2. done.
Qed.

End PrepareRaises.

(** A repeat count that [re.compile] refuses with OverflowError: the
    exception leaves [_prepare_app], the keys before [url] being set. *)
Example prepare_app_overflow :
  (_prepare_app (engine := mini_engine) [("url", VStr "a{4294967295}")]).2
  = Raise OverflowError.
Proof. vm_compute. reflexivity. Qed.

(** A raw entry of the database: a list and a bare string of patterns, a
    header name in capitals, a bare string under meta and under implies. *)
Definition raw_sample : dict (value (engine := mini_engine)) :=
  [("cats", VList [VNum 1]);
   ("url", VStr "foo");
   ("html", VList [VStr "a"; VStr "b\;confidence:50"]);
   ("headers", VDict [("X-Powered-By", VStr "PHP")]);
   ("meta", VStr "WordPress");
   ("implies", VStr "PHP")].

Lemma prepare_app_lists_witness :
  (_prepare_app raw_sample).2 = Ok tt
  /\ (exists r, dget "html" (_prepare_app raw_sample).1 = Some (VList r)
                /\ Forall2 prepared [VStr "a"; VStr "b\;confidence:50"] r)
  /\ dget "implies" (_prepare_app raw_sample).1 = Some (VList [VStr "PHP"]).
Proof.
  assert ((_prepare_app raw_sample).2 = Ok tt) as H by (vm_compute; reflexivity).
  destruct (prepare_app_lists raw_sample _ (pair_of_snd _ _ H)) as [Hl Hi].
  split; [exact H|]. split; [|exact Hi].
  apply (Hl "html"). right. left.
Defined.

Lemma prepare_app_fields_witness :
  (_prepare_app raw_sample).2 = Ok tt
  /\ exists dh dm eh em,
       default (VDict []) (dget "headers" raw_sample) = VDict dh
       /\ dget "headers" (_prepare_app raw_sample).1 = Some (VDict eh)
       /\ prepared_fields (lower_keys dh) eh
       /\ meta_value (dget "meta" raw_sample) = VDict dm
       /\ dget "meta" (_prepare_app raw_sample).1 = Some (VDict em)
       /\ prepared_fields (lower_keys dm) em.
Proof.
  assert ((_prepare_app raw_sample).2 = Ok tt) as H by (vm_compute; reflexivity).
  split; [exact H|].
  exact (prepare_app_fields raw_sample _ (pair_of_snd _ _ H)).
Defined.

Lemma prepare_app_other_keys_witness :
  ("cats" ∉ prepared_keys)
  /\ dget "cats" (_prepare_app raw_sample).1 = dget "cats" raw_sample.
Proof.
  assert ("cats" ∉ prepared_keys) as H.
  { intros H. unfold prepared_keys in H.
    repeat (apply elem_of_cons in H as [H|H]; [discriminate|]).
    by apply elem_of_nil in H. }
  split; [exact H|]. exact (prepare_app_other_keys raw_sample "cats" H).
Defined.

(** ** Names that differ in case only *)

Section LowerKeys.
Context {engine : RegexEngine}.

(** The value of the last item of [d] whose name is [k] in lower case. *)
Fixpoint last_named (k : string) (d : dict value) : option value :=
  match d with
  | [] => None
  | (k', v) :: d' =>
      match last_named k d' with
      | Some x => Some x
      | None => if String.eqb (PyStr.lower k') k then Some v else None
      end
  end.

Lemma lower_keys_from d acc k :
  dget k (fold_left (fun acc kv => dset (PyStr.lower kv.1) kv.2 acc) d acc)
  = match last_named k d with
    | Some x => Some x
    | None => dget k acc
    end.
Proof.
  revert acc. induction d as [|[k' v] d IH]; intros acc; [done|].
  cbn [fold_left last_named fst snd]. rewrite IH.
  destruct (last_named k d) as [x|]; [done|].
  destruct (String.eqb (PyStr.lower k') k) eqn:E.
  - apply String.eqb_eq in E as <-. apply dget_dset_eq.
  - apply String.eqb_neq in E. by apply dget_dset_ne.
Qed.

(** X9. In the dictionary the comprehension over [k.lower()] builds, a
    name holds the value of the last item of the original whose name is
    that name up to case: of two headers that differ in case only, the
    later one is kept. *)
Theorem lower_keys_lookup (d : dict value) (k : string) :
  dget k (lower_keys d) = last_named k d.
Proof.
  unfold lower_keys. rewrite lower_keys_from. by destruct (last_named k d).
Qed.

End LowerKeys.

(** ** [Wappalyzer.__init__] *)

Section Init.
Context {engine : RegexEngine}.

(** [for name, app in list(self.apps.items()): self._prepare_app(app)]:
    each entry is mutated where the store holds it; subscripting an entry
    that is no dictionary with a string is a TypeError. *)
Fixpoint prepare_apps (apps : dict value) : dict value * result unit :=
  match apps with
  | [] => ([], Ok tt)
  | (name, v) :: rest =>
      match v with
      | VDict e =>
          match _prepare_app e with
          | (e', Ok _) =>
              let '(rest', r) := prepare_apps rest in
              ((name, VDict e') :: rest', r)
          | (e', Raise x) => ((name, VDict e') :: rest, Raise x)
          end
      | _ => (apps, Raise TypeError)
      end
  end.

(** The state is the pair of [self.categories] and [self.apps]. *)
Definition __init__ (categories apps : dict value)
  : (dict value * dict value) * result unit :=
  let '(apps', r) := prepare_apps apps in ((categories, apps'), r).

(** The entry [x'] is what [_prepare_app] returned for the entry [x]. *)
Definition entry_prepared (x x' : string * value) : Prop :=
  x'.1 = x.1
  /\ exists e e', x.2 = VDict e /\ x'.2 = VDict e'
                  /\ _prepare_app e = (e', Ok tt) /\ normalized e'.

Lemma prepare_apps_returned apps apps' :
  prepare_apps apps = (apps', Ok tt) -> Forall2 entry_prepared apps apps'.
Proof.
  revert apps'. induction apps as [|[name v] apps IH]; intros apps';
    cbn [prepare_apps].
  - intros [= <-]. constructor.
  - destruct v; try discriminate.
    destruct (_prepare_app d) as [e' [[]|x]] eqn:E; [|discriminate].
    destruct (prepare_apps apps) as [rest' r]. intros [= <- ->].
    constructor; [|by apply IH]. split; [done|]. exists d, e'.
    eauto using prepare_app_normalized.
Qed.

(** X10. When [Wappalyzer.__init__] returns, the categories are the ones
    given, and the store holds the same names in the same order, each entry
    being a dictionary that [_prepare_app] returned for and left
    normalized. *)
Theorem init_prepares_every_entry (categories apps c apps' : dict value) :
  __init__ categories apps = ((c, apps'), Ok tt) ->
  c = categories /\ Forall2 entry_prepared apps apps'.
Proof.
  unfold __init__. destruct (prepare_apps apps) as [apps0 r] eqn:E.
  intros [= <- <- ->]. split; [done|]. by apply prepare_apps_returned.
Qed.

(** Whether [_prepare_app] returns for the entry. *)
Definition prepares (x : string * value) : bool :=
  match x.2 with
  | VDict e => match (_prepare_app e).2 with Ok _ => true | Raise _ => false end
  | _ => false
  end.

(** The entry as a call of [_prepare_app] leaves it. *)
Definition after_prepare (x : string * value) : string * value :=
  match x.2 with
  | VDict e => (x.1, VDict (_prepare_app e).1)
  | _ => x
  end.

(** A value as [json.load] returns it: there is no compiled pattern in
    it. *)
Fixpoint from_json (v : value) : bool :=
  match v with
  | VRegex _ => false
  | VList l => forallb from_json l
  | VDict d => forallb (fun kv : string * value => from_json kv.2) d
  | _ => true
  end.

(** X11. On a store as [json.load] returns it, [Wappalyzer.__init__]
    stops at the first entry for which [_prepare_app] raises: it raises
    what that call raises (TypeError when the entry is no dictionary), the
    entries before that one are prepared, that one is left as the failing
    call left it, and the entries after it are untouched. *)
Theorem init_stops_at_first_error (categories : dict value)
    (before after : dict value) (x : string * value) :
  from_json x.2 = true ->
  forallb prepares before = true ->
  prepares x = false ->
  exists e,
    __init__ categories (before ++ x :: after)%list
    = ((categories, map after_prepare before ++ after_prepare x :: after)%list,
       Raise e)
    /\ match x.2 with
       | VDict d => (_prepare_app d).2 = Raise e
       | _ => e = TypeError
       end.
Proof.
  intros _ Hb Hx. unfold __init__.
  assert (exists e, prepare_apps (before ++ x :: after)%list
                    = ((map after_prepare before ++ after_prepare x :: after)%list,
                       Raise e)
                    /\ match x.2 with
                       | VDict d => (_prepare_app d).2 = Raise e
                       | _ => e = TypeError
                       end) as (e & -> & He); [|by exists e].
  induction before as [|[name v] before IH].
  - destruct x as [name v]. unfold prepares, after_prepare in *.
    cbn [fst snd List.app map prepare_apps] in *.
    destruct v; try (by eexists).
    destruct (_prepare_app d) as [e' [[]|y]]; [discriminate|]. by eexists.
  - cbn [forallb] in Hb. apply andb_true_iff in Hb as [Hv Hb].
    destruct (IH Hb) as (e & He & Hx'). exists e. split; [|exact Hx'].
    unfold prepares in Hv. cbn [snd] in Hv.
    destruct v; try discriminate.
    cbn [List.app map prepare_apps]. unfold after_prepare at 1. cbn [fst snd].
    destruct (_prepare_app d) as [e' [[]|y]]; [|discriminate].
    by rewrite He.
Qed.

End Init.

(** A store of two raw entries, the second of which holds a number where
    a pattern is expected. *)
Definition raw_store_ok : dict (value (engine := mini_engine)) :=
  [("A", VDict raw_sample)].

Definition raw_broken : string * value (engine := mini_engine) :=
  ("B", VDict [("html", VNum 3)]).

Lemma init_prepares_every_entry_witness :
  (__init__ [] raw_store_ok).2 = Ok tt
  /\ Forall2 entry_prepared raw_store_ok (__init__ [] raw_store_ok).1.2.
Proof.
  assert ((__init__ [] raw_store_ok).2 = Ok tt) as H
    by (vm_compute; reflexivity).
  split; [exact H|].
  assert (__init__ [] raw_store_ok
          = (((__init__ [] raw_store_ok).1.1, (__init__ [] raw_store_ok).1.2),
             Ok tt)) as H'.
  { rewrite <- H. by destruct (__init__ [] raw_store_ok) as [[] ?]. }
  exact (proj2 (init_prepares_every_entry [] raw_store_ok _ _ H')).
Defined.

(** An entry with a repeat count that [re.compile] refuses, and the
    entries that come after the failing one. *)
Definition raw_overflow : string * value (engine := mini_engine) :=
  ("C", VDict [("url", VStr "a{4294967295}")]).

Definition raw_later : dict (value (engine := mini_engine)) :=
  [("D", VDict [("html", VStr "x")])].

Lemma init_stops_at_first_error_witness :
  (from_json raw_broken.2 = true
   /\ forallb prepares raw_store_ok = true
   /\ prepares raw_broken = false
   /\ exists e,
        __init__ [] (raw_store_ok ++ raw_broken :: raw_later)%list
        = (([], map after_prepare raw_store_ok
                ++ after_prepare raw_broken :: raw_later)%list, Raise e)
        /\ (_prepare_app [("html", VNum 3)]).2 = Raise e)
  /\ exists e,
       __init__ [] (raw_store_ok ++ raw_overflow :: raw_later)%list
       = (([], map after_prepare raw_store_ok
               ++ after_prepare raw_overflow :: raw_later)%list, Raise e)
       /\ (_prepare_app [("url", VStr "a{4294967295}")]).2 = Raise e.
Proof.
  assert (forallb prepares raw_store_ok = true) as H1
    by (vm_compute; reflexivity).
  assert (prepares raw_broken = false) as H2 by (vm_compute; reflexivity).
  assert (from_json raw_broken.2 = true) as H0 by reflexivity.
  assert (prepares raw_overflow = false) as H3 by (vm_compute; reflexivity).
  assert (from_json raw_overflow.2 = true) as H4 by reflexivity.
  split.
  - split; [exact H0|]. split; [exact H1|]. split; [exact H2|].
    exact (init_stops_at_first_error [] raw_store_ok raw_later raw_broken
             H0 H1 H2).
  - exact (init_stops_at_first_error [] raw_store_ok raw_later raw_overflow
             H4 H1 H3).
Defined.

(** The exception of the second store is OverflowError; the failing entry
    is left with its [url] coerced to a list and the keys that were set
    before the patterns were prepared. *)
Example init_overflow :
  (__init__ (engine := mini_engine) []
     (raw_store_ok ++ raw_overflow :: raw_later)%list).2
  = Raise OverflowError
  /\ after_prepare raw_overflow
     = ("C", VDict [("url", VList [VStr "a{4294967295}"]);
                    ("html", VList []); ("script", VList []);
                    ("implies", VList []); ("headers", VDict []);
                    ("meta", VDict [])]).
Proof. split; [vm_compute; reflexivity|reflexivity]. Qed.


(** ** Sorting the versions *)

Section SortingMore.
Context {engine : RegexEngine}.

(** The versions of [l] that are [n] characters long, in order. *)
Definition of_length (n : nat) (l : list string) : list string :=
  filter (fun v => String.length v = n) l.

Lemma of_length_longer n y l :
  (n < String.length y)%nat -> Forall (by_length y) l ->
  of_length n (y :: l) = [].
Proof.
  intros Hy Hl. unfold of_length. rewrite filter_cons_False by lia.
  induction Hl as [|z l Hz _ IH]; [done|].
  unfold by_length in Hz. rewrite filter_cons_False by lia. exact IH.
Qed.

Lemma insert_sorted_of_length n x l :
  StronglySorted by_length l ->
  of_length n (insert_sorted (_cmp_to_key _sort_app_versions) x l)
  = (of_length n l ++ of_length n [x])%list.
Proof.
  induction 1 as [|y l Hl IH Hy]; cbn [insert_sorted]; [done|].
  destruct ((_cmp_to_key _sort_app_versions) x y) eqn:E.
  - apply cmp_lt_length in E. unfold of_length at 1.
    destruct (decide (String.length x = n)) as [Hx|Hx].
    + rewrite filter_cons_True by done. fold (of_length n (y :: l)).
      rewrite (of_length_longer n y l) by (done || lia).
      unfold of_length. by rewrite filter_cons_True.
    + rewrite filter_cons_False by done. fold (of_length n (y :: l)).
      unfold of_length at 3. rewrite filter_cons_False by done.
      by rewrite filter_nil, app_nil_r.
  - unfold of_length at 1 2.
    destruct (decide (String.length y = n)) as [Hn|Hn].
    + rewrite !filter_cons_True by done.
      fold (of_length n
              (insert_sorted (_cmp_to_key _sort_app_versions) x l)).
      rewrite IH. done.
    + rewrite !filter_cons_False by done.
      fold (of_length n
              (insert_sorted (_cmp_to_key _sort_app_versions) x l)).
      rewrite IH. done.
Qed.

Lemma sorted_from_of_length n l acc :
  StronglySorted by_length acc ->
  of_length n
    (fold_left (fun acc x =>
                  insert_sorted (_cmp_to_key _sort_app_versions) x acc) l acc)
  = (of_length n acc ++ of_length n l)%list.
Proof.
  revert acc. induction l as [|x l IH]; intros acc Hacc; cbn [fold_left].
  - unfold of_length at 3. by rewrite filter_nil, app_nil_r.
  - rewrite IH by (by apply insert_sorted_by_length).
    rewrite insert_sorted_of_length by done. rewrite <- app_assoc. f_equal.
    unfold of_length. by rewrite <- filter_app.
Qed.

Lemma insert_sorted_last x l :
  Forall (fun y => by_length y x) l ->
  insert_sorted (_cmp_to_key _sort_app_versions) x l = (l ++ [x])%list.
Proof.
  induction 1 as [|y l Hy _ IH]; cbn [insert_sorted]; [done|].
  destruct ((_cmp_to_key _sort_app_versions) x y) eqn:E.
  - apply cmp_lt_length in E. unfold by_length in Hy. lia.
  - by rewrite IH.
Qed.

Lemma sorted_before x (l1 l2 : list string) :
  StronglySorted by_length (l1 ++ x :: l2) ->
  Forall (fun y => by_length y x) l1.
Proof.
  induction l1 as [|y l1 IH]; cbn [List.app]; [constructor|].
  intros H. apply StronglySorted_inv in H as [H Hy].
  constructor; [|by apply IH].
  apply Forall_app in Hy as [_ Hy]. by apply Forall_cons in Hy as [Hy _].
Qed.

Lemma sorted_from_sorted l acc :
  StronglySorted by_length (acc ++ l) ->
  fold_left (fun acc x =>
               insert_sorted (_cmp_to_key _sort_app_versions) x acc) l acc
  = (acc ++ l)%list.
Proof.
  revert acc. induction l as [|x l IH]; intros acc H; cbn [fold_left].
  - by rewrite app_nil_r.
  - rewrite insert_sorted_last by (by eapply sorted_before).
    rewrite IH; rewrite <- app_assoc; done.
Qed.

(** X12. [_set_app_version] only reorders, and reorders stably: the list
    it leaves is a permutation of the list it found, sorted by length, in
    which the versions of one length are in the order they had; nothing
    else of the entry changes, and an entry without versions is left as it
    is. *)
Theorem set_app_version_reorders_stably (a : app) :
  match versions a with
  | None => _set_app_version a = a
  | Some vs =>
      exists vs',
        _set_app_version a = set_versions (Some vs') a
        /\ vs' ≡ₚ vs
        /\ StronglySorted by_length vs'
        /\ forall n, of_length n vs' = of_length n vs
  end.
Proof.
  unfold _set_app_version. destruct (versions a) as [vs|]; [|done].
  exists (sorted (_cmp_to_key _sort_app_versions) vs). split; [done|].
  split; [apply sorted_perm|].
  split; [apply sorted_by_length|]. intros n. unfold sorted.
  rewrite sorted_from_of_length by constructor. done.
Qed.

(** X13. Sorting again changes nothing: [_set_app_version] applied to an
    entry it has been applied to leaves the entry as it is. *)
Theorem set_app_version_twice (a : app) :
  _set_app_version (_set_app_version a) = _set_app_version a.
Proof.
  destruct (versions a) as [vs|] eqn:E.
  - assert (_set_app_version a
            = set_versions
                (Some (sorted (_cmp_to_key _sort_app_versions) vs)) a) as ->
      by (unfold _set_app_version; by rewrite E).
    unfold _set_app_version, set_versions.
    cbn [cats url html script headers meta implies detected confidence
         confidenceTotal versions].
    do 2 f_equal. unfold sorted at 1.
    apply (sorted_from_sorted _ []), sorted_by_length.
  - assert (_set_app_version a = a) as Ha
      by (unfold _set_app_version; by rewrite E).
    by rewrite !Ha.
Qed.

End SortingMore.

(** ** What an analysis leaves of an entry *)

Section Signature.
Context {engine : RegexEngine}.

(** [p'] is [p] but for the form of its confidence, which denotes the same
    integer. *)
Definition alike (p p' : pattern) : Prop :=
  (forall k, k <> "confidence" -> dget k p' = dget k p)
  /\ weight_of p' = weight_of p.

Definition alike_field (x x' : string * pattern) : Prop :=
  x'.1 = x.1 /\ alike x.2 x'.2.

(** A list of versions without a duplicate and without the empty string. *)
Definition tidy (vs : option (list string)) : Prop :=
  match vs with
  | None => True
  | Some l => NoDup l /\ "" ∉ l
  end.

(** [a'] has the categories, the implications and, pattern for pattern,
    the signature of [a]; its versions are tidy when those of [a] are. *)
Record keeps (a a' : app) : Prop := Keeps {
  k_cats : cats a' = cats a;
  k_implies : implies a' = implies a;
  k_url : Forall2 alike (url a) (url a');
  k_html : Forall2 alike (html a) (html a');
  k_script : Forall2 alike (script a) (script a');
  k_headers : Forall2 alike_field (headers a) (headers a');
  k_meta : Forall2 alike_field (meta a) (meta a');
  k_tidy : tidy (versions a) -> tidy (versions a')
}.

#[export] Instance alike_preorder : PreOrder alike.
Proof.
  split.
  - by intros p.
  - intros p q r [H1 H2] [H3 H4]. split; [|congruence].
    intros k Hk. by rewrite (H3 k Hk), (H1 k Hk).
Qed.

#[export] Instance alike_field_preorder : PreOrder alike_field.
Proof.
  split.
  - intros x. split; reflexivity.
  - intros x y z [H1 H2] [H3 H4]. split; [congruence|by etransitivity].
Qed.

Lemma Forall2_preorder {A} (Q : relation A) `{!PreOrder Q} :
  PreOrder (Forall2 Q).
Proof.
  split.
  - intros l. induction l; constructor; [reflexivity|done].
  - intros x y z Hxy. revert z.
    induction Hxy as [|a b x y Hab _ IH]; intros z Hyz; [done|].
    inversion Hyz as [|? c ? z' Hbc Hrest]; subst.
    constructor; [by etransitivity|by apply IH].
Qed.

#[export] Instance keeps_preorder : PreOrder keeps.
Proof.
  pose proof (Forall2_preorder alike) as [Ra Ta].
  pose proof (Forall2_preorder alike_field) as [Rf Tf].
  split.
  - intros a. by constructor.
  - intros a b c [] []. constructor; try congruence; try (by etransitivity).
    auto.
Qed.

(** On the state of [_set_detected_app]: the entry and the pattern. *)
Definition both : relation (app * pattern) :=
  fun st st' => keeps st.1 st'.1 /\ alike st.2 st'.2.

#[export] Instance both_preorder : PreOrder both.
Proof.
  split.
  - intros st. split; reflexivity.
  - intros x y z [H1 H2] [H3 H4]. split; by etransitivity.
Qed.

Lemma both_on_app (f : app -> app) :
  (forall a, keeps a (f a)) -> stable both (on_app f).
Proof. intros H [a p]. split; [apply H|reflexivity]. Qed.

Lemma both_attr key : stable both (attr key).
Proof. intros [a p]. reflexivity. Qed.

Lemma keeps_set_detected v a : keeps a (set_detected v a).
Proof. by constructor. Qed.

Lemma keeps_set_confidence v a : keeps a (set_confidence v a).
Proof. by constructor. Qed.

Lemma keeps_set_confidenceTotal v a : keeps a (set_confidenceTotal v a).
Proof. by constructor. Qed.

Lemma keeps_new_confidence a :
  keeps a (match confidence a with
           | None => set_confidence (Some ∅) a
           | Some _ => a
           end).
Proof. destruct (confidence a); [reflexivity|apply keeps_set_confidence]. Qed.

Lemma keeps_add_version v a : keeps a (add_version v a).
Proof.
  unfold add_version. destruct (String.eqb v "") eqn:Ev; [reflexivity|].
  apply String.eqb_neq in Ev.
  destruct (versions a) as [vs|] eqn:E.
  - destruct (bool_decide (v ∈ vs)) eqn:Hin; [reflexivity|].
    apply bool_decide_eq_false in Hin.
    constructor; try done. rewrite E. cbn [versions set_versions tidy].
    intros [Hnd He]. split.
    + apply NoDup_app. split; [done|]. split; [|apply NoDup_singleton].
      intros x Hx ->%list_elem_of_singleton. done.
    + rewrite elem_of_app, list_elem_of_singleton. intros [?|?]; [done|].
      congruence.
  - constructor; try done. intros _. cbn [versions set_versions tidy]. split.
    + apply NoDup_singleton.
    + rewrite list_elem_of_singleton. congruence.
Qed.

Lemma keeps_set_app_version a : keeps a (_set_app_version a).
Proof.
  unfold _set_app_version. destruct (versions a) as [vs|] eqn:E; [|reflexivity].
  constructor; try done. rewrite E. cbn [versions set_versions tidy].
  intros [Hnd He]. split.
  - by rewrite sorted_perm.
  - by rewrite elem_of_sorted.
Qed.

Ltac both_step :=
  match goal with
  | |- stable _ (mret _) => apply stable_ret; apply _
  | |- stable _ (raise _) => apply stable_raise; apply _
  | |- stable _ (lift _) => apply stable_lift; apply _
  | |- stable _ (attr _) => apply both_attr
  | |- stable _ (on_app _) => apply both_on_app
  | |- stable _ (get ≫= _) => apply stable_get_all; intros ?
  | |- stable _ (_ ≫= _) => apply stable_bind; [apply _| |intros ?]
  | |- stable _ (for_each _ _) => apply stable_for_each; [apply _|intros ?]
  | |- stable _ (for_any _ _) => apply stable_for_any; [apply _|intros ?]
  | |- stable _ (if ?b then _ else _) => destruct b
  | |- stable _ (match ?x with _ => _ end) => destruct x
  end.

Lemma both_detect_versions version allmatches :
  stable both (detect_versions version allmatches).
Proof.
  unfold detect_versions. repeat both_step.
  intros a. apply keeps_add_version.
Qed.

Lemma related_bind {S A B} (R : relation S) `{!PreOrder R}
    (m : M S A) (f : A -> M S B) (s : S) :
  R s (m s).1 -> (forall a, stable R (f a)) -> R s ((m ≫= f) s).1.
Proof.
  intros Hm Hf. unfold mbind, M_bind.
  destruct (m s) as [s' [a|e]]; cbn [fst] in *; [|done].
  etransitivity; [exact Hm|apply Hf].
Qed.

Lemma alike_confidence p c :
  weight_of p = Some c -> alike p (dset "confidence" (VNum c) p).
Proof.
  intros Hc. split.
  - intros k Hk. apply dget_dset_ne. congruence.
  - unfold weight_of at 1. by rewrite dget_dset_eq.
Qed.

Lemma both_set_detected_app app_name app_type value key :
  stable both (_set_detected_app app_name app_type value key).
Proof.
  unfold _set_detected_app.
  apply stable_bind; [apply _|apply both_on_app, keeps_set_detected|intros _].
  apply stable_bind; [apply _|apply both_on_app, keeps_new_confidence|intros _].
  apply stable_get_bind. intros [a p]. cbn [snd].
  set (st := (a, p)).
  assert (forall c, weight_of p = Some c ->
            both st ((on_pattern (dset "confidence" (VNum c)) ≫= fun _ =>
                      string_ ← attr "string";
                      string_ ← lift (str_operand string_);
                      on_app (fun a => set_confidence
                        (Some (<[label app_type
                                   (if negb (String.eqb key "")
                                    then key +:+ " " else key) string_ := c]>
                                 (default ∅ (confidence a)))) a) ;;
                      (if dhas "version" p
                       then
                         regex_ ← attr "regex";
                         allmatches ← lift (findall_value regex_ value);
                         version ← attr "version";
                         detect_versions version allmatches ;;
                         on_app _set_app_version
                       else mret tt) ;;
                      mret app_name) st).1) as Hrest.
  { intros c Hc. apply related_bind; [apply _| |].
    - split; [reflexivity|]. by apply alike_confidence.
    - intros _.
      repeat (first [apply both_detect_versions | both_step]);
        intros ?; auto using keeps_set_confidence, keeps_set_app_version. }
  unfold mbind at 1, M_bind at 1.
  destruct (dget "confidence" p) as [v|] eqn:Ec.
  - unfold lift at 1. destruct (int_of_value v) as [c|x] eqn:Ei.
    + refine (Hrest c _). unfold weight_of. by rewrite Ec, Ei.
    + reflexivity.
  - refine (Hrest 100 _). unfold weight_of. by rewrite Ec.
Qed.

Lemma both_check app_name app_type value key :
  stable both (check app_name app_type value key).
Proof.
  unfold check.
  repeat (first [apply both_set_detected_app | both_step]).
Qed.

Lemma both_check_field app_name app_type mapping name :
  stable both (check_field app_name app_type mapping name).
Proof.
  unfold check_field. destruct (mapping name).
  - apply both_check.
  - apply stable_ret. apply _.
Qed.

Lemma keeps_facet_loop {X : Type} (Q : relation X) `{!PreOrder Q}
    (facet : app -> list X) (store : list X -> app -> app)
    (body : M (app * X) bool) :
  (forall a x, keeps a (body (a, x)).1.1 /\ Q x (body (a, x)).1.2) ->
  (forall a a' xs, keeps a a' -> Forall2 Q (facet a) xs ->
                   keeps a (store xs a')) ->
  stable keeps (facet_loop facet store body).
Proof.
  intros Hbody Hstore a. unfold facet_loop.
  destruct (for_mut_stable keeps Q body Hbody (facet a) a) as [H1 H2].
  destruct (for_mut body (facet a) a) as [[a' xs] r]. cbn [fst snd] in *.
  by apply Hstore.
Qed.

Lemma keeps_has_app app_name webpage :
  stable keeps (_has_app app_name webpage).
Proof.
  unfold _has_app.
  repeat match goal with
         | |- stable _ (_ ≫= _) => apply stable_bind; [apply _| |intros ?]
         end.
  - apply (keeps_facet_loop alike).
    + intros e0 p0. apply (both_check _ _ _ _ (e0, p0)).
    + intros e0 e1 xs [] Hxs. by constructor.
  - apply (keeps_facet_loop alike_field).
    + intros e0 [name p0]. unfold keyed.
      pose proof (both_check_field app_name "headers"
                    (WebPage.headers webpage) name (e0, p0)) as [H1 H2].
      destruct (check_field _ _ _ _ _) as [[e1 p1] r]. by split.
    + intros e0 e1 xs [] Hxs. by constructor.
  - apply (keeps_facet_loop alike).
    + intros e0 p0.
      assert (stable both (for_any (WebPage.scripts webpage)
                (fun script => check app_name "script" script ""))) as H.
      { apply stable_for_any; [apply _|]. intros x. apply both_check. }
      apply (H (e0, p0)).
    + intros e0 e1 xs [] Hxs. by constructor.
  - apply (keeps_facet_loop alike_field).
    + intros e0 [name p0]. unfold keyed.
      pose proof (both_check_field app_name "meta"
                    (WebPage.meta webpage) name (e0, p0)) as [H1 H2].
      destruct (check_field _ _ _ _ _) as [[e1 p1] r]. by split.
    + intros e0 e1 xs [] Hxs. by constructor.
  - apply (keeps_facet_loop alike).
    + intros e0 p0. apply (both_check _ _ _ _ (e0, p0)).
    + intros e0 e1 xs [] Hxs. by constructor.
  - destruct (_ || _); [|apply stable_ret; apply _].
    apply stable_get_bind. intros s. destruct (confidence s); cbn.
    + apply keeps_set_confidenceTotal.
    + reflexivity.
  - apply stable_ret. apply _.
Qed.

(** Store to store. *)
Definition entry_kept (x x' : string * app) : Prop :=
  x'.1 = x.1 /\ keeps x.2 x'.2.

#[export] Instance entry_kept_preorder : PreOrder entry_kept.
Proof.
  split.
  - intros x. split; reflexivity.
  - intros x y z [H1 H2] [H3 H4]. split; [congruence|by etransitivity].
Qed.

Lemma kept_analyze webpage apps :
  Forall2 entry_kept apps (analyze webpage apps).1.
Proof.
  assert (Forall2 entry_kept apps (direct_apps webpage apps).1.2) as H.
  { unfold direct_apps.
    destruct (for_mut_stable anything entry_kept (analyze_entry webpage))
      with (l := apps) (s := (∅ : gset string)) as [_ H]; [|exact H].
    intros s [name a]. split; [done|]. unfold analyze_entry.
    pose proof (keeps_has_app name webpage a) as Ha.
    destruct (_has_app name webpage a) as [a' [[]|e]]; by split. }
  unfold analyze.
  destruct (direct_apps webpage apps) as [[detected_apps apps'] [b|e]];
    cbn [fst snd] in *; [|done].
  by destruct (_get_implied_apps apps' detected_apps).
Qed.

(** The signature of an entry: what [_has_app] matches and counts. *)
Record same_signature (a a' : app) : Prop := SameSignature {
  s_cats : cats a' = cats a;
  s_implies : implies a' = implies a;
  s_url : Forall2 alike (url a) (url a');
  s_html : Forall2 alike (html a) (html a');
  s_script : Forall2 alike (script a) (script a');
  s_headers : Forall2 alike_field (headers a) (headers a');
  s_meta : Forall2 alike_field (meta a) (meta a')
}.

(** X14. Whatever the page and the store, and whether [analyze] returns or
    raises, the store it leaves has the same names in the same order, and
    each entry has the categories, the implications and the patterns it
    had: pattern for pattern every attribute but confidence is untouched,
    and confidence denotes the same integer (it is rewritten from its
    string into that integer when the pattern fires). *)
Theorem analyze_keeps_signatures (w : WebPage.t) (apps : dict app) :
  Forall2 (fun x x' : string * app => x'.1 = x.1 /\ same_signature x.2 x'.2)
    apps (analyze w apps).1.
Proof.
  eapply Forall2_impl; [apply kept_analyze|].
  intros x x' [Hn []]. split; [done|]. by constructor.
Qed.

(** X15. The version lists stay free of duplicates and of the empty
    string: when no entry of the store lists a version twice or lists the
    empty version, none does after [analyze], returned or raised. *)
Theorem analyze_keeps_versions_tidy (w : WebPage.t) (apps : dict app) :
  Forall (fun x : string * app => tidy (versions x.2)) apps ->
  Forall (fun x : string * app => tidy (versions x.2)) (analyze w apps).1.
Proof.
  intros H. pose proof (kept_analyze w apps) as Hk.
  induction Hk as [|x x' l l' [_ Hx] _ IH]; [constructor|].
  apply Forall_cons in H as [H1 H2]. constructor; [|by apply IH].
  by apply (k_tidy _ _ Hx).
Qed.

End Signature.

Lemma analyze_keeps_versions_tidy_witness :
  Forall (fun x : string * app => tidy (versions x.2)) lib_store
  /\ Forall (fun x : string * app => tidy (versions x.2))
       (analyze lib_page lib_store).1.
Proof.
  assert (Forall (fun x : string * app => tidy (versions x.2)) lib_store) as H.
  { repeat constructor. }
  split; [exact H|].
  exact (analyze_keeps_versions_tidy lib_page lib_store H).
Defined.

(** ** A page on which nothing matches *)

Section Quiet.
Context {engine : RegexEngine}.

Lemma for_mut_idle {S X : Type} (body : M (S * X) bool) (l : list X) (s : S) :
  (forall x, x ∈ l -> body (s, x) = ((s, x), Ok false)) ->
  for_mut body l s = ((s, l), Ok false).
Proof.
  induction l as [|x l IH]; intros H; cbn [for_mut]; [done|].
  rewrite (H x) by left. rewrite IH; [done|]. intros y Hy. apply H. by right.
Qed.

Lemma check_idle app_name app_type value key a p :
  pattern_ok p = true -> fires p value = false ->
  check app_name app_type value key (a, p) = ((a, p), Ok false).
Proof.
  intros Hok Hf. unfold check, mbind, M_bind, get, lift. cbn [fst snd].
  by rewrite (search_value_ok _ _ Hok), Hf.
Qed.

Lemma events_value_nil app_type key value p :
  events_value app_type key value p = [] -> fires p value = false.
Proof. unfold events_value. by destruct (fires p value). Qed.

Lemma flat_map_nil {A B} (f : A -> list B) (l : list A) :
  flat_map f l = [] -> forall x, x ∈ l -> f x = [].
Proof.
  induction l as [|y l IH]; cbn [flat_map]; [by intros _ x ?%elem_of_nil|].
  intros [H1 H2]%app_eq_nil x [->|Hx]%elem_of_cons; [done|by apply IH].
Qed.

Lemma forallb_elem {A} (f : A -> bool) (l : list A) x :
  forallb f l = true -> x ∈ l -> f x = true.
Proof.
  intros H Hx. rewrite forallb_forall in H. by apply H, list_elem_of_In.
Qed.

Lemma scripts_idle app_name scripts a p :
  pattern_ok p = true -> events_script scripts p = [] ->
  for_any scripts (fun script => check app_name "script" script "") (a, p)
  = ((a, p), Ok false).
Proof.
  intros Hok. unfold events_script.
  induction scripts as [|x scripts IH]; cbn [flat_map for_any]; [done|].
  intros [H1 H2]%app_eq_nil. unfold mbind, M_bind.
  rewrite (check_idle _ _ _ _ _ _ Hok (events_value_nil _ _ _ _ H1)).
  unfold mbind, M_bind in IH. by rewrite (IH H2).
Qed.

Lemma field_idle app_name app_type mapping a name p :
  pattern_ok p = true -> events_field app_type mapping (name, p) = [] ->
  keyed (check_field app_name app_type mapping) (a, (name, p))
  = ((a, (name, p)), Ok false).
Proof.
  intros Hok. unfold events_field, keyed, check_field. cbn [fst snd].
  destruct (mapping name) as [content|]; [|done].
  intros H. by rewrite (check_idle _ _ _ _ _ _ Hok (events_value_nil _ _ _ _ H)).
Qed.

Lemma has_app_idle app_name w a :
  app_ok a = true -> firing_events a w = [] ->
  _has_app app_name w a = (a, Ok false).
Proof.
  intros Hok Hev. apply app_ok_facets in Hok as (Hu & Hh & Hs & Hhd & Hm).
  unfold firing_events, detecting_events in Hev.
  apply app_eq_nil in Hev as [Eu Hev]. apply app_eq_nil in Hev as [Ehd Hev].
  apply app_eq_nil in Hev as [Es Hev]. apply app_eq_nil in Hev as [Em Eh].
  unfold _has_app, mbind, M_bind, facet_loop.
  rewrite for_mut_idle.
  2:{ intros p Hp. apply check_idle; [apply (forallb_elem _ _ _ Hu Hp)|].
      eapply events_value_nil, (flat_map_nil _ _ Eu), Hp. }
  assert (set_url (url a) a = a) as -> by (by destruct a).
  rewrite for_mut_idle.
  2:{ intros [name p] Hp. apply field_idle.
      - apply (forallb_elem _ _ _ Hhd Hp).
      - apply (flat_map_nil _ _ Ehd), Hp. }
  assert (set_headers (headers a) a = a) as -> by (by destruct a).
  rewrite for_mut_idle.
  2:{ intros p Hp. apply scripts_idle; [apply (forallb_elem _ _ _ Hs Hp)|].
      apply (flat_map_nil _ _ Es), Hp. }
  assert (set_script (script a) a = a) as -> by (by destruct a).
  rewrite for_mut_idle.
  2:{ intros [name p] Hp. apply field_idle.
      - apply (forallb_elem _ _ _ Hm Hp).
      - apply (flat_map_nil _ _ Em), Hp. }
  assert (set_meta (meta a) a = a) as -> by (by destruct a).
  rewrite for_mut_idle.
  2:{ intros p Hp. apply check_idle; [apply (forallb_elem _ _ _ Hh Hp)|].
      eapply events_value_nil, (flat_map_nil _ _ Eh), Hp. }
  assert (set_html (html a) a = a) as -> by (by destruct a).
  reflexivity.
Qed.

(** No pattern of the entry fires on the page, url patterns included. *)
Definition quiet (w : WebPage.t) (x : string * app) : bool :=
  negb (some_event (firing_events x.2 w)).

(** X16. On a page on which no pattern of a store of well-formed patterns
    fires, [analyze] returns the empty set and leaves the store exactly as
    it was: no flag, map, total, version or pattern is written. *)
Theorem analyze_quiet_page (w : WebPage.t) (apps : dict app) :
  store_ok apps = true ->
  forallb (quiet w) apps = true ->
  analyze w apps = (apps, Ok ∅).
Proof.
  intros Hok Hq. unfold analyze, direct_apps.
  rewrite for_mut_idle.
  - unfold _get_implied_apps, __get_implied_apps. rewrite elements_empty.
    cbn [fmap list_fmap union_list implied_loop].
    rewrite decide_True by set_solver. do 2 f_equal; set_solver.
  - intros [name a] Hx. unfold analyze_entry.
    rewrite has_app_idle; [done| |].
    + apply (forallb_elem _ _ _ Hok Hx).
    + pose proof (forallb_elem _ _ _ Hq Hx) as H. unfold quiet in H.
      cbn [snd] in H. by destruct (firing_events a w).
Qed.

End Quiet.

Lemma analyze_quiet_page_witness :
  store_ok lib_store = true
  /\ forallb (quiet blank_page) lib_store = true
  /\ analyze blank_page lib_store = (lib_store, Ok ∅).
Proof.
  assert (store_ok lib_store = true) as H1 by (vm_compute; reflexivity).
  assert (forallb (quiet blank_page) lib_store = true) as H2
    by (vm_compute; reflexivity).
  split; [exact H1|]. split; [exact H2|].
  exact (analyze_quiet_page blank_page lib_store H1 H2).
Defined.

(** ** Analyzing the same page again *)

Section Again.
Context {engine : RegexEngine}.

Lemma alike_regex_of p p' : alike p p' -> regex_of p' = regex_of p.
Proof. intros [H _]. unfold regex_of. by rewrite H. Qed.

Lemma alike_string_of p p' : alike p p' -> string_of p' = string_of p.
Proof. intros [H _]. unfold string_of. by rewrite H. Qed.

Lemma alike_events_value app_type key value p p' :
  alike p p' ->
  events_value app_type key value p' = events_value app_type key value p.
Proof.
  intros H. unfold events_value, fires, event_of.
  by rewrite (alike_regex_of _ _ H), (alike_string_of _ _ H), (proj2 H).
Qed.

Lemma alike_events_field app_type mapping x x' :
  alike_field x x' ->
  events_field app_type mapping x' = events_field app_type mapping x.
Proof.
  intros [Hn H]. unfold events_field. rewrite Hn.
  destruct (mapping x.1); [|done]. by apply alike_events_value.
Qed.

Lemma alike_events_script scripts p p' :
  alike p p' -> events_script scripts p' = events_script scripts p.
Proof.
  intros H. unfold events_script.
  induction scripts as [|x scripts IH]; [done|]. cbn [flat_map].
  by rewrite IH, (alike_events_value _ _ _ _ _ H).
Qed.

Lemma flat_map_Forall2 {A B} (Q : relation A) (f : A -> list B) l l' :
  (forall x x', Q x x' -> f x' = f x) ->
  Forall2 Q l l' -> flat_map f l' = flat_map f l.
Proof.
  intros Hf. induction 1 as [|x x' l l' Hx _ IH]; [done|].
  cbn [flat_map]. by rewrite IH, (Hf _ _ Hx).
Qed.

Lemma keeps_detecting_events w a a' :
  keeps a a' -> detecting_events a' w = detecting_events a w.
Proof.
  intros []. unfold detecting_events, headers_events, script_events,
    meta_events, html_events.
  rewrite (flat_map_Forall2 alike_field _ (headers a) (headers a'));
    [|apply alike_events_field|done].
  rewrite (flat_map_Forall2 alike _ (script a) (script a'));
    [|apply alike_events_script|done].
  rewrite (flat_map_Forall2 alike_field _ (meta a) (meta a'));
    [|apply alike_events_field|done].
  rewrite (flat_map_Forall2 alike _ (html a) (html a'));
    [|intros ? ?; apply alike_events_value|done].
  done.
Qed.

Lemma keeps_firing_events w a a' :
  keeps a a' -> firing_events a' w = firing_events a w.
Proof.
  intros H. unfold firing_events. rewrite (keeps_detecting_events _ _ _ H).
  destruct H. unfold url_events.
  rewrite (flat_map_Forall2 alike _ (url a) (url a'));
    [done|intros ? ?; apply alike_events_value|done].
Qed.

(** Writing the same events again changes nothing. *)
Lemma fold_last_weight l (evs : list event) acc :
  fold_left (fun acc (e : event) => if String.eqb e.1 l then Some e.2 else acc)
    evs acc
  = match last_weight l evs with
    | Some w => Some w
    | None => acc
    end.
Proof.
  unfold last_weight. revert acc.
  induction evs as [|[k w] evs IH]; intros acc; cbn [fold_left fst snd]; [done|].
  destruct (String.eqb k l); [|apply IH].
  rewrite (IH (Some w)).
  by destruct (fold_left _ evs None).
Qed.

Lemma recorded_again m evs : recorded (recorded m evs) evs = recorded m evs.
Proof.
  apply map_eq. intros l. rewrite !lookup_recorded, !fold_last_weight.
  by destruct (last_weight l evs).
Qed.

Lemma record_again evs oc : record evs (record evs oc) = record evs oc.
Proof.
  destruct evs as [|e evs]; [done|].
  change (record (e :: evs) (record (e :: evs) oc))
    with (Some (recorded (recorded (default ∅ oc) (e :: evs)) (e :: evs))).
  by rewrite recorded_again.
Qed.

(** Stores with the same names and implications imply the same. *)
Definition same_implies (x x' : string * app) : Prop :=
  x'.1 = x.1 /\ implies x'.2 = implies x.2.

Lemma same_implies_by apps apps' name :
  Forall2 same_implies apps apps' ->
  implied_by apps' name = implied_by apps name.
Proof.
  unfold implied_by.
  induction 1 as [|[k a] [k' a'] apps apps' [Hk Hi] _ IH]; [done|].
  cbn [fst snd] in *. subst k'. cbn [dget].
  destruct (String.eqb name k); [by rewrite Hi|exact IH].
Qed.

Lemma same_implies_get apps apps' names :
  Forall2 same_implies apps apps' ->
  __get_implied_apps apps' names = __get_implied_apps apps names.
Proof.
  intros H. unfold __get_implied_apps. f_equal.
  apply list_fmap_ext. intros i name _. by apply same_implies_by.
Qed.

Lemma same_implies_loop apps apps' fuel all implied :
  Forall2 same_implies apps apps' ->
  implied_loop apps' fuel all implied = implied_loop apps fuel all implied.
Proof.
  intros H. revert all implied.
  induction fuel as [|fuel IH]; intros all implied; cbn [implied_loop]; [done|].
  destruct (decide (implied ⊆ all)); [done|].
  by rewrite IH, (same_implies_get _ _ _ H).
Qed.

Lemma same_implies_names apps apps' :
  Forall2 same_implies apps apps' -> implied_names apps' = implied_names apps.
Proof.
  unfold implied_names. intros H. f_equal.
  induction H as [|x x' l l' [_ Hi] _ IH]; [done|].
  cbn [fmap list_fmap]. rewrite Hi. f_equal. exact IH.
Qed.

Lemma same_implies_implied apps apps' names :
  Forall2 same_implies apps apps' ->
  _get_implied_apps apps' names = _get_implied_apps apps names.
Proof.
  intros H. unfold _get_implied_apps.
  by rewrite (same_implies_names _ _ H), (same_implies_get _ _ _ H),
    (same_implies_loop _ _ _ _ _ H).
Qed.

Lemma kept_detected_names w apps apps' :
  Forall2 entry_kept apps apps' ->
  detected_names w apps' = detected_names w apps.
Proof.
  unfold detected_names. intros H.
  apply (f_equal (list_to_set (C := gset string))).
  induction H as [|x x' l l' [Hn Hk] _ IH]; [done|].
  cbn [filter list_filter] in *. rewrite (keeps_detecting_events w _ _ Hk).
  destruct (decide (some_event (detecting_events x.2 w) = true));
    cbn [map]; [f_equal; [exact Hn|exact IH]|exact IH].
Qed.

Lemma Forall2_chain {A} (Q E P : A -> A -> Prop) (l l1 l2 : list A) :
  (forall x x1 x2, Q x x1 -> E x1 x2 -> P x1 x2) ->
  Forall2 Q l l1 -> Forall2 E l1 l2 -> Forall2 P l1 l2.
Proof.
  intros HP HQ. revert l2.
  induction HQ as [|x x1 l l1 Hx _ IH]; intros l2 HE.
  - inversion HE. constructor.
  - inversion HE as [|? x2 ? l2' Hx2 Hrest]; subst.
    constructor; [by eapply HP|by apply IH].
Qed.

Lemma Forall2_both {A} (Q E : A -> A -> Prop) (l l' : list A) :
  Forall2 Q l l' -> Forall2 E l l' -> Forall2 (fun x x' => Q x x' /\ E x x') l l'.
Proof.
  induction 1 as [|x x' l l' Hx _ IH]; intros HE; [constructor|].
  inversion HE; subst. constructor; [done|by apply IH].
Qed.

(** The results of an entry that confidence is about. *)
Definition same_confidence (x x' : string * app) : Prop :=
  x'.1 = x.1
  /\ confidence x'.2 = confidence x.2
  /\ confidenceTotal x'.2 = confidenceTotal x.2
  /\ detected x'.2 = detected x.2.

(** X17. Analyzing the same page a second time changes no score: on a
    store of well-formed patterns both calls of [analyze] return, they
    return the same set of names, and the second leaves every entry with
    the detected flag, the confidence map and the confidence total that
    the first left. *)
Theorem analyze_same_page_again (w : WebPage.t) (apps : dict app) :
  store_ok apps = true ->
  exists apps1 apps2 names,
    analyze w apps = (apps1, Ok names)
    /\ analyze w apps1 = (apps2, Ok names)
    /\ Forall2 same_confidence apps1 apps2.
Proof.
  intros Hok.
  destruct (analyze_effect w apps Hok) as (apps1 & i1 & Han1 & Hi1 & Hok1 & He1).
  destruct (analyze_effect w apps1 Hok1) as (apps2 & i2 & Han2 & Hi2 & _ & He2).
  pose proof (kept_analyze w apps) as Hk. rewrite Han1 in Hk. cbn [fst] in Hk.
  exists apps1, apps2, (detected_names w apps ∪ i1).
  split; [done|]. split.
  - rewrite Han2, (kept_detected_names w _ _ Hk). do 3 f_equal.
    rewrite (kept_detected_names w _ _ Hk) in Hi2.
    rewrite (same_implies_implied apps1 apps2) in Hi2; [congruence|].
    eapply Forall2_impl; [exact He2|].
    intros x x' (Hn & _ & Hi & _). by split.
  - refine (Forall2_chain _ _ _ _ _ _ _ (Forall2_both _ _ _ _ He1 Hk) He2).
    intros x x1 x2 [(_ & _ & _ & Hc1 & Hd1 & Ht1) [_ Hk1]]
      (Hn & _ & _ & Hc2 & Hd2 & Ht2).
    rewrite (keeps_firing_events w _ _ Hk1) in Hc2, Hd2, Ht2.
    rewrite (keeps_detecting_events w _ _ Hk1) in Ht2.
    rewrite Hc1 in Hc2, Ht2. rewrite record_again in Hc2, Ht2.
    split; [done|]. split; [congruence|]. split.
    + rewrite Ht2, Ht1. by destruct (some_event (detecting_events x.2 w)).
    + rewrite Hd2, Hd1. by destruct (some_event (firing_events x.2 w)).
Qed.

End Again.

Lemma analyze_same_page_again_witness :
  store_ok lib_store = true
  /\ exists apps1 apps2 names,
       analyze lib_page lib_store = (apps1, Ok names)
       /\ analyze lib_page apps1 = (apps2, Ok names)
       /\ Forall2 same_confidence apps1 apps2.
Proof.
  assert (store_ok lib_store = true) as H by (vm_compute; reflexivity).
  split; [exact H|]. exact (analyze_same_page_again lib_page lib_store H).
Defined.

(** ** The implied names are the names that can be reached *)

Section Reach.
Context {engine : RegexEngine}.
Implicit Types (apps : dict app) (names all implied : gset string).

(** [n] is in the [implies] list of the entry of a name of [names], or of
    the entry of a name that is itself implied. *)
Inductive implied_from apps names : string -> Prop :=
| implied_direct T a n :
    T ∈ names -> dget T apps = Some a -> n ∈ implies a ->
    implied_from apps names n
| implied_step T a n :
    implied_from apps names T -> dget T apps = Some a -> n ∈ implies a ->
    implied_from apps names n.

Lemma implied_loop_only apps names fuel all implied R :
  implied_loop apps fuel all implied = Some R ->
  (forall n, n ∈ all -> implied_from apps names n) ->
  (forall n, n ∈ implied -> implied_from apps names n) ->
  forall n, n ∈ R -> implied_from apps names n.
Proof.
  revert all implied.
  induction fuel as [|fuel IH]; intros all implied; cbn [implied_loop];
    [discriminate|].
  destruct (decide (implied ⊆ all)) as [Hsub|Hnsub].
  - by intros [= ->].
  - intros H Hall Himp. apply (IH _ _ H).
    + intros n [?|?]%elem_of_union; auto.
    + intros n (T & a & HT & E & Hn)%elem_of_implied.
      apply (implied_step _ _ T a n); [|done|done].
      apply elem_of_union in HT as [?|?]; auto.
Qed.

(** X18. [_get_implied_apps] returns, and the set it returns holds exactly
    the names that can be reached from the detected names by following
    [implies] lists, through entries of the store: each name in the list
    of a detected entry, each name in the list of the entry of a name so
    reached, and no other name. A detected name is in it only when it is
    reached that way. *)
Theorem implied_apps_are_the_reachable_names (apps : dict app)
    (detected_apps : gset string) :
  exists implied_apps,
    _get_implied_apps apps detected_apps = Some implied_apps
    /\ forall n, n ∈ implied_apps <-> implied_from apps detected_apps n.
Proof.
  unfold _get_implied_apps.
  destruct (implied_loop_exits apps (S (size (implied_names apps))) ∅
              (__get_implied_apps apps detected_apps))
    as (R & HR & _ & Himp & Hfix).
  - set_solver.
  - apply implied_in_names.
  - assert (size (implied_names apps ∖ ∅) <= size (implied_names apps))%nat.
    { apply subseteq_size. set_solver. }
    lia.
  - exists R. split; [done|]. intros n. split.
    + apply (implied_loop_only _ _ _ _ _ _ HR).
      * intros x Hx. set_solver.
      * intros x (T & a & HT & E & Hx)%elem_of_implied.
        by apply (implied_direct _ _ T a x).
    + induction 1 as [T a n HT E Hn|T a n _ IH E Hn].
      * apply Himp, elem_of_implied. eauto.
      * destruct Hfix as [->|Hfix]; [set_solver|].
        apply Hfix, elem_of_implied. eauto.
Qed.

End Reach.

(** ** A confidence that is no integer *)

Section BadConfidence.
Context {engine : RegexEngine}.

(** The entry after the first two statements of [_set_detected_app]. *)
Definition flagged (a : app) : app :=
  let a := set_detected (Some true) a in
  match confidence a with
  | None => set_confidence (Some ∅) a
  | Some _ => a
  end.

(** X19. A pattern whose confidence attribute is a string that [int]
    rejects does no harm until it fires: [check] answers that it did not
    fire and changes nothing when its regex does not match, and when it
    matches raises ValueError, having set the key [detected] of the entry
    and created its confidence map, with no label recorded and the
    pattern as it was. *)
Theorem check_confidence_not_an_integer (app_name app_type value key : string)
    (a : app) (p : pattern) (r : regex) (s : string) :
  regex_of p = Some r ->
  dget "confidence" p = Some (VStr s) ->
  PyStr.int_of_str int_max_str_digits s = None ->
  check app_name app_type value key (a, p)
  = if re_search r value then ((flagged a, p), Raise ValueError)
    else ((a, p), Ok false).
Proof.
  intros Hr Hc Hs. apply regex_of_Some in Hr.
  unfold check, mbind, M_bind, get, lift, search_value. cbn [fst snd].
  rewrite Hr. destruct (re_search r value); [|done].
  unfold _set_detected_app, mbind, M_bind, on_app, modify, get, lift.
  cbn [fst snd]. rewrite Hc. cbn [int_of_value]. rewrite Hs. reflexivity.
Qed.

End BadConfidence.

Definition high_pattern : pattern :=
  compiled (H := mini_engine) "foo\;confidence:high".

Lemma check_confidence_not_an_integer_witness :
  check "X" "html" "<p>foo</p>" "" (entry_implying [], high_pattern)
  = ((flagged (entry_implying []), high_pattern), Raise ValueError)
  /\ check "X" "html" "<p>bar</p>" "" (entry_implying [], high_pattern)
     = ((entry_implying [], high_pattern), Ok false).
Proof.
  assert (exists r, regex_of high_pattern = Some r
                    /\ re_search r "<p>foo</p>" = true
                    /\ re_search r "<p>bar</p>" = false) as (r & Hr & H1 & H2).
  { eexists. split; [reflexivity|]. split; vm_compute; reflexivity. }
  assert (dget "confidence" high_pattern = Some (VStr "high")) as Hc
    by reflexivity.
  assert (PyStr.int_of_str (int_max_str_digits (RegexEngine := mini_engine))
            "high" = None) as Hs by reflexivity.
  split.
  - rewrite (check_confidence_not_an_integer "X" "html" "<p>foo</p>" ""
               (entry_implying []) high_pattern r "high" Hr Hc Hs).
    by rewrite H1.
  - rewrite (check_confidence_not_an_integer "X" "html" "<p>bar</p>" ""
               (entry_implying []) high_pattern r "high" Hr Hc Hs).
    by rewrite H2.
Defined.

(** What [int] takes for a confidence: surrounding blanks, U+00A0 among
    them, are stripped, the separators U+001C..U+001F are not; a string of
    more digits than the interpreter converts is a ValueError. *)
Fixpoint copies (n : nat) (c : ascii) : string :=
  match n with
  | O => EmptyString
  | S n' => String c (copies n' c)
  end.

Example int_of_confidence :
  PyStr.int_of_str 4300 (String (ascii_of_nat 28) "5") = None
  /\ PyStr.int_of_str 4300 (String (ascii_of_nat 160) " 5 ") = Some 5
  /\ PyStr.int_of_str 4300 "+5_0" = Some 50
  /\ PyStr.int_of_str 4300 (copies 4301 "9") = None
  /\ PyStr.int_of_str 4300 (String "-" (copies 4301 "0")) = None
  /\ PyStr.int_of_str 4300 (copies 4300 "0") = Some 0
  /\ PyStr.int_of_str 0 (copies 4301 "0") = Some 0.
Proof. repeat split; vm_compute; reflexivity. Qed.

(** A confidence that begins with U+001C: the pattern is not well formed,
    and matching it raises ValueError. *)
Definition separator_pattern : pattern :=
  compiled (H := mini_engine)
    ("foo\;confidence:" +:+ String (ascii_of_nat 28) "5").

Example confidence_after_separator :
  pattern_ok separator_pattern = false
  /\ (check "X" "html" "<p>foo</p>" "" (entry_implying [], separator_pattern)).2
     = Raise ValueError.
Proof. split; vm_compute; reflexivity. Qed.

(** ** [analyze_with_categories], [analyze_with_versions_and_categories] *)

Section WithCategories.
Context {engine : RegexEngine}.

(** [for app_name in detected_apps: cat_names = self.get_categories(app_name);
    categorised_apps[app_name] = {"categories": cat_names}] *)
Fixpoint categories_of (categories : dict value) (apps : dict app)
    (names : list string) : result (list (string * list value)) :=
  match names with
  | [] => Ok []
  | app_name :: rest =>
      match get_categories categories apps app_name with
      | Raise e => Raise e
      | Ok cat_names =>
          match categories_of categories apps rest with
          | Raise e => Raise e
          | Ok r => Ok ((app_name, cat_names) :: r)
          end
      end
  end.

Definition analyze_with_categories (categories : dict value)
    (webpage : WebPage.t) : M (dict app) (list (string * list value)) :=
  detected_apps ← analyze webpage;
  apps ← get;
  lift (categories_of categories apps (elements detected_apps)).

(** [for app_name in versioned_apps: cat_names = ...;
    versioned_and_categorised_apps[app_name]["categories"] = cat_names]:
    each item then holds its versions and its categories. *)
Fixpoint add_categories (categories : dict value) (apps : dict app)
    (versioned_apps : list (string * list string))
  : result (list (string * (list string * list value))) :=
  match versioned_apps with
  | [] => Ok []
  | (app_name, vs) :: rest =>
      match get_categories categories apps app_name with
      | Raise e => Raise e
      | Ok cat_names =>
          match add_categories categories apps rest with
          | Raise e => Raise e
          | Ok r => Ok ((app_name, (vs, cat_names)) :: r)
          end
      end
  end.

Definition analyze_with_versions_and_categories (categories : dict value)
    (webpage : WebPage.t)
  : M (dict app) (list (string * (list string * list value))) :=
  versioned_apps ← analyze_with_versions webpage;
  apps ← get;
  lift (add_categories categories apps versioned_apps).

(** X20. An analysis does not change what [get_categories] answers: for
    every name, known or not, the answer on the store that [analyze]
    leaves, returned or raised, is the answer on the store it found. *)
Theorem analyze_keeps_categories (categories : dict value) (w : WebPage.t)
    (apps : dict app) (app_name : string) :
  get_categories categories (analyze w apps).1 app_name
  = get_categories categories apps app_name.
Proof.
  unfold get_categories.
  pose proof (stored_dget apps _ app_name (stored_analyze w apps)) as H.
  destruct (dget app_name apps) as [a|].
  - destruct H as (a' & -> & Ha). by rewrite (ev_cats _ _ Ha).
  - by rewrite H.
Qed.

Lemma categories_of_raise categories apps names e :
  categories_of categories apps names = Raise e -> e = AttributeError.
Proof.
  induction names as [|n names IH]; cbn [categories_of]; [discriminate|].
  destruct (get_categories categories apps n) as [cs|x] eqn:E.
  - destruct (categories_of categories apps names); [discriminate|].
    intros [= <-]. by apply IH.
  - intros [= <-]. by apply category_names_raise in E.
Qed.

Lemma categories_of_names categories apps names l :
  categories_of categories apps names = Ok l ->
  map fst l = names
  /\ forall n cs, (n, cs) ∈ l -> get_categories categories apps n = Ok cs.
Proof.
  revert l. induction names as [|n names IH]; intros l; cbn [categories_of].
  - intros [= <-]. split; [done|]. by intros n cs ?%elem_of_nil.
  - destruct (get_categories categories apps n) as [cs|] eqn:E; [|discriminate].
    destruct (categories_of categories apps names) as [r|]; [|discriminate].
    intros [= <-]. destruct (IH r eq_refl) as [H1 H2]. split.
    + cbn [map fst]. by rewrite H1.
    + intros n' cs' [[= -> ->]|Hin]%elem_of_cons; [done|by apply H2].
Qed.

(** X21. [analyze_with_categories] leaves the store [analyze] leaves. When
    [analyze] raises it raises the same; when [analyze] returns, it
    returns one item for each name of the set, with what [get_categories]
    answers for the name, the empty list for a name that is no entry of
    the store, or raises AttributeError, the error of a category id that
    is not in the table; it adds no KeyError. *)
Theorem analyze_with_categories_outcome (categories : dict value)
    (w : WebPage.t) (apps : dict app) :
  (analyze_with_categories categories w apps).1 = (analyze w apps).1
  /\ match (analyze w apps).2 with
     | Raise e => (analyze_with_categories categories w apps).2 = Raise e
     | Ok names =>
         match (analyze_with_categories categories w apps).2 with
         | Raise e => e = AttributeError
         | Ok l =>
             map fst l = elements names
             /\ forall n cs, (n, cs) ∈ l ->
                  get_categories categories apps n = Ok cs
                  /\ (dget n apps = None -> cs = [])
         end
     end.
Proof.
  unfold analyze_with_categories, mbind, M_bind, get, lift.
  pose proof (analyze_keeps_categories categories w apps) as Hk.
  destruct (analyze w apps) as [apps' [names|e]]; cbn [fst snd] in *;
    [|done].
  split; [done|].
  destruct (categories_of categories apps' (elements names)) as [l|e] eqn:E.
  - apply categories_of_names in E as [H1 H2]. split; [done|].
    intros n cs Hin. apply H2 in Hin. rewrite Hk in Hin. split; [done|].
    intros Hn. rewrite (get_categories_no_entry _ _ _ Hn) in Hin.
    by injection Hin.
  - by apply categories_of_raise in E.
Qed.

Lemma add_categories_split categories apps versioned_apps :
  add_categories categories apps versioned_apps
  = match categories_of categories apps (map fst versioned_apps) with
    | Raise e => Raise e
    | Ok l =>
        Ok (map (fun x : (string * list string) * (string * list value) =>
                   (x.1.1, (x.1.2, x.2.2)))
              (zip versioned_apps l))
    end.
Proof.
  induction versioned_apps as [|[n vs] rest IH];
    cbn [add_categories categories_of map fst]; [done|].
  destruct (get_categories categories apps n) as [cs|]; [|done].
  rewrite IH. by destruct (categories_of categories apps (map fst rest)).
Qed.

Lemma versions_of_names apps names l :
  versions_of apps names = Ok l -> map fst l = names.
Proof.
  revert l. induction names as [|n names IH]; intros l; cbn [versions_of].
  - by intros [= <-].
  - destruct (get_versions apps n); [|discriminate].
    destruct (versions_of apps names) as [r|]; [|discriminate].
    intros [= <-]. cbn [map fst]. by rewrite (IH r).
Qed.

(** X22. [analyze_with_versions_and_categories] is the two other queries
    put together: it leaves the store that [analyze_with_versions]
    leaves; it raises what [analyze_with_versions] raises, and when that
    one returns, raises what [analyze_with_categories] raises; when both
    return it returns their items paired, name by name: the versions of
    the one with the categories of the other. *)
Theorem analyze_with_versions_and_categories_pairs (categories : dict value)
    (w : WebPage.t) (apps : dict app) :
  (analyze_with_versions_and_categories categories w apps).1
  = (analyze_with_versions w apps).1
  /\ (analyze_with_versions_and_categories categories w apps).2
     = match (analyze_with_versions w apps).2 with
       | Raise e => Raise e
       | Ok versioned_apps =>
           match (analyze_with_categories categories w apps).2 with
           | Raise e => Raise e
           | Ok categorised_apps =>
               Ok (map (fun x : (string * list string) * (string * list value) =>
                          (x.1.1, (x.1.2, x.2.2)))
                     (zip versioned_apps categorised_apps))
           end
       end.
Proof.
  unfold analyze_with_versions_and_categories, analyze_with_categories,
    analyze_with_versions, mbind, M_bind, get, lift.
  destruct (analyze w apps) as [apps' [names|e]]; cbn [fst snd]; [|done].
  destruct (versions_of apps' (elements names)) as [vl|e] eqn:E;
    cbn [fst snd]; [|done].
  split; [done|]. rewrite add_categories_split.
  by rewrite (versions_of_names _ _ _ E).
Qed.

End WithCategories.

(** ** [analyze_with_versions] *)

Section WithVersions.
Context {engine : RegexEngine}.

Lemma versions_of_raise apps names e :
  versions_of apps names = Raise e ->
  e = KeyError /\ exists n, n ∈ names /\ dget n apps = None.
Proof.
  induction names as [|n names IH]; cbn [versions_of]; [discriminate|].
  unfold get_versions at 1. destruct (dget n apps) as [a|] eqn:E.
  - destruct (versions_of apps names) as [r|x]; [discriminate|].
    intros [= <-]. destruct (IH eq_refl) as (-> & m & Hm & Hnone).
    split; [done|]. exists m. split; [by right|done].
  - intros [= <-]. split; [done|]. exists n. split; [left|done].
Qed.

Lemma versions_of_items apps names l :
  versions_of apps names = Ok l ->
  map fst l = names
  /\ forall n vs, (n, vs) ∈ l -> get_versions apps n = Ok vs.
Proof.
  revert l. induction names as [|n names IH]; intros l; cbn [versions_of].
  - intros [= <-]. split; [done|]. by intros n vs ?%elem_of_nil.
  - destruct (get_versions apps n) as [vs|] eqn:E; [|discriminate].
    destruct (versions_of apps names) as [r|]; [|discriminate].
    intros [= <-]. destruct (IH r eq_refl) as [H1 H2]. split.
    + cbn [map fst]. by rewrite H1.
    + intros n' vs' [[= -> ->]|Hin]%elem_of_cons; [done|by apply H2].
Qed.

(** X23. [analyze_with_versions] leaves the store [analyze] leaves. When
    [analyze] raises it raises the same; when [analyze] returns, it
    returns one item for each name of the set, with what [get_versions]
    answers for the name on the store as the analysis left it, or raises
    KeyError, and does so only when a name of the set is no entry of the
    store. *)
Theorem analyze_with_versions_outcome (w : WebPage.t) (apps : dict app) :
  (analyze_with_versions w apps).1 = (analyze w apps).1
  /\ match (analyze w apps).2 with
     | Raise e => (analyze_with_versions w apps).2 = Raise e
     | Ok names =>
         match (analyze_with_versions w apps).2 with
         | Raise e =>
             e = KeyError
             /\ exists n, n ∈ names /\ dget n (analyze w apps).1 = None
         | Ok l =>
             map fst l = elements names
             /\ forall n vs, (n, vs) ∈ l ->
                  get_versions (analyze w apps).1 n = Ok vs
         end
     end.
Proof.
  unfold analyze_with_versions, mbind, M_bind, get, lift.
  destruct (analyze w apps) as [apps' [names|e]]; cbn [fst snd]; [|done].
  split; [done|].
  destruct (versions_of apps' (elements names)) as [l|e] eqn:E.
  - by apply versions_of_items in E.
  - apply versions_of_raise in E as (-> & n & Hn & Hnone). split; [done|].
    exists n. split; [by apply elem_of_elements|done].
Qed.

End WithVersions.

(** ** The patterns of the database are well formed *)

Section PreparedOk.
Context {engine : RegexEngine}.

(** The attributes [_prepare_pattern] builds hold strings, but for [regex]
    when it is the compiled expression. *)
Definition textual (attrs : pattern) : Prop :=
  forall k v, dget k attrs = Some v ->
    (exists s, v = VStr s) \/ (k = "regex" /\ exists r, v = VRegex r).

Lemma textual_dset k s attrs :
  textual attrs -> textual (dset k (VStr s) attrs).
Proof.
  intros H k' v. destruct (decide (k = k')) as [<-|Hne].
  - rewrite dget_dset_eq. intros [= <-]. eauto.
  - rewrite dget_dset_ne by done. apply H.
Qed.

Lemma prepare_segment_textual i e attrs :
  textual attrs -> is_Some (dget "string" attrs) ->
  exists attrs', prepare_segment (S i) e attrs = Ok attrs'
                 /\ textual attrs' /\ is_Some (dget "string" attrs').
Proof.
  intros Ht Hs. cbn [prepare_segment]. eexists. split; [reflexivity|].
  destruct (PyStr.split e ":") as [|key [|x l]]; [done|done|].
  split; [by apply textual_dset|].
  destruct (decide (key = "string")) as [->|Hne].
  - rewrite dget_dset_eq. eauto.
  - by rewrite dget_dset_ne.
Qed.

Lemma prepare_segments_textual i segments attrs p :
  textual attrs -> is_Some (dget "string" attrs) ->
  prepare_segments (S i) segments attrs = Ok p ->
  textual p /\ is_Some (dget "string" p).
Proof.
  revert i attrs. induction segments as [|e segments IH]; intros i attrs Ht Hs;
    cbn [prepare_segments]; [by intros [= <-]|].
  destruct (prepare_segment_textual i e attrs Ht Hs) as (a' & -> & Ht' & Hs').
  by apply IH.
Qed.

Lemma plain_textual e r :
  textual (plain e r) /\ is_Some (dget "string" (plain e r)).
Proof.
  split.
  - intros k v. unfold plain. cbn [dget].
    destruct (String.eqb k "string"); [intros [= <-]; eauto|].
    destruct (String.eqb k "regex") eqn:Ek; [|done].
    apply String.eqb_eq in Ek. intros [= <-]. eauto.
  - unfold plain. cbn [dget]. rewrite String.eqb_refl. eauto.
Qed.

Lemma prepare_pattern_textual s p :
  _prepare_pattern (VStr s) = Ok p ->
  textual p /\ is_Some (dget "string" p).
Proof.
  unfold _prepare_pattern, PyStr.split.
  destruct (PyStr.split_from "\;" 0 "" s) as [|e segments] eqn:E.
  { by apply split_from_nonempty in E. }
  cbn [prepare_segments prepare_segment].
  destruct (re_compile true e) as [r| |x]; [| |discriminate].
  - apply prepare_segments_textual; apply (plain_textual e r).
  - apply prepare_segments_textual; apply (plain_textual e re_never).
Qed.

(** X24. A pattern that [_prepare_pattern] built from a string can make
    matching raise in two ways only: it is well formed exactly when its
    [regex] is the compiled expression (no attribute named regex took its
    place) and its confidence, if it has one, is a string that [int]
    accepts. Its [string] and its version template are strings in every
    case. *)
Theorem prepared_pattern_ok (s : string) (p : pattern) :
  _prepare_pattern (VStr s) = Ok p ->
  (exists text, dget "string" p = Some (VStr text))
  /\ version_ok p = true
  /\ (pattern_ok p = true <->
      (exists r, dget "regex" p = Some (VRegex r))
      /\ match dget "confidence" p with
         | None => True
         | Some (VStr c) =>
             is_Some (PyStr.int_of_str int_max_str_digits c)
         | Some _ => False
         end).
Proof.
  intros H. apply prepare_pattern_textual in H as [Ht [v Hv]].
  assert (exists text, dget "string" p = Some (VStr text)) as Hstr.
  { destruct (Ht _ _ Hv) as [[x ->]|[? _]]; [eauto|done]. }
  assert (version_ok p = true) as Hver.
  { unfold version_ok. destruct (dget "version" p) as [x|] eqn:E; [|done].
    destruct (Ht _ _ E) as [[y ->]|[? _]]; done. }
  split; [exact Hstr|]. split; [exact Hver|].
  unfold pattern_ok. rewrite Hver, andb_true_r.
  destruct Hstr as [text Htext].
  assert (bool_decide (is_Some (string_of p)) = true) as ->.
  { apply bool_decide_eq_true. unfold string_of. rewrite Htext. eauto. }
  rewrite andb_true_r, andb_true_iff, !bool_decide_eq_true.
  unfold regex_of, weight_of.
  destruct (dget "regex" p) as [vr|] eqn:Er.
  2:{ split; intros [[? ?] _]; discriminate. }
  destruct vr as [| | | | | |r]; try (split; intros [[? ?] _]; discriminate).
  destruct (dget "confidence" p) as [c|] eqn:Ec.
  - destruct (Ht _ _ Ec) as [[y ->]|[[=] _]]. cbn [int_of_value].
    destruct (PyStr.int_of_str int_max_str_digits y) as [z|];
      cbn [of_option]; split; intros [H1 H2]; (split; [eauto|]);
      try done; by destruct H2.
  - split; intros _; split; eauto.
Qed.

End PreparedOk.

Lemma prepared_pattern_ok_witness :
  _prepare_pattern (engine := mini_engine) (VStr "foo\;confidence:high")
  = Ok high_pattern
  /\ pattern_ok high_pattern = false
  /\ PyStr.int_of_str (int_max_str_digits (RegexEngine := mini_engine)) "high"
     = None.
Proof.
  assert (_prepare_pattern (engine := mini_engine)
            (VStr "foo\;confidence:high") = Ok high_pattern) as H
    by reflexivity.
  split; [exact H|]. split; [|reflexivity].
  destruct (prepared_pattern_ok "foo\;confidence:high" high_pattern H)
    as (_ & _ & Hok).
  destruct (pattern_ok high_pattern) eqn:E; [|reflexivity].
  destruct (proj1 Hok eq_refl) as [_ Hc].
  exfalso. exact (is_Some_None Hc).
Defined.
